(** * ChannelWrapper: a shallow embedding of [src/ChannelWrapper.ts]

    The wrapper is an event-driven object: every method and every
    continuation of an [async] method runs to completion on Node's single
    thread.  The embedding therefore has one state type, [World], one Rocq
    function per method or continuation, and one dispatcher [step] that
    runs the piece of code an external stimulus triggers.

    Everything the wrapper does to its collaborators (the amqplib channel,
    the connection manager, the caller's promises, the scheduler) is
    appended to [history]. *)

From stdpp Require Import base tactics option list strings.
From Stdlib Require Import Lia.

(** ** Data model *)

(** amqplib objects are compared by identity ([this._channel === channel]):
    a channel is the number of channels created before it. *)
Abbreviation Channel := nat (only parsing).

(** A setup function is caller code; only its identity matters here. *)
Abbreviation SetupFunc := nat (only parsing).

Abbreviation Buffer := string (only parsing).

(** [amqplib.Options.Publish]: an object of option fields; [{}] is [[]]. *)
Abbreviation PublishOptions := (list (string * string)) (only parsing).

Record Error := {
  err_name : string;
  err_message : string;
  err_code : option nat;
}.

#[global] Instance Error_eq_dec : EqDecision Error.
Proof. solve_decision. Defined.

(** [new Error(msg)] *)
Definition new_Error (msg : string) : Error :=
  {| err_name := "Error"; err_message := msg; err_code := None |}.

(** State of a caller-visible promise.  [resolve] and [reject] of a JS
    promise only act on a pending promise. *)
Inductive Settled :=
| Pending
| Resolved (result : bool)
| Rejected (err : Error).

#[global] Instance Settled_eq_dec : EqDecision Settled.
Proof. solve_decision. Defined.

(** [interface PublishMessage]: the closures [resolve] and [reject] both
    belong to the promise [publish] returned; [completion] is the index of
    that promise in the store [promises]. *)
Record Message := {
  exchange : string;
  routingKey : string;
  content : Buffer;
  options : option PublishOptions;
  completion : nat;
  isTimedout : bool;
}.

#[global] Instance Message_eq_dec : EqDecision Message.
Proof. solve_decision. Defined.

(** [interface ConsumerOptions] *)
Record ConsumerOptions := {
  opt_consumerTag : option string;
  prefetch : option nat;
  opt_rest : list (string * string);
}.

(** [interface Consumer]; [onMessage] is caller code, kept by identity. *)
Record Consumer := {
  consumerTag : option string;
  queue : string;
  onMessage : nat;
  c_options : ConsumerOptions;
}.

(** Consumer objects are shared between the registry and the callbacks
    handed to amqplib, so they live in a heap and are named by reference. *)
Abbreviation ConsumerRef := nat (only parsing).

(** What [channel.publish] does: it returns the "room remaining" boolean,
    or throws. *)
Inductive PublishResult :=
| Returned (room : bool)
| Thrown (err : Error).

Inductive CmEvent := CmConnectEv | CmDisconnectEv.
Inductive Handler := H_onConnect | H_onDisconnect.
Inductive ChanEvent := ChCloseEv | ChDrainEv.

#[global] Instance CmEvent_eq_dec : EqDecision CmEvent.
Proof. solve_decision. Defined.
#[global] Instance Handler_eq_dec : EqDecision Handler.
Proof. solve_decision. Defined.

(** Events of the wrapper itself ([this.emit]). *)
Inductive WrapperEvent :=
| WConnect
| WError (err : Error) (info : option (option string))
| WClose.

(** Calls the wrapper makes on its collaborators. *)
Inductive Action :=
| QueuePush (m : Message)
| ChanPublish (ch : Channel) (ex rk : string) (body : Buffer)
    (opts : option PublishOptions) (res : PublishResult) (p : nat)
| CallResolve (p : nat) (result : bool)
| CallReject (p : nat) (err : Error)
| Emit (e : WrapperEvent)
| SetImmediate (workerNumber : nat)
| CmOn (ev : CmEvent) (h : Handler)
| CmRemoveListener (ev : CmEvent) (h : Handler)
| ConnCreateChannel (attempt : nat)
| ChanOn (ch : Channel) (ev : ChanEvent)
| CallSetup (f : SetupFunc) (ch : Channel)
| ChanPrefetch (ch : Channel) (n : nat)
| ChanConsume (ch : Channel) (q : string) (tag : option string)
    (rest : list (string * string)) (c : ConsumerRef)
| ChanCancel (ch : Channel) (tag : string)
| ChanClose (ch : Channel)
| OnMessage (c : ConsumerRef) (msg : string).

(** Where an activation of [_onConnect] is suspended. *)
Inductive Phase :=
| AwaitCreateChannel
| AwaitSetups (ch : Channel) (outstanding : list nat)
| AwaitConsumers (outstanding : nat)
| AwaitResume
| Done
| Failed
| FailedSetups (outstanding : list nat).

(** Who awaits the reply to a [channel.consume] call. *)
Inductive Owner :=
| OwnerSetup (attempt : nat)
| OwnerCancelRetry
| OwnerConsumeCall.

Record PendingConsume := {
  pc_consumer : ConsumerRef;
  pc_channel : Channel;
  pc_owner : Owner;
}.

(** Where a call of [consume] is suspended.  The consumer object built
    before [await this._settingUp] is not shared with anyone during the
    wait, so the suspended call is kept as the values it is built from. *)
Inductive ConsumeCall :=
| WaitRandomBytes (q : string) (h : nat) (o : ConsumerOptions)
| WaitSettingUp (attempt : nat) (q : string) (h : nat)
    (o : ConsumerOptions) (tag : string).

(** The wrapper's fields (same names as in the class), followed by the
    part of the environment the wrapper interacts with. *)
Record World := {
  _settingUp : option nat;
  _setups : list SetupFunc;
  _messages : list Message;
  _consumers : list ConsumerRef;
  _channel : option Channel;
  _working : bool;
  _workerNumber : nat;
  _channelHasRoom : bool;
  name : option string;
  (* environment *)
  promises : list Settled;
  consumer_heap : list Consumer;
  cm_listeners : list (CmEvent * Handler);
  connects : list Phase;
  pending_consumes : list PendingConsume;
  consume_calls : list ConsumeCall;
  immediates : list nat;
  channels : nat;
  channel_publish : list Action -> PublishResult;
  history : list Action;
}.

(** *** Field updates *)

Definition set_settingUp (v : option nat) (s : World) : World :=
  {| _settingUp := v; _setups := _setups s; _messages := _messages s;
     _consumers := _consumers s; _channel := _channel s;
     _working := _working s; _workerNumber := _workerNumber s;
     _channelHasRoom := _channelHasRoom s; name := name s;
     promises := promises s; consumer_heap := consumer_heap s;
     cm_listeners := cm_listeners s; connects := connects s;
     pending_consumes := pending_consumes s;
     consume_calls := consume_calls s; immediates := immediates s;
     channels := channels s; channel_publish := channel_publish s;
     history := history s |}.

Definition set_messages (v : list Message) (s : World) : World :=
  {| _settingUp := _settingUp s; _setups := _setups s; _messages := v;
     _consumers := _consumers s; _channel := _channel s;
     _working := _working s; _workerNumber := _workerNumber s;
     _channelHasRoom := _channelHasRoom s; name := name s;
     promises := promises s; consumer_heap := consumer_heap s;
     cm_listeners := cm_listeners s; connects := connects s;
     pending_consumes := pending_consumes s;
     consume_calls := consume_calls s; immediates := immediates s;
     channels := channels s; channel_publish := channel_publish s;
     history := history s |}.

Definition set_consumers (v : list ConsumerRef) (s : World) : World :=
  {| _settingUp := _settingUp s; _setups := _setups s;
     _messages := _messages s; _consumers := v; _channel := _channel s;
     _working := _working s; _workerNumber := _workerNumber s;
     _channelHasRoom := _channelHasRoom s; name := name s;
     promises := promises s; consumer_heap := consumer_heap s;
     cm_listeners := cm_listeners s; connects := connects s;
     pending_consumes := pending_consumes s;
     consume_calls := consume_calls s; immediates := immediates s;
     channels := channels s; channel_publish := channel_publish s;
     history := history s |}.

Definition set_channel (v : option Channel) (s : World) : World :=
  {| _settingUp := _settingUp s; _setups := _setups s;
     _messages := _messages s; _consumers := _consumers s; _channel := v;
     _working := _working s; _workerNumber := _workerNumber s;
     _channelHasRoom := _channelHasRoom s; name := name s;
     promises := promises s; consumer_heap := consumer_heap s;
     cm_listeners := cm_listeners s; connects := connects s;
     pending_consumes := pending_consumes s;
     consume_calls := consume_calls s; immediates := immediates s;
     channels := channels s; channel_publish := channel_publish s;
     history := history s |}.

Definition set_working (v : bool) (s : World) : World :=
  {| _settingUp := _settingUp s; _setups := _setups s;
     _messages := _messages s; _consumers := _consumers s;
     _channel := _channel s; _working := v;
     _workerNumber := _workerNumber s;
     _channelHasRoom := _channelHasRoom s; name := name s;
     promises := promises s; consumer_heap := consumer_heap s;
     cm_listeners := cm_listeners s; connects := connects s;
     pending_consumes := pending_consumes s;
     consume_calls := consume_calls s; immediates := immediates s;
     channels := channels s; channel_publish := channel_publish s;
     history := history s |}.

Definition set_workerNumber (v : nat) (s : World) : World :=
  {| _settingUp := _settingUp s; _setups := _setups s;
     _messages := _messages s; _consumers := _consumers s;
     _channel := _channel s; _working := _working s; _workerNumber := v;
     _channelHasRoom := _channelHasRoom s; name := name s;
     promises := promises s; consumer_heap := consumer_heap s;
     cm_listeners := cm_listeners s; connects := connects s;
     pending_consumes := pending_consumes s;
     consume_calls := consume_calls s; immediates := immediates s;
     channels := channels s; channel_publish := channel_publish s;
     history := history s |}.

Definition set_channelHasRoom (v : bool) (s : World) : World :=
  {| _settingUp := _settingUp s; _setups := _setups s;
     _messages := _messages s; _consumers := _consumers s;
     _channel := _channel s; _working := _working s;
     _workerNumber := _workerNumber s; _channelHasRoom := v;
     name := name s;
     promises := promises s; consumer_heap := consumer_heap s;
     cm_listeners := cm_listeners s; connects := connects s;
     pending_consumes := pending_consumes s;
     consume_calls := consume_calls s; immediates := immediates s;
     channels := channels s; channel_publish := channel_publish s;
     history := history s |}.

Definition set_promises (v : list Settled) (s : World) : World :=
  {| _settingUp := _settingUp s; _setups := _setups s;
     _messages := _messages s; _consumers := _consumers s;
     _channel := _channel s; _working := _working s;
     _workerNumber := _workerNumber s;
     _channelHasRoom := _channelHasRoom s; name := name s;
     promises := v; consumer_heap := consumer_heap s;
     cm_listeners := cm_listeners s; connects := connects s;
     pending_consumes := pending_consumes s;
     consume_calls := consume_calls s; immediates := immediates s;
     channels := channels s; channel_publish := channel_publish s;
     history := history s |}.

Definition set_consumer_heap (v : list Consumer) (s : World) : World :=
  {| _settingUp := _settingUp s; _setups := _setups s;
     _messages := _messages s; _consumers := _consumers s;
     _channel := _channel s; _working := _working s;
     _workerNumber := _workerNumber s;
     _channelHasRoom := _channelHasRoom s; name := name s;
     promises := promises s; consumer_heap := v;
     cm_listeners := cm_listeners s; connects := connects s;
     pending_consumes := pending_consumes s;
     consume_calls := consume_calls s; immediates := immediates s;
     channels := channels s; channel_publish := channel_publish s;
     history := history s |}.

Definition set_cm_listeners (v : list (CmEvent * Handler)) (s : World)
  : World :=
  {| _settingUp := _settingUp s; _setups := _setups s;
     _messages := _messages s; _consumers := _consumers s;
     _channel := _channel s; _working := _working s;
     _workerNumber := _workerNumber s;
     _channelHasRoom := _channelHasRoom s; name := name s;
     promises := promises s; consumer_heap := consumer_heap s;
     cm_listeners := v; connects := connects s;
     pending_consumes := pending_consumes s;
     consume_calls := consume_calls s; immediates := immediates s;
     channels := channels s; channel_publish := channel_publish s;
     history := history s |}.

Definition set_connects (v : list Phase) (s : World) : World :=
  {| _settingUp := _settingUp s; _setups := _setups s;
     _messages := _messages s; _consumers := _consumers s;
     _channel := _channel s; _working := _working s;
     _workerNumber := _workerNumber s;
     _channelHasRoom := _channelHasRoom s; name := name s;
     promises := promises s; consumer_heap := consumer_heap s;
     cm_listeners := cm_listeners s; connects := v;
     pending_consumes := pending_consumes s;
     consume_calls := consume_calls s; immediates := immediates s;
     channels := channels s; channel_publish := channel_publish s;
     history := history s |}.

Definition set_pending_consumes (v : list PendingConsume) (s : World)
  : World :=
  {| _settingUp := _settingUp s; _setups := _setups s;
     _messages := _messages s; _consumers := _consumers s;
     _channel := _channel s; _working := _working s;
     _workerNumber := _workerNumber s;
     _channelHasRoom := _channelHasRoom s; name := name s;
     promises := promises s; consumer_heap := consumer_heap s;
     cm_listeners := cm_listeners s; connects := connects s;
     pending_consumes := v;
     consume_calls := consume_calls s; immediates := immediates s;
     channels := channels s; channel_publish := channel_publish s;
     history := history s |}.

Definition set_consume_calls (v : list ConsumeCall) (s : World) : World :=
  {| _settingUp := _settingUp s; _setups := _setups s;
     _messages := _messages s; _consumers := _consumers s;
     _channel := _channel s; _working := _working s;
     _workerNumber := _workerNumber s;
     _channelHasRoom := _channelHasRoom s; name := name s;
     promises := promises s; consumer_heap := consumer_heap s;
     cm_listeners := cm_listeners s; connects := connects s;
     pending_consumes := pending_consumes s;
     consume_calls := v; immediates := immediates s;
     channels := channels s; channel_publish := channel_publish s;
     history := history s |}.

Definition set_immediates (v : list nat) (s : World) : World :=
  {| _settingUp := _settingUp s; _setups := _setups s;
     _messages := _messages s; _consumers := _consumers s;
     _channel := _channel s; _working := _working s;
     _workerNumber := _workerNumber s;
     _channelHasRoom := _channelHasRoom s; name := name s;
     promises := promises s; consumer_heap := consumer_heap s;
     cm_listeners := cm_listeners s; connects := connects s;
     pending_consumes := pending_consumes s;
     consume_calls := consume_calls s; immediates := v;
     channels := channels s; channel_publish := channel_publish s;
     history := history s |}.

Definition set_channels (v : nat) (s : World) : World :=
  {| _settingUp := _settingUp s; _setups := _setups s;
     _messages := _messages s; _consumers := _consumers s;
     _channel := _channel s; _working := _working s;
     _workerNumber := _workerNumber s;
     _channelHasRoom := _channelHasRoom s; name := name s;
     promises := promises s; consumer_heap := consumer_heap s;
     cm_listeners := cm_listeners s; connects := connects s;
     pending_consumes := pending_consumes s;
     consume_calls := consume_calls s; immediates := immediates s;
     channels := v; channel_publish := channel_publish s;
     history := history s |}.

Definition set_history (v : list Action) (s : World) : World :=
  {| _settingUp := _settingUp s; _setups := _setups s;
     _messages := _messages s; _consumers := _consumers s;
     _channel := _channel s; _working := _working s;
     _workerNumber := _workerNumber s;
     _channelHasRoom := _channelHasRoom s; name := name s;
     promises := promises s; consumer_heap := consumer_heap s;
     cm_listeners := cm_listeners s; connects := connects s;
     pending_consumes := pending_consumes s;
     consume_calls := consume_calls s; immediates := immediates s;
     channels := channels s; channel_publish := channel_publish s;
     history := v |}.

(** ** Collaborators *)

(** Record a call on a collaborator. *)
Definition log (a : Action) (s : World) : World :=
  set_history (history s ++ [a]) s.

(** [this.emit(...)]: the event is recorded.  The caller's listeners are
    assumed to return normally and not to call back into the wrapper
    before the emitting code has finished (in particular, an ['error']
    listener is registered, so that emitting ['error'] does not throw). *)
Definition emit (e : WrapperEvent) (s : World) : World := log (Emit e) s.

(** A promise is settled at most once: later calls of [resolve] or
    [reject] are ignored by the promise. *)
Definition settle (p : nat) (v : Settled) (store : list Settled)
  : list Settled :=
  match store !! p with
  | Some Pending => <[p := v]> store
  | _ => store
  end.

(** [message.resolve(result)] *)
Definition resolve (p : nat) (result : bool) (s : World) : World :=
  set_promises (settle p (Resolved result) (promises s))
    (log (CallResolve p result) s).

(** [message.reject(err)] *)
Definition reject (p : nat) (err : Error) (s : World) : World :=
  set_promises (settle p (Rejected err) (promises s))
    (log (CallReject p err) s).

(** [channel.publish(exchange, routingKey, content, options)]: the answer
    of the channel may depend on everything that happened before. *)
Definition chan_publish (ch : Channel) (ex rk : string) (body : Buffer)
    (opts : option PublishOptions) (p : nat) (s : World)
  : PublishResult * World :=
  let res := channel_publish s (history s) in
  (res, log (ChanPublish ch ex rk body opts res p) s).

(** ** The publish path *)

Definition MAX_MESSAGES_PER_BATCH : nat := 1000.

(** Proofs reason about the batch ceiling by name; evaluation still
    computes with it. *)
#[global] Opaque MAX_MESSAGES_PER_BATCH.

Definition _enqueueMessage (message : Message) (s : World) : World :=
  set_messages (_messages s ++ [message]) (log (QueuePush message) s).

(** [publish] creates the promise it returns (here: its index in the
    store) and runs the executor. *)
Definition publish (ex rk : string) (body : Buffer)
    (opts_arg : option PublishOptions) (s : World) : nat * World :=
  let p := length (promises s) in
  let s := set_promises (promises s ++ [Pending]) s in
  let opts := match opts_arg with Some o => o | None => [] end in
  match _settingUp s, _channel s, _channelHasRoom s with
  | None, Some ch, true =>
      match chan_publish ch ex rk body opts_arg p s with
      | (Returned room, s) =>
          let s := set_channelHasRoom room s in
          (p, resolve p (_channelHasRoom s) s)
      | (Thrown err, s) =>
          (* an executor that throws rejects its promise *)
          (p, set_promises (settle p (Rejected err) (promises s)) s)
      end
  | _, _, _ =>
      (p, _enqueueMessage
            {| exchange := ex; routingKey := rk; content := body;
               options := Some opts; completion := p;
               isTimedout := false |} s)
  end.

Definition queueLength (s : World) : nat := length (_messages s).

Definition _shouldPublish (s : World) : bool :=
  bool_decide (0 < length (_messages s))
  && negb (bool_decide (is_Some (_settingUp s)))
  && bool_decide (is_Some (_channel s))
  && _channelHasRoom s.

(** The [while] loop of [_publishExchangeMessages]; [sendsLeft] is the
    loop's own counter.  The result says whether [channel.publish] threw. *)
Fixpoint publish_loop (channel : Channel) (sendsLeft : nat) (s : World)
  : option Error * World :=
  match sendsLeft with
  | 0 => (None, s)
  | S sendsLeft =>
      if negb (_channelHasRoom s) then (None, s) else
      match _messages s with
      | [] => (None, s)
      | message :: rest =>
          let s := set_messages rest s in
          match chan_publish channel (exchange message) (routingKey message)
                  (content message) (options message) (completion message) s
          with
          | (Returned thisCanSend, s) =>
              let s := set_channelHasRoom thisCanSend s in
              let s := resolve (completion message) thisCanSend s in
              publish_loop channel sendsLeft s
          | (Thrown err, s) => (Some err, s)
          end
      end
  end.

Definition _publishExchangeMessages (workerNumber : nat) (s : World)
  : World :=
  match _channel s with
  | None => set_working false s
  | Some channel =>
      if negb (_shouldPublish s) || negb (_working s)
         || negb (bool_decide (workerNumber = _workerNumber s))
      then set_working false s
      else
        match publish_loop channel MAX_MESSAGES_PER_BATCH s with
        | (None, s) =>
            if _channelHasRoom s && bool_decide (0 < length (_messages s))
            then set_immediates (immediates s ++ [workerNumber])
                   (log (SetImmediate workerNumber) s)
            else set_working false s
        | (Some err, s) =>
            emit (WError err None) (set_working false s)
        end
  end.

Definition _startWorker (s : World) : World :=
  if negb (_working s) && _shouldPublish s
  then
    let s := set_working true s in
    let s := set_workerNumber (S (_workerNumber s)) s in
    _publishExchangeMessages (_workerNumber s) s
  else s.

(** ** Connection, setup and teardown *)

(** [connectionManager.on(ev, h)] and [removeListener(ev, h)] of Node's
    EventEmitter: [on] appends, [removeListener] removes the most recently
    added instance. *)
Definition cm_on (ev : CmEvent) (h : Handler) (s : World) : World :=
  set_cm_listeners (cm_listeners s ++ [(ev, h)]) (log (CmOn ev h) s).

Fixpoint remove_first (x : CmEvent * Handler) (l : list (CmEvent * Handler))
  : list (CmEvent * Handler) :=
  match l with
  | [] => []
  | y :: l => if decide (x = y) then l else y :: remove_first x l
  end.

Definition cm_removeListener (ev : CmEvent) (h : Handler) (s : World)
  : World :=
  set_cm_listeners
    (reverse (remove_first (ev, h) (reverse (cm_listeners s))))
    (log (CmRemoveListener ev h) s).

Definition set_phase (a : nat) (ph : Phase) (s : World) : World :=
  set_connects (<[a := ph]> (connects s)) s.

(** [_onConnect], up to [await connection.createChannel()]. *)
Definition _onConnect (s : World) : World :=
  let a := length (connects s) in
  set_connects (connects s ++ [AwaitCreateChannel])
    (log (ConnCreateChannel a) s).

(** The [catch] block of [_onConnect]. *)
Definition _onConnect_catch (a : nat) (err : Error) (s : World) : World :=
  let s := emit (WError err (Some (name s))) s in
  let s := set_settingUp None s in
  let s := set_channel None s in
  set_phase a Failed s.

(** [_onConnect] from the point where [createChannel] has produced a
    channel up to [await this._settingUp]: every setup function is
    called on the new channel.  The calls are made inside an [async]
    callback, so a setup function that throws as it is called does not
    interrupt the others: its callback returns a rejected promise (see
    [setup_thrown]). *)
Definition _onConnect_channel (a : nat) (s : World) : World :=
  let channel := channels s in
  let s := set_channels (S channel) s in
  let s := set_channel (Some channel) s in
  let s := set_channelHasRoom true s in
  let s := log (ChanOn channel ChCloseEv) s in
  let s := log (ChanOn channel ChDrainEv) s in
  let s := foldl (fun s setupFn => log (CallSetup setupFn channel) s)
             s (_setups s) in
  let s := set_settingUp (Some a) s in
  set_phase a (AwaitSetups channel (seq 0 (length (_setups s)))) s.

(** The [.catch] handler attached to each setup function's promise. *)
Definition setup_catch (err : Error) (s : World) : World :=
  if bool_decide (err_name err = "IllegalOperationError")
  then s
  else emit (WError err (Some (name s))) s.

Definition with_consumerTag (t : option string) (c : Consumer) : Consumer :=
  {| consumerTag := t; queue := queue c; onMessage := onMessage c;
     c_options := c_options c |}.

(** A setup function threw as it was called (or returned something that
    has no [catch]): the promise of its callback is rejected, so
    [Promise.all] rejects, both [.then] callbacks of the chain are
    skipped and [await this._settingUp] throws into the [catch] block of
    [_onConnect].  The [.catch] handlers of the other setup functions'
    promises stay in place. *)
Definition _onConnect_setup_thrown (a : nat) (outstanding : list nat)
    (err : Error) (s : World) : World :=
  set_phase a (FailedSetups outstanding) (_onConnect_catch a err s).

(** JS truthiness of a [string | null]. *)
Definition truthy (t : option string) : bool :=
  match t with
  | Some t => negb (bool_decide (t = EmptyString))
  | None => false
  end.

(** [_consume], up to [await this._channel.consume(...)]. *)
Definition _consume (c : ConsumerRef) (owner : Owner) (s : World) : World :=
  match _channel s, consumer_heap s !! c with
  | Some channel, Some consumer =>
      let o := c_options consumer in
      let s := match prefetch o with
               | Some n => log (ChanPrefetch channel n) s
               | None => s
               end in
      let s := log (ChanConsume channel (queue consumer)
                      (opt_consumerTag o) (opt_rest o) c) s in
      set_pending_consumes
        (pending_consumes s ++
           [{| pc_consumer := c; pc_channel := channel;
               pc_owner := owner |}]) s
  | _, _ => s
  end.

Definition _reconnectConsumer (c : ConsumerRef) (owner : Owner) (s : World)
  : World :=
  if bool_decide (c ∈ _consumers s)
  then _consume c owner s
  else s.

(** The callback [_consume] hands to [channel.consume]; amqplib calls it
    with [null] when the broker cancels the consumer. *)
Definition consumer_callback (c : ConsumerRef) (msg : option string)
    (s : World) : World :=
  match msg with
  | None =>
      let s := set_consumer_heap
                 (alter (with_consumerTag None) c (consumer_heap s)) s in
      _reconnectConsumer c OwnerCancelRetry s
  | Some m => log (OnMessage c m) s
  end.

(** The [.catch] handler of the re-subscription a broker cancel starts. *)
Definition resubscribe_catch (err : Error) (s : World) : World :=
  if bool_decide (err_code err = Some 404)
  then s
  else emit (WError err None) s.

(** [_consume] after [channel.consume] has answered with a tag. *)
Definition _consume_reply (c : ConsumerRef) (tag : string) (s : World)
  : World :=
  set_consumer_heap
    (alter (with_consumerTag (Some tag)) c (consumer_heap s)) s.

(** First [.then] of the setup chain: re-subscribe the registry. *)
Definition _onConnect_consumers (a : nat) (s : World) : World :=
  let before := length (pending_consumes s) in
  let s := foldl (fun s c => _reconnectConsumer c (OwnerSetup a) s)
             s (_consumers s) in
  set_phase a (AwaitConsumers (length (pending_consumes s) - before)) s.

(** Second [.then] of the setup chain. *)
Definition _onConnect_settled (a : nat) (s : World) : World :=
  set_phase a AwaitResume (set_settingUp None s).

(** [_onConnect] after [await this._settingUp]. *)
Definition _onConnect_resume (a : nat) (s : World) : World :=
  let s := set_phase a Done s in
  match _channel s with
  | None => s
  | Some _ => emit WConnect (_startWorker s)
  end.

Definition _onChannelClose (channel : Channel) (s : World) : World :=
  if bool_decide (_channel s = Some channel)
  then set_channel None s
  else s.

Definition _onChannelDrain (s : World) : World :=
  _startWorker (set_channelHasRoom true s).

Definition _onDisconnect (s : World) : World :=
  let s := set_channel None s in
  let s := set_settingUp None s in
  set_working false s.

Definition channel_closed : Error := new_Error "Channel closed".

Definition close (s : World) : World :=
  let s := set_working false s in
  let s := foldl (fun s message => reject (completion message)
                                     channel_closed s)
             s (_messages s) in
  let s := cm_removeListener CmConnectEv H_onConnect s in
  let s := cm_removeListener CmDisconnectEv H_onDisconnect s in
  let s := match _channel s with
           | Some channel => log (ChanClose channel) s
           | None => s
           end in
  let s := set_channel None s in
  emit WClose s.

(** ** Consumers *)

(** [consume] from [this._consumers.push(consumer)] on. *)
Definition consume_register (consumer : Consumer) (s : World) : World :=
  let c := length (consumer_heap s) in
  let s := set_consumer_heap (consumer_heap s ++ [consumer]) s in
  let s := set_consumers (_consumers s ++ [c]) s in
  _consume c OwnerConsumeCall s.

(** The consumer object [consume] builds. *)
Definition new_consumer (q : string) (h : nat) (o : ConsumerOptions)
    (tag : string) : Consumer :=
  {| consumerTag := None; queue := q; onMessage := h;
     c_options := {| opt_consumerTag := Some tag; prefetch := prefetch o;
                     opt_rest := opt_rest o |} |}.

(** [consume] once the consumer tag is known. *)
Definition consume_tagged (q : string) (h : nat) (o : ConsumerOptions)
    (tag : string) (s : World) : World :=
  match _settingUp s with
  | Some a =>
      set_consume_calls (consume_calls s ++ [WaitSettingUp a q h o tag]) s
  | None => consume_register (new_consumer q h o tag) s
  end.

Definition consume (q : string) (h : nat) (o : ConsumerOptions) (s : World)
  : World :=
  if truthy (opt_consumerTag o)
  then consume_tagged q h o (default EmptyString (opt_consumerTag o)) s
  else set_consume_calls (consume_calls s ++ [WaitRandomBytes q h o]) s.

Definition cancelAll (s : World) : World :=
  let consumers := _consumers s in
  let s := set_consumers [] s in
  match _channel s with
  | None => s
  | Some channel =>
      foldl (fun s c =>
               match consumer_heap s !! c with
               | Some consumer =>
                   if truthy (consumerTag consumer)
                   then log (ChanCancel channel
                               (default EmptyString (consumerTag consumer))) s
                   else s
               | None => s
               end) s consumers
  end.

Definition tag_matches (s : World) (tag : string) (c : ConsumerRef) : Prop :=
  (c_options <$> consumer_heap s !! c) ≫= opt_consumerTag = Some tag.

#[global] Instance tag_matches_dec s tag c : Decision (tag_matches s tag c).
Proof. unfold tag_matches. apply _. Defined.

Definition cancel (tag : string) (s : World) : World :=
  match list_find (tag_matches s tag) (_consumers s) with
  | None => s
  | Some (idx, c) =>
      let s := set_consumers (delete idx (_consumers s)) s in
      match _channel s, consumer_heap s !! c with
      | Some channel, Some consumer =>
          if truthy (consumerTag consumer)
          then log (ChanCancel channel (default EmptyString (consumerTag consumer))) s
          else s
      | _, _ => s
      end
  end.

(** ** Construction *)

Definition empty_world (nm : option string) (oracle : list Action -> PublishResult)
  : World :=
  {| _settingUp := None; _setups := []; _messages := []; _consumers := [];
     _channel := None; _working := false; _workerNumber := 0;
     _channelHasRoom := true; name := nm;
     promises := []; consumer_heap := []; cm_listeners := [];
     connects := []; pending_consumes := []; consume_calls := [];
     immediates := []; channels := 0; channel_publish := oracle;
     history := [] |}.

Definition set_setups (v : list SetupFunc) (s : World) : World :=
  {| _settingUp := _settingUp s; _setups := v; _messages := _messages s;
     _consumers := _consumers s; _channel := _channel s;
     _working := _working s; _workerNumber := _workerNumber s;
     _channelHasRoom := _channelHasRoom s; name := name s;
     promises := promises s; consumer_heap := consumer_heap s;
     cm_listeners := cm_listeners s; connects := connects s;
     pending_consumes := pending_consumes s;
     consume_calls := consume_calls s; immediates := immediates s;
     channels := channels s; channel_publish := channel_publish s;
     history := history s |}.

(** The constructor.  [connected] says whether the connection manager
    already holds a connection; [oracle] is the behaviour of the channels
    the wrapper will be given. *)
Definition new_ChannelWrapper (connected : bool) (nm : option string)
    (setup : option SetupFunc) (oracle : list Action -> PublishResult)
  : World :=
  let s := empty_world nm oracle in
  let s := match setup with
           | Some f => set_setups (_setups s ++ [f]) s
           | None => s
           end in
  let s := if connected then _onConnect s else s in
  let s := cm_on CmConnectEv H_onConnect s in
  cm_on CmDisconnectEv H_onDisconnect s.

(** ** Stimuli *)

Inductive Event :=
| CallPublish (ex rk : string) (body : Buffer) (opts : option PublishOptions)
| CallClose
| CallConsume (q : string) (h : nat) (o : ConsumerOptions)
| CallCancel (tag : string)
| CallCancelAll
| CmConnect
| CmDisconnect
| CreateChannelOk (a : nat)
| CreateChannelErr (a : nat) (err : Error)
| SetupOk (a i : nat)
| SetupErr (a i : nat) (err : Error)
| SetupThrows (a i : nat) (err : Error)
| SetupsSettled (a : nat)
| ConsumeOk (k : nat) (tag : string)
| ConsumeErr (k : nat) (err : Error)
| ConsumersSettled (a : nat)
| Resume (a : nat)
| RandomBytes (k : nat) (hex : string)
| ConsumeResume (k : nat)
| ChannelClosed (ch : Channel)
| ChannelDrain (ch : Channel)
| ConsumerCallback (c : ConsumerRef) (msg : option string)
| Immediate.

(** The promise a setup function of activation [a] returned has settled;
    its [.catch] handler runs whether or not the activation still waits
    for it. *)
Definition setup_settled (a i : nat) (err : option Error) (s : World)
  : World :=
  match connects s !! a with
  | Some (AwaitSetups ch outstanding) =>
      if bool_decide (i ∈ outstanding)
      then
        let s := match err with
                 | Some err => setup_catch err s
                 | None => s
                 end in
        set_phase a (AwaitSetups ch (filter (λ j, j ≠ i) outstanding)) s
      else s
  | Some (FailedSetups outstanding) =>
      if bool_decide (i ∈ outstanding)
      then
        let s := match err with
                 | Some err => setup_catch err s
                 | None => s
                 end in
        set_phase a (FailedSetups (filter (λ j, j ≠ i) outstanding)) s
      else s
  | _ => s
  end.

(** Setup function [i] of activation [a] threw as it was called.  Only
    the first rejection reaches [Promise.all]. *)
Definition setup_thrown (a i : nat) (err : Error) (s : World) : World :=
  match connects s !! a with
  | Some (AwaitSetups ch outstanding) =>
      if bool_decide (i ∈ outstanding)
      then _onConnect_setup_thrown a (filter (λ j, j ≠ i) outstanding) err s
      else s
  | Some (FailedSetups outstanding) =>
      if bool_decide (i ∈ outstanding)
      then set_phase a (FailedSetups (filter (λ j, j ≠ i) outstanding)) s
      else s
  | _ => s
  end.

(** [channel.consume] has answered the [k]-th outstanding call. *)
Definition consume_settled (k : nat) (r : string + Error) (s : World)
  : World :=
  match pending_consumes s !! k with
  | None => s
  | Some pc =>
      let s := set_pending_consumes (delete k (pending_consumes s)) s in
      match r with
      | inl tag =>
          let s := _consume_reply (pc_consumer pc) tag s in
          match pc_owner pc with
          | OwnerSetup a =>
              match connects s !! a with
              | Some (AwaitConsumers (S n)) => set_phase a (AwaitConsumers n) s
              | _ => s
              end
          | _ => s
          end
      | inr err =>
          match pc_owner pc with
          | OwnerSetup a =>
              match connects s !! a with
              | Some (AwaitConsumers _) => _onConnect_catch a err s
              | _ => s
              end
          | OwnerCancelRetry => resubscribe_catch err s
          | OwnerConsumeCall => s
          end
      end
  end.

Definition step (e : Event) (s : World) : World :=
  match e with
  | CallPublish ex rk body opts => (publish ex rk body opts s).2
  | CallClose => close s
  | CallConsume q h o => consume q h o s
  | CallCancel tag => cancel tag s
  | CallCancelAll => cancelAll s
  | CmConnect =>
      if bool_decide ((CmConnectEv, H_onConnect) ∈ cm_listeners s)
      then _onConnect s else s
  | CmDisconnect =>
      if bool_decide ((CmDisconnectEv, H_onDisconnect) ∈ cm_listeners s)
      then _onDisconnect s else s
  | CreateChannelOk a =>
      match connects s !! a with
      | Some AwaitCreateChannel => _onConnect_channel a s
      | _ => s
      end
  | CreateChannelErr a err =>
      match connects s !! a with
      | Some AwaitCreateChannel => _onConnect_catch a err s
      | _ => s
      end
  | SetupOk a i => setup_settled a i None s
  | SetupErr a i err => setup_settled a i (Some err) s
  | SetupThrows a i err => setup_thrown a i err s
  | SetupsSettled a =>
      match connects s !! a with
      | Some (AwaitSetups _ []) => _onConnect_consumers a s
      | _ => s
      end
  | ConsumeOk k tag => consume_settled k (inl tag) s
  | ConsumeErr k err => consume_settled k (inr err) s
  | ConsumersSettled a =>
      match connects s !! a with
      | Some (AwaitConsumers 0) => _onConnect_settled a s
      | _ => s
      end
  | Resume a =>
      match connects s !! a with
      | Some AwaitResume => _onConnect_resume a s
      | _ => s
      end
  | RandomBytes k hex =>
      match consume_calls s !! k with
      | Some (WaitRandomBytes q h o) =>
          consume_tagged q h o hex
            (set_consume_calls (delete k (consume_calls s)) s)
      | _ => s
      end
  | ConsumeResume k =>
      match consume_calls s !! k with
      | Some (WaitSettingUp a q h o tag) =>
          match connects s !! a with
          | Some AwaitResume | Some Done =>
              consume_register (new_consumer q h o tag)
                (set_consume_calls (delete k (consume_calls s)) s)
          | Some Failed | Some (FailedSetups _) =>
              set_consume_calls (delete k (consume_calls s)) s
          | _ => s
          end
      | _ => s
      end
  | ChannelClosed ch =>
      if bool_decide (ch < channels s) then _onChannelClose ch s else s
  | ChannelDrain ch =>
      if bool_decide (ch < channels s) then _onChannelDrain s else s
  | ConsumerCallback c msg =>
      if bool_decide (c < length (consumer_heap s))
      then consumer_callback c msg s else s
  | Immediate =>
      match immediates s with
      | [] => s
      | workerNumber :: rest =>
          _publishExchangeMessages workerNumber (set_immediates rest s)
      end
  end.

Definition run (evs : list Event) (s : World) : World :=
  foldl (fun s e => step e s) s evs.

(** ** Reading the history *)

(** Messages pushed on the outbound queue, named by their completion, in
    the order of the [push] calls. *)
Definition pushed_of (a : Action) : list nat :=
  match a with
  | QueuePush m => [completion m]
  | _ => []
  end.

(** Messages handed to a channel, in the order of the [channel.publish]
    calls. *)
Definition sent_of (a : Action) : list nat :=
  match a with
  | ChanPublish _ _ _ _ _ _ p => [p]
  | _ => []
  end.

(** What the [channel.publish] calls answered, in order. *)
Definition result_of (a : Action) : list PublishResult :=
  match a with
  | ChanPublish _ _ _ _ _ res _ => [res]
  | _ => []
  end.

Definition scheduled_of (a : Action) : list nat :=
  match a with
  | SetImmediate n => [n]
  | _ => []
  end.

Definition pushed (h : list Action) : list nat := h ≫= pushed_of.
Definition sent (h : list Action) : list nat := h ≫= sent_of.
Definition results (h : list Action) : list PublishResult := h ≫= result_of.
Definition scheduled (h : list Action) : list nat := h ≫= scheduled_of.

(** The calls made between state [s] and a later state [s']. *)
Definition actions_since (s s' : World) : list Action :=
  drop (length (history s)) (history s').

(** A state from which a call of [publish] sends at once. *)
Definition sends_at_once (s : World) : Prop :=
  _settingUp s = None ∧ is_Some (_channel s) ∧ _channelHasRoom s = true.

#[global] Instance sends_at_once_dec s : Decision (sends_at_once s).
Proof. unfold sends_at_once. apply _. Defined.

(** The guard at the top of [_publishExchangeMessages] lets the
    invocation through. *)
Definition worker_proceeds (workerNumber : nat) (s : World) : Prop :=
  is_Some (_channel s) ∧ _shouldPublish s = true ∧ _working s = true
  ∧ workerNumber = _workerNumber s.

#[global] Instance worker_proceeds_dec n s : Decision (worker_proceeds n s).
Proof. unfold worker_proceeds. apply _. Defined.

(** ** Vocabulary of the specification *)

(** The state after the loop body has sent [message] and got [room]. *)
Definition after_send (channel : Channel) (message : Message)
    (rest : list Message) (room : bool) (s : World) : World :=
  resolve (completion message) room
    (set_channelHasRoom room
       (log (ChanPublish channel (exchange message) (routingKey message)
               (content message) (options message) (Returned room)
               (completion message))
          (set_messages rest s))).

(** The state after [channel.publish] has thrown [err] on [message]. *)
Definition after_throw (channel : Channel) (message : Message)
    (rest : list Message) (err : Error) (s : World) : World :=
  log (ChanPublish channel (exchange message) (routingKey message)
         (content message) (options message) (Thrown err)
         (completion message))
    (set_messages rest s).

(** Fields the loop does not touch. *)
Definition same_control (s s' : World) : Prop :=
  _settingUp s' = _settingUp s ∧ _setups s' = _setups s
  ∧ _consumers s' = _consumers s ∧ _channel s' = _channel s
  ∧ _workerNumber s' = _workerNumber s
  ∧ name s' = name s ∧ consumer_heap s' = consumer_heap s
  ∧ cm_listeners s' = cm_listeners s ∧ connects s' = connects s
  ∧ pending_consumes s' = pending_consumes s
  ∧ consume_calls s' = consume_calls s
  ∧ channels s' = channels s ∧ channel_publish s' = channel_publish s
  ∧ length (promises s') = length (promises s).

(** A view [V] of the state that none of the connection code can change. *)
Class Framed {B : Type} (V : World → B) : Prop := {
  framed_settingUp v s : V (set_settingUp v s) = V s;
  framed_channel v s : V (set_channel v s) = V s;
  framed_working v s : V (set_working v s) = V s;
  framed_channelHasRoom v s : V (set_channelHasRoom v s) = V s;
  framed_connects v s : V (set_connects v s) = V s;
  framed_pending_consumes v s : V (set_pending_consumes v s) = V s;
  framed_consume_calls v s : V (set_consume_calls v s) = V s;
  framed_immediates v s : V (set_immediates v s) = V s;
  framed_channels v s : V (set_channels v s) = V s;
  framed_log a s : pushed_of a = [] → sent_of a = [] → V (log a s) = V s;
}.

(** The part of the state the publish path and [close] work on. *)
Definition publish_view (s : World)
  : list Message * list nat * list nat * list Settled * nat
    * list (CmEvent * Handler) * list SetupFunc :=
  (_messages s, pushed (history s), sent (history s), promises s,
   _workerNumber s, cm_listeners s, _setups s).

(** What the FIFO argument needs of a state. *)
Definition queue_view (s : World)
  : list Message * list nat * list nat * nat :=
  (_messages s, pushed (history s), sent (history s), length (promises s)).

(** The messages pushed so far are the pushed messages already handed to
    a channel, in the order they were handed over, followed by the queue. *)
Definition fifo_inv (s : World) : Prop :=
  filter (λ p, p ∈ pushed (history s)) (sent (history s))
    ++ (completion <$> _messages s) = pushed (history s)
  ∧ NoDup (pushed (history s))
  ∧ NoDup (sent (history s))
  ∧ (∀ p, p ∈ pushed (history s) ∨ p ∈ sent (history s) →
          p < length (promises s)).

(** The [reject] call an action is, if it is one. *)
Definition rejected_of (a : Action) : list (nat * Error) :=
  match a with
  | CallReject p err => [(p, err)]
  | _ => []
  end.

(** The [reject] calls in a list of actions, in order. *)
Definition rejected (h : list Action) : list (nat * Error) :=
  h ≫= rejected_of.

(** The promise store after [reject(err)] has been called on each of
    [ps] in turn. *)
Definition settle_all (err : Error) (ps : list nat) (store : list Settled)
  : list Settled :=
  foldl (λ store p, settle p (Rejected err) store) store ps.

(** The two listeners the constructor registers. *)
Definition subscriptions : list (CmEvent * Handler) :=
  [(CmConnectEv, H_onConnect); (CmDisconnectEv, H_onDisconnect)].

(** The wrapper subscribes once, in the constructor, and unsubscribes in
    [close]. *)
Definition listeners_inv (s : World) : Prop :=
  cm_listeners s = subscriptions ∨ cm_listeners s = [].

(** Every promise settled in [s] has the same value in [s']. *)
Definition settled_stable (s s' : World) : Prop :=
  ∀ q w, promises s !! q = Some w → w ≠ Pending → promises s' !! q = Some w.

(** The arguments of one [publish] call. *)
Definition PublishArgs : Type :=
  string * string * Buffer * option PublishOptions.

(** The stimulus of calling [publish] with [args]. *)
Definition publish_call (args : PublishArgs) : Event :=
  match args with
  | (ex, rk, body, opts) => CallPublish ex rk body opts
  end.

(** The part of the state the consumer code works on, and the setup
    list, which only the constructor writes. *)
Definition registry_view (s : World)
  : list ConsumerRef * list Consumer * list SetupFunc :=
  (_consumers s, consumer_heap s, _setups s).

(** The tag of the consumer at reference [c], if there is one. *)
Definition tag_of (s : World) (c : ConsumerRef) : option (option string) :=
  consumerTag <$> consumer_heap s !! c.

(** The setup call an action is, if it is one. *)
Definition setup_calls_of (a : Action) : list (nat * nat) :=
  match a with
  | CallSetup f ch => [(f, ch)]
  | _ => []
  end.

(** The setup functions called, with the channel they were given. *)
Definition setup_calls (h : list Action) : list (nat * nat) :=
  h ≫= setup_calls_of.

(** References in the registry are distinct and point into the heap. *)
Definition registry_inv (s : World) : Prop :=
  NoDup (_consumers s)
  ∧ ∀ c, c ∈ _consumers s → c < length (consumer_heap s).

(** The [channel.prefetch] call [_consume] makes, if any. *)
Definition prefetch_call (channel : Channel) (consumer : Consumer)
  : list Action :=
  match prefetch (c_options consumer) with
  | Some n => [ChanPrefetch channel n]
  | None => []
  end.

(** ** Concrete runs *)

(** A channel that always reports room. *)
Definition always_room : list Action → PublishResult := λ _, Returned true.

(** A wrapper created while the connection manager is disconnected. *)
Definition fresh : World :=
  new_ChannelWrapper false (Some "orders") None always_room.

(** The stimuli of one successful (re)connect, for activation [a] of
    [_onConnect], when no setup function and no consumer fails. *)
Definition connect_events (a : nat) : list Event :=
  [CmConnect; CreateChannelOk a; SetupsSettled a; ConsumersSettled a;
   Resume a].

(** [n] calls of [publish]. *)
Definition publishes (n : nat) : list Event :=
  replicate n (CallPublish "amq.topic" "order.new" "payload" None).

(** Two messages queued while disconnected, a connect that drains them, a
    disconnect, two more messages, a reconnect that drains those. *)
Definition reconnect_run : World :=
  run (publishes 2 ++ connect_events 0 ++ [CmDisconnect] ++ publishes 2
       ++ connect_events 1) fresh.

(** Connected, nothing queued. *)
Definition online : World := run (connect_events 0) fresh.

(** 2001 messages queued while disconnected; the first worker sends a
    batch and schedules its next turn; the connection is lost and
    re-established before that turn runs; the second worker sends a batch
    and schedules its next turn, too. *)
Definition two_workers : World :=
  run (publishes 2001 ++ connect_events 0 ++ [CmDisconnect]
       ++ connect_events 1) fresh.

(** 1001 messages in the queue of a connected wrapper whose worker (number
    1) is about to run. *)
Definition full_queue : World :=
  set_workerNumber 1
    (set_working true
       (run (publishes 1001
             ++ [CmConnect; CreateChannelOk 0; SetupsSettled 0;
                 ConsumersSettled 0]) fresh)).


(** Options of a consumer that names its tag and asks for a prefetch
    count. *)
Definition orders_options : ConsumerOptions :=
  {| opt_consumerTag := Some "orders-1"; prefetch := Some 10;
     opt_rest := [] |}.

(** Connected, with one consumer the broker has confirmed. *)
Definition consuming : World :=
  run [CallConsume "orders" 0 orders_options; ConsumeOk 0 "orders-1"]
    online.

(** Connected on the second channel after a reconnect. *)
Definition reconnected : World :=
  run (connect_events 0 ++ [CmDisconnect] ++ connect_events 1) fresh.

(** The message [publishes] queues for promise [p]. *)
Definition queued_message (p : nat) : Message :=
  {| exchange := "amq.topic"; routingKey := "order.new";
     content := "payload"; options := Some []; completion := p;
     isTimedout := false |}.

(** The arguments [publishes] passes. *)
Definition publish_args : PublishArgs :=
  ("amq.topic", "order.new", "payload", None).


(** ** Further vocabulary and runs *)

(** The stimuli that run neither [publish] nor the worker. *)
Definition quiet (e : Event) : bool :=
  match e with
  | CallPublish _ _ _ _ | Resume _ | ChannelDrain _ | Immediate => false
  | _ => true
  end.

(** The [channel.publish] call an action is, if it is one: the channel,
    the answer and the message's promise. *)
Definition sends_of (a : Action) : list (nat * PublishResult * nat) :=
  match a with
  | ChanPublish ch _ _ _ _ res p => [(ch, res, p)]
  | _ => []
  end.

(** The [channel.publish] calls in a list of actions, in order. *)
Definition sends (h : list Action) : list (nat * PublishResult * nat) :=
  h ≫= sends_of.

(** What a quiet stimulus leaves alone. *)
Definition worker_view (s : World)
  : list (nat * PublishResult * nat) * list nat * list Message * nat
    * list nat :=
  (sends (history s), pushed (history s), _messages s, _workerNumber s,
   immediates s).

(** What the calls [snd] of [channel.publish] and the calls [rej] of
    [reject] say about a promise: a resolved promise carries the channel's
    answer for its message; a rejected one carries what [channel.publish]
    threw for its message, or the error of [close]. *)
Definition settled_by (snd : list (nat * PublishResult * nat))
    (rej : list (nat * Error)) (p : nat) (w : Settled) : Prop :=
  match w with
  | Pending => True
  | Resolved room => ∃ ch, (ch, Returned room, p) ∈ snd
  | Rejected err =>
      (∃ ch, (ch, Thrown err, p) ∈ snd)
      ∨ ((p, err) ∈ rej ∧ err = channel_closed)
  end.

(** The [channel.publish] calls made between [s] and [s'] were made on
    the channel [s] holds, while [_settingUp] was unset; a call answered
    [false] is the last one and leaves the wrapper without room; a
    promise settled on the way is settled by one of the calls made. *)
Definition sends_between (s s' : World) : Prop :=
  ∃ new rej,
    sends (history s') = sends (history s) ++ new
    ∧ rejected (history s') = rejected (history s) ++ rej
    ∧ (∀ x, x ∈ new → _channel s = Some x.1.1 ∧ _settingUp s = None)
    ∧ (∀ i x, new !! i = Some x → x.1.2 = Returned false →
         S i = length new ∧ _channelHasRoom s' = false)
    ∧ (∀ p w, promises s' !! p = Some w → w ≠ Pending →
         promises s !! p = Some w ∨ settled_by new rej p w).

(** What the connection and consumer code leaves alone of the promises
    and of the calls that settle them. *)
Definition settle_view (s : World)
  : list (nat * PublishResult * nat) * list (nat * Error) * list Settled :=
  (sends (history s), rejected (history s), promises s).

(** The fields that decide whether [publish] sends at once. *)
Definition gate_view (s : World) : option nat * option Channel * bool :=
  (_settingUp s, _channel s, _channelHasRoom s).

(** The stimuli after which a wrapper that could not send at once may be
    able to: the end of a setup chain and the ['drain'] event. *)
Definition unblocks (e : Event) : bool :=
  match e with
  | ConsumersSettled _ | ChannelDrain _ => true
  | _ => false
  end.

(** The stimuli that make room: a new channel and the ['drain'] event. *)
Definition refills (e : Event) : bool :=
  match e with
  | CreateChannelOk _ | ChannelDrain _ => true
  | _ => false
  end.

Definition calls_publish (e : Event) : bool :=
  match e with
  | CallPublish _ _ _ _ => true
  | _ => false
  end.

(** The number of [publish] calls among the stimuli. *)
Definition publish_calls (evs : list Event) : nat :=
  length (filter (λ e, calls_publish e = true) evs).

(** Two messages queued while disconnected, and a connect that has got
    as far as the end of the setup chain. *)
Definition backlog : World :=
  run (publishes 2
       ++ [CmConnect; CreateChannelOk 0; SetupsSettled 0; ConsumersSettled 0])
    fresh.

(** A channel whose write buffer is always full. *)
Definition congested : list Action → PublishResult := λ _, Returned false.

(** A connected wrapper on a congested channel. *)
Definition online_congested : World :=
  run (connect_events 0)
    (new_ChannelWrapper false (Some "orders") None congested).

(** Every settled promise is accounted for by a call in the history. *)
Definition settled_sound (s : World) : Prop :=
  ∀ p w, promises s !! p = Some w →
    settled_by (sends (history s)) (rejected (history s)) p w.

(** Two messages queued while disconnected and sent by the connect that
    follows. *)
Definition flushed : World := run (publishes 2 ++ connect_events 0) fresh.

(** Every promise [publish] has created belongs to a message that was
    pushed on the queue or handed to a channel. *)
Definition covered (s : World) : Prop :=
  ∀ p, p < length (promises s) →
    p ∈ pushed (history s) ∨ p ∈ sent (history s).

(** While [_working] is set, a turn of the current worker is scheduled;
    no worker number is scheduled twice; no scheduled turn belongs to a
    worker that has not been started yet. *)
Definition worker_inv (s : World) : Prop :=
  (_working s = true → _workerNumber s ∈ immediates s)
  ∧ NoDup (immediates s)
  ∧ Forall (λ n, n ≤ _workerNumber s) (immediates s).

(** From [s] on, the channel accepts every message and reports room. *)
Definition accepts (s : World) : Prop :=
  ∀ acts, channel_publish s (history s ++ acts) = Returned true.

(** From [s] to [s'] the whole queue of [s] was handed to a channel, in
    queue order, every message that was still awaited got [true], and
    the worker has stopped. *)
Definition drained (s s' : World) : Prop :=
  _messages s' = [] ∧ _working s' = false ∧ immediates s' = []
  ∧ sent (history s') = sent (history s) ++ (completion <$> _messages s)
  ∧ (∀ m, m ∈ _messages s → promises s !! completion m = Some Pending →
          promises s' !! completion m = Some (Resolved true)).

(** The connection is the same in [s] and [s'], and no promise was
    created in between. *)
Definition same_link (s s' : World) : Prop :=
  _settingUp s' = _settingUp s ∧ _channel s' = _channel s
  ∧ channel_publish s' = channel_publish s
  ∧ length (promises s') = length (promises s).

(** What a run of the loop, or of several turns, does when the channel
    accepts everything: it hands over the first [k] messages. *)
Definition hands_over (k : nat) (s s' : World) : Prop :=
  _messages s' = drop k (_messages s)
  ∧ _channelHasRoom s' = true
  ∧ sent (history s') = sent (history s) ++ (completion <$> take k (_messages s))
  ∧ same_link s s'
  ∧ settled_stable s s'
  ∧ (∀ m, m ∈ take k (_messages s) →
          promises s !! completion m = Some Pending →
          promises s' !! completion m = Some (Resolved true))
  ∧ (∀ p w, promises s' !! p = Some w →
            promises s !! p = Some w ∨ w = Resolved true).

(** A channel that reports a full buffer until something has been
    written to it. *)
Definition full_at_first : list Action → PublishResult :=
  λ h, Returned (bool_decide (0 < length (sent h))).

(** Three messages published on such a channel: the first was sent and
    answered [false], the other two wait for room. *)
Definition waiting_for_drain : World :=
  run (connect_events 0 ++ publishes 3)
    (new_ChannelWrapper false (Some "orders") None full_at_first).

(** What establishing a channel leaves alone. *)
Definition flush_view (s : World)
  : list Message * list Settled * list nat * bool * list nat
    * (list Action → PublishResult) * nat * list ConsumerRef
    * list SetupFunc * nat :=
  (_messages s, promises s, sent (history s), _working s, immediates s,
   channel_publish s, _workerNumber s, _consumers s, _setups s,
   length (pending_consumes s)).

(** The stimuli of a connect whose [n] setup functions all succeed, on
    a wrapper without consumers. *)
Definition connect_with_setups (a n : nat) : list Event :=
  [CmConnect; CreateChannelOk a] ++ (SetupOk a <$> seq 0 n)
  ++ [SetupsSettled a; ConsumersSettled a].

(** Two messages published on a wrapper that has a setup function and
    was created while the connection manager was disconnected. *)
Definition two_queued : World :=
  run (publishes 2)
    (new_ChannelWrapper false (Some "orders") (Some 7) always_room).

(** The calls [publish], the worker and the end of [_onConnect] make. *)
Definition publish_path_action (a : Action) : bool :=
  match a with
  | QueuePush _ | ChanPublish _ _ _ _ _ _ _ | CallResolve _ _
  | SetImmediate _ | Emit _ => true
  | _ => false
  end.

(** The [createChannel] call an action is, if it is one. *)
Definition channel_request_of (a : Action) : list nat :=
  match a with
  | ConnCreateChannel n => [n]
  | _ => []
  end.

(** The [connection.createChannel] calls in a list of actions. *)
Definition channel_requests (h : list Action) : list nat :=
  h ≫= channel_request_of.

Definition requests_view (s : World) : list nat :=
  channel_requests (history s).

(** What a consumer was registered with: everything but the tag the
    broker confirms. *)
Definition parameters (c : Consumer) : string * nat * ConsumerOptions :=
  (queue c, onMessage c, c_options c).

(** Every consumer of [h] is still there in [h'], with the parameters it
    was registered with. *)
Definition heap_le (h h' : list Consumer) : Prop :=
  ∀ c x, h !! c = Some x →
    ∃ x', h' !! c = Some x' ∧ parameters x' = parameters x.

(** The [channel.consume] call an action is, if it is one: the channel,
    the queue, the tag asked for and the consumer. *)
Definition consume_call_of (a : Action)
  : list (Channel * string * option string * ConsumerRef) :=
  match a with
  | ChanConsume ch q tag _ c => [(ch, q, tag, c)]
  | _ => []
  end.

(** The [channel.consume] calls in a list of actions, in order. *)
Definition consume_calls_in (h : list Action)
  : list (Channel * string * option string * ConsumerRef) :=
  h ≫= consume_call_of.

(** The [channel.consume] call that subscribes consumer [c] of [s] on
    channel [ch]. *)
Definition subscription (s : World) (ch : Channel) (c : ConsumerRef)
  : list (Channel * string * option string * ConsumerRef) :=
  match consumer_heap s !! c with
  | Some consumer =>
      [(ch, queue consumer, opt_consumerTag (c_options consumer), c)]
  | None => []
  end.

Definition calls_consume (e : Event) : bool :=
  match e with
  | CallConsume _ _ _ => true
  | _ => false
  end.

(** The [channel.cancel] call [cancelAll] and [cancel] make for consumer
    [c]: one call with the tag the broker confirmed, if there is one. *)
Definition cancellation (s : World) (ch : Channel) (c : ConsumerRef)
  : list Action :=
  match consumer_heap s !! c with
  | Some consumer =>
      if truthy (consumerTag consumer)
      then [ChanCancel ch (default EmptyString (consumerTag consumer))]
      else []
  | None => []
  end.

(** What the consumer code works on, and the [channel.consume] calls so
    far. *)
Definition consumers_view (s : World)
  : list ConsumerRef * list ConsumeCall
    * list (Channel * string * option string * ConsumerRef) :=
  (_consumers s, consume_calls s, consume_calls_in (history s)).

(** Options objects and the [args] tables of bindings. *)
Abbreviation Options := (list (string * string)) (only parsing).

(** A call on the underlying channel; a delivered message is named by
    its delivery tag. *)
Inductive ChannelOp :=
| OpAck (message : nat) (allUpTo : option bool)
| OpAckAll
| OpNack (message : nat) (allUpTo requeue : option bool)
| OpNackAll (requeue : option bool)
| OpPurgeQueue (queue : string)
| OpCheckQueue (queue : string)
| OpAssertQueue (queue : string) (options : option Options)
| OpBindQueue (queue source pattern : string) (args : option Options)
| OpUnbindQueue (queue source pattern : string) (args : option Options)
| OpDeleteQueue (queue : string) (options : option Options)
| OpAssertExchange (exchange type : string) (options : option Options)
| OpBindExchange (destination source pattern : string)
    (args : option Options)
| OpCheckExchange (exchange : string)
| OpDeleteExchange (exchange : string) (options : option Options)
| OpUnbindExchange (destination source pattern : string)
    (args : option Options)
| OpGet (queue : string) (options : option Options).

(** What a pass-through method does: it makes one call on a channel and
    hands on what that call produces, or it throws, or it does nothing,
    or it answers itself. *)
Inductive Outcome :=
| Forwarded (channel : Channel) (op : ChannelOp)
| Throws (err : Error)
| Nothing
| AssertQueueReply (queue : string) (messageCount consumerCount : nat)
| AssertExchangeReply (exchange : string).

Definition not_connected : Error := new_Error "Not connected.".

Definition ack (message : nat) (allUpTo : option bool) (s : World)
  : Outcome :=
  match _channel s with
  | Some channel => Forwarded channel (OpAck message allUpTo)
  | None => Nothing
  end.

Definition ackAll (s : World) : Outcome :=
  match _channel s with
  | Some channel => Forwarded channel OpAckAll
  | None => Nothing
  end.

Definition nack (message : nat) (allUpTo requeue : option bool)
    (s : World) : Outcome :=
  match _channel s with
  | Some channel => Forwarded channel (OpNack message allUpTo requeue)
  | None => Nothing
  end.

Definition nackAll (requeue : option bool) (s : World) : Outcome :=
  match _channel s with
  | Some channel => Forwarded channel (OpNackAll requeue)
  | None => Nothing
  end.

Definition purgeQueue (queue : string) (s : World) : Outcome :=
  match _channel s with
  | Some channel => Forwarded channel (OpPurgeQueue queue)
  | None => Throws not_connected
  end.

Definition checkQueue (queue : string) (s : World) : Outcome :=
  match _channel s with
  | Some channel => Forwarded channel (OpCheckQueue queue)
  | None => Throws not_connected
  end.

Definition assertQueue (queue : string) (options : option Options)
    (s : World) : Outcome :=
  match _channel s with
  | Some channel => Forwarded channel (OpAssertQueue queue options)
  | None => AssertQueueReply queue 0 0
  end.

Definition bindQueue (queue source pattern : string)
    (args : option Options) (s : World) : Outcome :=
  match _channel s with
  | Some channel => Forwarded channel (OpBindQueue queue source pattern args)
  | None => Nothing
  end.

Definition unbindQueue (queue source pattern : string)
    (args : option Options) (s : World) : Outcome :=
  match _channel s with
  | Some channel =>
      Forwarded channel (OpUnbindQueue queue source pattern args)
  | None => Nothing
  end.

Definition deleteQueue (queue : string) (options : option Options)
    (s : World) : Outcome :=
  match _channel s with
  | Some channel => Forwarded channel (OpDeleteQueue queue options)
  | None => Throws not_connected
  end.

Definition assertExchange (exchange type : string)
    (options : option Options) (s : World) : Outcome :=
  match _channel s with
  | Some channel =>
      Forwarded channel (OpAssertExchange exchange type options)
  | None => AssertExchangeReply exchange
  end.

Definition bindExchange (destination source pattern : string)
    (args : option Options) (s : World) : Outcome :=
  match _channel s with
  | Some channel =>
      Forwarded channel (OpBindExchange destination source pattern args)
  | None => Throws not_connected
  end.

Definition checkExchange (exchange : string) (s : World) : Outcome :=
  match _channel s with
  | Some channel => Forwarded channel (OpCheckExchange exchange)
  | None => Throws not_connected
  end.

Definition deleteExchange (exchange : string) (options : option Options)
    (s : World) : Outcome :=
  match _channel s with
  | Some channel => Forwarded channel (OpDeleteExchange exchange options)
  | None => Throws not_connected
  end.

Definition unbindExchange (destination source pattern : string)
    (args : option Options) (s : World) : Outcome :=
  match _channel s with
  | Some channel =>
      Forwarded channel (OpUnbindExchange destination source pattern args)
  | None => Throws not_connected
  end.

Definition get (queue : string) (options : option Options) (s : World)
  : Outcome :=
  match _channel s with
  | Some channel => Forwarded channel (OpGet queue options)
  | None => Throws not_connected
  end.

(** The method of the wrapper that stands for a call on the channel. *)
Definition pass_through (op : ChannelOp) (s : World) : Outcome :=
  match op with
  | OpAck message allUpTo => ack message allUpTo s
  | OpAckAll => ackAll s
  | OpNack message allUpTo requeue => nack message allUpTo requeue s
  | OpNackAll requeue => nackAll requeue s
  | OpPurgeQueue queue => purgeQueue queue s
  | OpCheckQueue queue => checkQueue queue s
  | OpAssertQueue queue options => assertQueue queue options s
  | OpBindQueue queue source pattern args =>
      bindQueue queue source pattern args s
  | OpUnbindQueue queue source pattern args =>
      unbindQueue queue source pattern args s
  | OpDeleteQueue queue options => deleteQueue queue options s
  | OpAssertExchange exchange type options =>
      assertExchange exchange type options s
  | OpBindExchange destination source pattern args =>
      bindExchange destination source pattern args s
  | OpCheckExchange exchange => checkExchange exchange s
  | OpDeleteExchange exchange options => deleteExchange exchange options s
  | OpUnbindExchange destination source pattern args =>
      unbindExchange destination source pattern args s
  | OpGet queue options => get queue options s
  end.

(** [waitForConnect]: whether the promise it returns is already resolved
    ([true]) or waits for the next ['connect'] event. *)
Definition waitForConnect (s : World) : bool :=
  match _channel s, _settingUp s with
  | Some _, None => true
  | _, _ => false
  end.

(** The stimuli after which the wrapper holds no channel. *)
Definition drops_channel (s : World) (e : Event) : Prop :=
  match e with
  | CallClose => True
  | CmDisconnect => (CmDisconnectEv, H_onDisconnect) ∈ cm_listeners s
  | ChannelClosed ch => _channel s = Some ch ∧ ch < channels s
  | CreateChannelErr a _ => connects s !! a = Some AwaitCreateChannel
  | _ => False
  end.

(** Promise [p] exists and its message is not in the queue. *)
Definition unqueued (p : nat) (s : World) : Prop :=
  p < length (promises s) ∧ p ∉ completion <$> _messages s.

(** What amqplib throws when [publish] is called on a closed channel. *)
Definition illegal_operation : Error :=
  {| err_name := "IllegalOperationError"; err_message := "Channel closed";
     err_code := None |}.

(** A channel on which every [publish] throws. *)
Definition throwing : list Action → PublishResult :=
  λ _, Thrown illegal_operation.

(** One message in the queue of a wrapper that is connected to such a
    channel and whose worker (number 1) is about to run. *)
Definition doomed : World :=
  set_workerNumber 1
    (set_working true
       (run (publishes 1
             ++ [CmConnect; CreateChannelOk 0; SetupsSettled 0;
                 ConsumersSettled 0])
          (new_ChannelWrapper false (Some "orders") None throwing))).







(** * Proofs *)

(** ** Basic facts *)

Lemma bind_snoc {B : Type} (f : Action → list B) (h : list Action)
    (a : Action) :
  (h ++ [a]) ≫= f = (h ≫= f) ++ f a.
Proof. rewrite bind_app. simpl. by rewrite app_nil_r. Qed.

Lemma pushed_snoc h a : pushed (h ++ [a]) = pushed h ++ pushed_of a.
Proof. apply bind_snoc. Qed.
Lemma sent_snoc h a : sent (h ++ [a]) = sent h ++ sent_of a.
Proof. apply bind_snoc. Qed.
Lemma results_snoc h a : results (h ++ [a]) = results h ++ result_of a.
Proof. apply bind_snoc. Qed.
Lemma scheduled_snoc h a :
  scheduled (h ++ [a]) = scheduled h ++ scheduled_of a.
Proof. apply bind_snoc. Qed.

Lemma actions_since_app s s' acts :
  history s' = history s ++ acts → actions_since s s' = acts.
Proof. unfold actions_since. intros ->. by rewrite drop_app_length. Qed.

(** *** Promises *)

Lemma length_settle p v store : length (settle p v store) = length store.
Proof.
  unfold settle. repeat case_match; try done. by rewrite length_insert.
Qed.

Lemma settle_pending p v store :
  store !! p = Some Pending → settle p v store !! p = Some v.
Proof.
  intros H. unfold settle. rewrite H.
  apply list_lookup_insert_eq. by eapply lookup_lt_Some.
Qed.

Lemma settle_settled p q v w store :
  store !! q = Some w → w ≠ Pending → settle p v store !! q = Some w.
Proof.
  intros H Hw. unfold settle.
  destruct (store !! p) as [[]|] eqn:E; try done.
  destruct (decide (p = q)) as [->|]; [congruence|].
  by rewrite list_lookup_insert_ne.
Qed.

Lemma settle_other p q v store :
  p ≠ q → settle p v store !! q = store !! q.
Proof.
  intros. unfold settle. repeat case_match; try done.
  by rewrite list_lookup_insert_ne.
Qed.

(** ** C10 *)

(** C10: a ['close'] event from a channel that is not the wrapper's
    current channel changes nothing: the handle (and every other field)
    is left as it was, so the close of a stale channel cannot tear down
    its replacement. *)
Theorem stale_channel_close_is_ignored (s : World) (channel : Channel) :
  _channel s ≠ Some channel →
  _onChannelClose channel s = s
  ∧ _channel (step (ChannelClosed channel) s) = _channel s.
Proof.
  intros Hstale.
  assert (_onChannelClose channel s = s) as Heq.
  { unfold _onChannelClose. by rewrite bool_decide_eq_false_2. }
  split; [done|]. simpl. case_bool_decide; by rewrite ?Heq.
Qed.

(** ** The worker's loop *)

(** Induction along the iterations of the loop. *)
Lemma publish_loop_ind (channel : Channel)
    (P : nat → World → option Error * World → Prop) :
  (∀ s, P 0 s (None, s)) →
  (∀ n s, _channelHasRoom s = false → P (S n) s (None, s)) →
  (∀ n s, _channelHasRoom s = true → _messages s = [] →
     P (S n) s (None, s)) →
  (∀ n s message rest err,
     _channelHasRoom s = true → _messages s = message :: rest →
     channel_publish s (history s) = Thrown err →
     P (S n) s (Some err, after_throw channel message rest err s)) →
  (∀ n s message rest room,
     _channelHasRoom s = true → _messages s = message :: rest →
     channel_publish s (history s) = Returned room →
     P n (after_send channel message rest room s)
       (publish_loop channel n (after_send channel message rest room s)) →
     P (S n) s
       (publish_loop channel n (after_send channel message rest room s))) →
  ∀ n s, P n s (publish_loop channel n s).
Proof.
  intros H0 Hfull Hempty Hthrow Hsend.
  induction n as [|n IH]; intros s; [apply H0|].
  simpl. destruct (_channelHasRoom s) eqn:Hroom; simpl; [|by apply Hfull].
  destruct (_messages s) as [|message rest] eqn:Hq; [by apply Hempty|].
  unfold chan_publish; simpl.
  destruct (channel_publish s (history s)) as [room|err] eqn:Hres.
  - by apply Hsend.
  - by apply Hthrow.
Qed.

Lemma publish_loop_no_room channel n s :
  _channelHasRoom s = false → publish_loop channel n s = (None, s).
Proof. intros H. destruct n; simpl; [done|]. by rewrite H. Qed.

Lemma same_control_refl s : same_control s s.
Proof. by repeat split. Qed.

Lemma same_control_trans s1 s2 s3 :
  same_control s1 s2 → same_control s2 s3 → same_control s1 s3.
Proof. unfold same_control. intros H1 H2. destruct_and!. split_and!; congruence. Qed.

(** What one run of the loop does: it hands the first [k] queued
    messages to the channel, in queue order, and nothing else. *)
Lemma publish_loop_spec channel n s :
  let r := (publish_loop channel n s).1 in
  let s' := (publish_loop channel n s).2 in
  ∃ acts,
    history s' = history s ++ acts
    ∧ length (results acts) ≤ n
    ∧ length (results acts) ≤ length (_messages s)
    ∧ _messages s' = drop (length (results acts)) (_messages s)
    ∧ sent acts = completion <$> take (length (results acts)) (_messages s)
    ∧ pushed acts = [] ∧ scheduled acts = []
    ∧ (∀ i, S i < length (results acts) →
         results acts !! i = Some (Returned true))
    ∧ (r = None → _channelHasRoom s' = true → _messages s' ≠ [] →
         length (results acts) = n)
    ∧ (∀ err, r = Some err → Thrown err ∈ results acts)
    ∧ _working s' = _working s ∧ immediates s' = immediates s
    ∧ same_control s s'.
Proof.
  apply (publish_loop_ind channel (λ n s out,
    ∃ acts,
      history out.2 = history s ++ acts
      ∧ length (results acts) ≤ n
      ∧ length (results acts) ≤ length (_messages s)
      ∧ _messages out.2 = drop (length (results acts)) (_messages s)
      ∧ sent acts = completion <$> take (length (results acts)) (_messages s)
      ∧ pushed acts = [] ∧ scheduled acts = []
      ∧ (∀ i, S i < length (results acts) →
           results acts !! i = Some (Returned true))
      ∧ (out.1 = None → _channelHasRoom out.2 = true →
           _messages out.2 ≠ [] → length (results acts) = n)
      ∧ (∀ err, out.1 = Some err → Thrown err ∈ results acts)
      ∧ _working out.2 = _working s ∧ immediates out.2 = immediates s
      ∧ same_control s out.2)); clear n s.
  - intros s. exists []. simpl. rewrite app_nil_r.
    split_and!; try done; try lia; try apply same_control_refl.
  - intros n s Hroom. exists []. simpl. rewrite app_nil_r.
    split_and!; try done; try lia; try congruence; try apply same_control_refl.
  - intros n s Hroom Hq. exists []. simpl. rewrite app_nil_r, Hq.
    split_and!; try done; try lia; try apply same_control_refl.
  - intros n s m rest err Hroom Hq Hres.
    exists [ChanPublish channel (exchange m) (routingKey m) (content m)
              (options m) (Thrown err) (completion m)].
    simpl. rewrite Hq. split_and!; try done; simpl; try lia.
    intros ? [= <-]. apply list_elem_of_singleton. done.
  - intros n s m rest room Hroom Hq Hres (acts & Hh & Hn & Hlen & Hd & Hs
      & Hp & Hsch & Hall & Hfull & Hthrown & Hwk & Him & Hfr).
    exists ([ChanPublish channel (exchange m) (routingKey m) (content m)
               (options m) (Returned room) (completion m);
             CallResolve (completion m) room] ++ acts).
    unfold results, sent, pushed, scheduled in *.
    rewrite !bind_app. simpl in *. rewrite Hq. simpl.
    rewrite Hh, Hd, Hs, Hp, Hsch. rewrite <-!app_assoc. simpl.
    split_and!; try done; try lia.
    + intros [|i] Hi; simpl.
      * destruct room; [done|]. exfalso.
        (* after a send that reports no room the loop stops *)
        rewrite publish_loop_no_room in Hh by done. simpl in Hh.
        assert (acts = []) as ->.
        { apply (f_equal length) in Hh. rewrite !length_app in Hh.
          destruct acts; [done|]. simpl in Hh. lia. }
        simpl in Hi. lia.
      * apply Hall. lia.
    + intros H1 H2 H3. f_equal. apply Hfull; [done|done|]. by rewrite Hd.
    + intros err Herr. right. by apply Hthrown.
    + eapply same_control_trans; [|exact Hfr].
      unfold same_control. simpl. rewrite length_settle.
      by split_and!.
Qed.

(** ** One turn of the worker *)

Lemma worker_stops n s :
  ¬ worker_proceeds n s → _publishExchangeMessages n s = set_working false s.
Proof.
  intros Hno. unfold _publishExchangeMessages.
  destruct (_channel s) as [channel|] eqn:Hc; [|done].
  destruct (_shouldPublish s) eqn:Hsp; [|done].
  destruct (_working s) eqn:Hw; [|done].
  case_bool_decide as Hn; [|done].
  destruct Hno. by repeat split.
Qed.

Lemma worker_runs n s channel :
  worker_proceeds n s → _channel s = Some channel →
  _publishExchangeMessages n s =
    match publish_loop channel MAX_MESSAGES_PER_BATCH s with
    | (None, s) =>
        if _channelHasRoom s && bool_decide (0 < length (_messages s))
        then set_immediates (immediates s ++ [n]) (log (SetImmediate n) s)
        else set_working false s
    | (Some err, s) => emit (WError err None) (set_working false s)
    end.
Proof.
  intros (_ & Hsp & Hw & Hn) Hc. unfold _publishExchangeMessages.
  rewrite Hc, Hsp, Hw. by rewrite bool_decide_eq_true_2.
Qed.

(** What a turn does to the queue and to the scheduler. *)
Lemma worker_spec n s :
  let s' := _publishExchangeMessages n s in
  ∃ acts,
    history s' = history s ++ acts
    ∧ length (results acts) ≤ MAX_MESSAGES_PER_BATCH
    ∧ length (results acts) ≤ length (_messages s)
    ∧ _messages s' = drop (length (results acts)) (_messages s)
    ∧ sent acts = completion <$> take (length (results acts)) (_messages s)
    ∧ pushed acts = []
    ∧ (∀ i, S i < length (results acts) →
         results acts !! i = Some (Returned true))
    ∧ (scheduled acts = [] ∧ _working s' = false
         ∧ immediates s' = immediates s
       ∨ scheduled acts = [n] ∧ _working s' = true
         ∧ immediates s' = immediates s ++ [n]
         ∧ worker_proceeds n s
         ∧ length (results acts) = MAX_MESSAGES_PER_BATCH
         ∧ _messages s' ≠ [] ∧ _channelHasRoom s' = true)
    ∧ (worker_proceeds n s → (∀ err, Thrown err ∉ results acts) →
       _channelHasRoom s' = true → _messages s' ≠ [] →
       scheduled acts = [n])
    ∧ same_control s s'.
Proof.
  intros s'. subst s'.
  destruct (decide (worker_proceeds n s)) as [Hgo|Hno].
  2:{ rewrite worker_stops by done. exists []. simpl. rewrite app_nil_r.
      split_and!; try done; try lia; try apply same_control_refl.
      by left. }
  destruct (_channel s) as [channel|] eqn:Hc;
    [|destruct Hgo as ([? ?] & _); congruence].
  rewrite (worker_runs _ _ channel) by done.
  destruct (publish_loop_spec channel MAX_MESSAGES_PER_BATCH s)
    as (acts & Hh & Hn & Hlen & Hd & Hs & Hp & Hsch & Hall & Hfull & Hthrown
        & Hwk & Him & Hfr).
  destruct (publish_loop channel MAX_MESSAGES_PER_BATCH s) as [[err|] s1].
  - (* channel.publish threw *)
    simpl in *. exists (acts ++ [Emit (WError err None)]).
    unfold results, sent, pushed, scheduled in *. rewrite !bind_snoc.
    simpl. rewrite !app_nil_r, Hh, <-app_assoc.
    split_and!; try done.
    + left. by rewrite Hsch.
    + intros _ Hnone. destruct (Hnone err). by apply Hthrown.
  - simpl in *.
    destruct (_channelHasRoom s1) eqn:Hroom; simpl.
    + case_bool_decide as Hne.
      * exists (acts ++ [SetImmediate n]).
        unfold results, sent, pushed, scheduled in *. rewrite !bind_snoc.
        simpl. rewrite !app_nil_r, Hh, <-app_assoc, Hsch, Him.
        assert (_messages s1 ≠ []) as Hq.
        { intros Hq. rewrite Hq in Hne. simpl in Hne. lia. }
        destruct Hgo as (? & ? & Hw & ?).
        split_and!; try done.
        right. split_and!; try done; try congruence.
        by apply Hfull.
      * exists acts. split_and!; try done.
        -- left. by rewrite Hsch.
        -- intros _ _ _ Hq. destruct Hne. rewrite Hd in *.
           destruct (drop _ _); [done|simpl; lia].
    + exists acts. split_and!; try done; [by left|congruence].
Qed.

(** ** Frames

    Most of the wrapper's code works on the connection and on the consumer
    registry and leaves the publish path alone, and the other way round.
    A view of the state is framed when it does not depend on the fields
    the connection code writes, nor on the calls that code logs. *)

Lemma foldl_view {A B} (V : World → B) (f : World → A → World) l s :
  (∀ s x, V (f s x) = V s) → V (foldl f s l) = V s.
Proof.
  intros Hf. revert s. induction l as [|x l IH]; intros s; simpl; [done|].
  by rewrite IH, Hf.
Qed.

Ltac frame_solver :=
  repeat first
    [ rewrite framed_settingUp | rewrite framed_channel
    | rewrite framed_working | rewrite framed_channelHasRoom
    | rewrite framed_connects | rewrite framed_pending_consumes
    | rewrite framed_consume_calls | rewrite framed_immediates
    | rewrite framed_channels
    | rewrite framed_log by reflexivity
    | rewrite foldl_view; [|intros]
    | case_match
    | case_bool_decide ];
  try reflexivity.

Section frame.
Context {B : Type} (V : World → B) `{!Framed V}.
Implicit Types s : World.

Lemma frame_emit e s : V (emit e s) = V s.
Proof. by apply framed_log. Qed.

Lemma frame_set_phase a ph s : V (set_phase a ph s) = V s.
Proof. apply framed_connects. Qed.

Lemma frame__consume c owner s : V (_consume c owner s) = V s.
Proof. unfold _consume. frame_solver. Qed.

Lemma frame__reconnectConsumer c owner s :
  V (_reconnectConsumer c owner s) = V s.
Proof. unfold _reconnectConsumer. case_bool_decide; [|done]. apply frame__consume. Qed.

Lemma frame__onConnect s : V (_onConnect s) = V s.
Proof. unfold _onConnect. frame_solver. Qed.

Lemma frame__onConnect_catch a err s : V (_onConnect_catch a err s) = V s.
Proof. unfold _onConnect_catch, set_phase, emit. frame_solver. Qed.

Lemma frame__onConnect_channel a s : V (_onConnect_channel a s) = V s.
Proof. unfold _onConnect_channel, set_phase. frame_solver. Qed.

Lemma frame_setup_settled a i err s : V (setup_settled a i err s) = V s.
Proof. unfold setup_settled, setup_catch, set_phase, emit. frame_solver. Qed.

Lemma frame_setup_thrown a i err s : V (setup_thrown a i err s) = V s.
Proof.
  unfold setup_thrown, _onConnect_setup_thrown, _onConnect_catch, set_phase,
    emit.
  frame_solver.
Qed.

Lemma frame__onConnect_consumers a s :
  V (_onConnect_consumers a s) = V s.
Proof.
  unfold _onConnect_consumers, set_phase. rewrite framed_connects.
  apply foldl_view. intros. apply frame__reconnectConsumer.
Qed.

Lemma frame__onConnect_settled a s : V (_onConnect_settled a s) = V s.
Proof. unfold _onConnect_settled, set_phase. frame_solver. Qed.

Lemma frame__onChannelClose channel s : V (_onChannelClose channel s) = V s.
Proof. unfold _onChannelClose. frame_solver. Qed.

Lemma frame__onDisconnect s : V (_onDisconnect s) = V s.
Proof. unfold _onDisconnect. frame_solver. Qed.

Lemma frame_resubscribe_catch err s : V (resubscribe_catch err s) = V s.
Proof. unfold resubscribe_catch, emit. frame_solver. Qed.
End frame.

(** ** Code that leaves the publish path alone *)

#[global] Instance publish_view_framed : Framed publish_view.
Proof.
  split; try done.
  intros a s Hp Hs. unfold publish_view, log. simpl.
  by rewrite pushed_snoc, sent_snoc, Hp, Hs, !app_nil_r.
Qed.

Lemma view_set_consumers v s :
  publish_view (set_consumers v s) = publish_view s.
Proof. done. Qed.

Lemma view_set_consumer_heap v s :
  publish_view (set_consumer_heap v s) = publish_view s.
Proof. done. Qed.

Lemma view_set_settingUp v s :
  publish_view (set_settingUp v s) = publish_view s.
Proof. apply framed_settingUp. Qed.

Lemma view_set_channel v s :
  publish_view (set_channel v s) = publish_view s.
Proof. apply framed_channel. Qed.

Lemma view_set_working v s :
  publish_view (set_working v s) = publish_view s.
Proof. apply framed_working. Qed.

Lemma view_set_channelHasRoom v s :
  publish_view (set_channelHasRoom v s) = publish_view s.
Proof. apply framed_channelHasRoom. Qed.

Lemma view_set_connects v s :
  publish_view (set_connects v s) = publish_view s.
Proof. apply framed_connects. Qed.

Lemma view_set_pending_consumes v s :
  publish_view (set_pending_consumes v s) = publish_view s.
Proof. apply framed_pending_consumes. Qed.

Lemma view_set_consume_calls v s :
  publish_view (set_consume_calls v s) = publish_view s.
Proof. apply framed_consume_calls. Qed.

Lemma view_set_immediates v s :
  publish_view (set_immediates v s) = publish_view s.
Proof. apply framed_immediates. Qed.

Lemma view_set_channels v s :
  publish_view (set_channels v s) = publish_view s.
Proof. apply framed_channels. Qed.

Lemma view_log a s :
  pushed_of a = [] → sent_of a = [] →
  publish_view (log a s) = publish_view s.
Proof. apply framed_log. Qed.

Lemma view_emit e s :
  publish_view (emit e s) = publish_view s.
Proof. apply (frame_emit publish_view). Qed.

Lemma view_set_phase a ph s :
  publish_view (set_phase a ph s) = publish_view s.
Proof. apply (frame_set_phase publish_view). Qed.

Lemma view__consume c owner s :
  publish_view (_consume c owner s) = publish_view s.
Proof. apply (frame__consume publish_view). Qed.

Lemma view__reconnectConsumer c owner s :
  publish_view (_reconnectConsumer c owner s) = publish_view s.
Proof. apply (frame__reconnectConsumer publish_view). Qed.

Lemma view__onConnect s :
  publish_view (_onConnect s) = publish_view s.
Proof. apply (frame__onConnect publish_view). Qed.

Lemma view__onConnect_catch a err s :
  publish_view (_onConnect_catch a err s) = publish_view s.
Proof. apply (frame__onConnect_catch publish_view). Qed.

Lemma view__onConnect_channel a s :
  publish_view (_onConnect_channel a s) = publish_view s.
Proof. apply (frame__onConnect_channel publish_view). Qed.

Lemma view_setup_settled a i err s :
  publish_view (setup_settled a i err s) = publish_view s.
Proof. apply (frame_setup_settled publish_view). Qed.

Lemma view_setup_thrown a i err s :
  publish_view (setup_thrown a i err s) = publish_view s.
Proof. apply (frame_setup_thrown publish_view). Qed.

Lemma view__onConnect_consumers a s :
  publish_view (_onConnect_consumers a s) = publish_view s.
Proof. apply (frame__onConnect_consumers publish_view). Qed.

Lemma view__onConnect_settled a s :
  publish_view (_onConnect_settled a s) = publish_view s.
Proof. apply (frame__onConnect_settled publish_view). Qed.

Lemma view__onChannelClose channel s :
  publish_view (_onChannelClose channel s) = publish_view s.
Proof. apply (frame__onChannelClose publish_view). Qed.

Lemma view__onDisconnect s :
  publish_view (_onDisconnect s) = publish_view s.
Proof. apply (frame__onDisconnect publish_view). Qed.

Lemma view_resubscribe_catch err s :
  publish_view (resubscribe_catch err s) = publish_view s.
Proof. apply (frame_resubscribe_catch publish_view). Qed.

Create Rewrite HintDb view.

#[global] Hint Rewrite view_set_settingUp view_set_consumers view_set_channel
  view_set_working view_set_channelHasRoom view_set_consumer_heap
  view_set_connects view_set_pending_consumes view_set_consume_calls
  view_set_immediates view_set_channels view_set_phase view_emit
  view__consume view__reconnectConsumer view__onConnect view__onConnect_catch
  view__onConnect_channel view_setup_settled view_setup_thrown
  view__onConnect_consumers
  view__onConnect_settled view__onChannelClose view__onDisconnect
  view_resubscribe_catch : view.
#[global] Hint Rewrite view_log using reflexivity : view.

Ltac view_solver :=
  repeat first
    [ progress autorewrite with view
    | rewrite foldl_view; [|intros]
    | case_match
    | case_bool_decide ];
  try reflexivity.

Lemma view_consume_settled k r s :
  publish_view (consume_settled k r s) = publish_view s.
Proof. unfold consume_settled, _consume_reply. view_solver. Qed.

Lemma view_consume_register consumer s :
  publish_view (consume_register consumer s) = publish_view s.
Proof. unfold consume_register. view_solver. Qed.

Lemma view_consume_tagged q h o tag s :
  publish_view (consume_tagged q h o tag s) = publish_view s.
Proof.
  unfold consume_tagged. view_solver; by rewrite view_consume_register.
Qed.

Lemma view_consume q h o s : publish_view (consume q h o s) = publish_view s.
Proof. unfold consume. view_solver. by rewrite view_consume_tagged. Qed.

Lemma view_cancelAll s : publish_view (cancelAll s) = publish_view s.
Proof. unfold cancelAll. view_solver. Qed.

Lemma view_cancel tag s : publish_view (cancel tag s) = publish_view s.
Proof. unfold cancel. view_solver. Qed.

Lemma view_consumer_callback c msg s :
  publish_view (consumer_callback c msg s) = publish_view s.
Proof. unfold consumer_callback. view_solver. Qed.

#[global] Hint Rewrite view_consume_settled view_consume_register
  view_consume_tagged view_consume view_cancelAll view_cancel
  view_consumer_callback : view.

(** ** The queue invariant *)

Lemma publish_view_queue_view s s' :
  publish_view s' = publish_view s → queue_view s' = queue_view s.
Proof. unfold publish_view, queue_view. intros [= -> -> -> -> _ _ _]. done. Qed.

Lemma fifo_inv_view s s' :
  queue_view s' = queue_view s → fifo_inv s → fifo_inv s'.
Proof. unfold queue_view, fifo_inv. intros [= -> -> -> ->]. done. Qed.

Lemma filter_all {A} (P : A → Prop) `{∀ x, Decision (P x)} (l : list A) :
  Forall P l → filter P l = l.
Proof.
  induction 1 as [|x l Hx Hl IH]; [done|].
  by rewrite filter_cons_True, IH.
Qed.

Lemma filter_ext_in {A} (P Q : A → Prop) `{∀ x, Decision (P x)}
    `{∀ x, Decision (Q x)} (l : list A) :
  (∀ x, x ∈ l → P x ↔ Q x) → filter P l = filter Q l.
Proof.
  induction l as [|x l IH]; intros HPQ; [done|].
  rewrite !filter_cons.
  assert (P x ↔ Q x) as Hx by (apply HPQ; left).
  rewrite IH by (intros; apply HPQ; by right).
  destruct (decide (P x)), (decide (Q x)); tauto.
Qed.

Lemma fifo_inv_queue_pushed s m :
  fifo_inv s → m ∈ _messages s → completion m ∈ pushed (history s).
Proof.
  intros (Heq & _) Hm. rewrite <-Heq. apply elem_of_app. right.
  by apply list_elem_of_fmap_2.
Qed.

Lemma fifo_inv_queue_unsent s m :
  fifo_inv s → m ∈ _messages s → completion m ∉ sent (history s).
Proof.
  intros (Heq & Hnd & _) Hm Hs.
  rewrite <-Heq in Hnd. apply NoDup_app in Hnd as (_ & Hdisj & _).
  apply (Hdisj (completion m)).
  - apply list_elem_of_filter. split; [|done].
    rewrite <-Heq. apply elem_of_app. right. by apply list_elem_of_fmap_2.
  - by apply list_elem_of_fmap_2.
Qed.

Lemma fifo_inv_queue_NoDup s :
  fifo_inv s → NoDup (completion <$> _messages s).
Proof.
  intros (Heq & Hnd & _). rewrite <-Heq in Hnd.
  by apply NoDup_app in Hnd as (_ & _ & ?).
Qed.

(** Handing the first [k] messages of the queue to a channel. *)
Lemma fifo_inv_drain s s' k :
  fifo_inv s →
  pushed (history s') = pushed (history s) →
  sent (history s') =
    sent (history s) ++ (completion <$> take k (_messages s)) →
  _messages s' = drop k (_messages s) →
  length (promises s') = length (promises s) →
  fifo_inv s'.
Proof.
  intros Hinv Hp Hs Hq Hlen.
  pose proof (fifo_inv_queue_NoDup s Hinv) as Hqnd.
  assert (∀ p, p ∈ completion <$> take k (_messages s) →
               p ∈ pushed (history s) ∧ p ∉ sent (history s)) as Hhead.
  { intros p (m & -> & Hm)%list_elem_of_fmap.
    apply elem_of_take in Hm as (i & Hm & _).
    apply list_elem_of_lookup_2 in Hm.
    split; [by apply fifo_inv_queue_pushed|by apply fifo_inv_queue_unsent]. }
  destruct Hinv as (Heq & Hnd & Hsnd & Hb).
  unfold fifo_inv. rewrite Hp, Hs, Hq, Hlen. split_and!; try done.
  - rewrite filter_app, <-app_assoc.
    rewrite (filter_all _ (completion <$> take k _)).
    + by rewrite <-fmap_app, take_drop.
    + apply Forall_forall. intros p Hp'. by apply Hhead.
  - apply NoDup_app. split_and!; [done| |].
    + intros p Hp1 Hp2. by apply (Hhead p).
    + rewrite <-(take_drop k (_messages s)), fmap_app in Hqnd.
      by apply NoDup_app in Hqnd as (? & _).
  - intros p [Hp'|[Hp'|Hp']%elem_of_app]; [apply Hb; by left|
      apply Hb; by right|].
    apply Hb. left. by apply Hhead.
Qed.

Lemma fifo_inv_worker n s :
  fifo_inv s → fifo_inv (_publishExchangeMessages n s).
Proof.
  intros Hinv.
  destruct (worker_spec n s) as (acts & Hh & _ & _ & Hd & Hs & Hp & _ & _ & _
    & Hfr).
  eapply (fifo_inv_drain s _ (length (results acts))); try done.
  - rewrite Hh. unfold pushed in *. by rewrite bind_app, Hp, app_nil_r.
  - rewrite Hh. unfold sent in *. by rewrite bind_app, Hs.
  - unfold same_control in Hfr. by destruct_and!.
Qed.

Lemma fifo_inv__startWorker s : fifo_inv s → fifo_inv (_startWorker s).
Proof.
  intros Hinv. unfold _startWorker. case_match; [|done].
  apply fifo_inv_worker. revert Hinv. by apply fifo_inv_view.
Qed.

(** Handing a message that never was in the queue to a channel. *)
Lemma fifo_inv_direct s s' :
  fifo_inv s →
  pushed (history s') = pushed (history s) →
  sent (history s') = sent (history s) ++ [length (promises s)] →
  _messages s' = _messages s →
  length (promises s') = S (length (promises s)) →
  fifo_inv s'.
Proof.
  intros (Heq & Hnd & Hsnd & Hb) Hp Hs Hq Hlen.
  assert (length (promises s) ∉ pushed (history s)) as Hfp.
  { intros Hin. assert (length (promises s) < length (promises s)); [|lia].
    apply Hb. by left. }
  assert (length (promises s) ∉ sent (history s)) as Hfs.
  { intros Hin. assert (length (promises s) < length (promises s)); [|lia].
    apply Hb. by right. }
  unfold fifo_inv. rewrite Hp, Hs, Hq, Hlen. split_and!.
  - rewrite filter_app, filter_cons_False by done. simpl.
    by rewrite app_nil_r.
  - done.
  - apply NoDup_app. split_and!; [done| |apply NoDup_singleton].
    intros p Hp1 ->%list_elem_of_singleton. done.
  - intros p [Hp'|[Hp'| ->%list_elem_of_singleton]%elem_of_app]; [| |lia].
    + assert (p < length (promises s)); [apply Hb; by left|lia].
    + assert (p < length (promises s)); [apply Hb; by right|lia].
Qed.

(** Pushing a new message on the queue. *)
Lemma fifo_inv_push s s' m :
  fifo_inv s →
  _messages s' = _messages s ++ [m] →
  completion m = length (promises s) →
  pushed (history s') = pushed (history s) ++ [completion m] →
  sent (history s') = sent (history s) →
  length (promises s') = S (length (promises s)) →
  fifo_inv s'.
Proof.
  intros (Heq & Hnd & Hsnd & Hb) Hq Hm Hp Hs Hlen.
  assert (completion m ∉ pushed (history s)) as Hfp.
  { rewrite Hm. intros Hin.
    assert (length (promises s) < length (promises s)); [|lia].
    apply Hb. by left. }
  assert (completion m ∉ sent (history s)) as Hfs.
  { rewrite Hm. intros Hin.
    assert (length (promises s) < length (promises s)); [|lia].
    apply Hb. by right. }
  unfold fifo_inv. rewrite Hp, Hs, Hq, Hlen. split_and!.
  - rewrite fmap_app, app_assoc. simpl. f_equal.
    etrans; [|exact Heq]. f_equal. apply filter_ext_in. intros p Hp'.
    rewrite elem_of_app, list_elem_of_singleton. split; [|by left].
    intros [?| ->]; done.
  - apply NoDup_app. split_and!; [done| |apply NoDup_singleton].
    intros p Hp1 ->%list_elem_of_singleton. done.
  - done.
  - intros p [[Hp'| ->%list_elem_of_singleton]%elem_of_app|Hp']; [| lia |].
    + assert (p < length (promises s)); [apply Hb; by left|lia].
    + assert (p < length (promises s)); [apply Hb; by right|lia].
Qed.

Lemma fifo_inv_publish ex rk body opts s :
  fifo_inv s → fifo_inv (publish ex rk body opts s).2.
Proof.
  intros Hinv. unfold publish.
  destruct (_settingUp (set_promises (promises s ++ [Pending]) s)) eqn:E1;
    [|destruct (_channel (set_promises (promises s ++ [Pending]) s)) eqn:E2;
      [destruct (_channelHasRoom (set_promises (promises s ++ [Pending]) s))
         eqn:E3|]].
  2:{ unfold chan_publish. simpl.
      destruct (channel_publish s (history s)) as [room|err]; simpl;
        (eapply (fifo_inv_direct s); [done| | | |]); simpl;
        rewrite ?pushed_snoc, ?sent_snoc, ?length_settle, ?length_app;
        simpl; rewrite ?app_nil_r; try done; try lia. }
  all: simpl; (eapply (fifo_inv_push s); [done|reflexivity| | | |]); simpl;
    rewrite ?pushed_snoc, ?sent_snoc, ?length_app; simpl;
    rewrite ?app_nil_r; try reflexivity; try lia.
Qed.

(** ** [close] *)

Lemma length_settle_all err ps store :
  length (settle_all err ps store) = length store.
Proof.
  revert store. induction ps as [|p ps IH]; intros store; simpl; [done|].
  unfold settle_all in *. simpl. by rewrite IH, length_settle.
Qed.

Lemma settle_all_settled err ps store q w :
  store !! q = Some w → w ≠ Pending → settle_all err ps store !! q = Some w.
Proof.
  revert store. induction ps as [|p ps IH]; intros store Hq Hw; [done|].
  unfold settle_all in *. simpl. apply IH; [|done]. by apply settle_settled.
Qed.

Lemma settle_all_other err ps store q :
  q ∉ ps → settle_all err ps store !! q = store !! q.
Proof.
  revert store. induction ps as [|p ps IH]; intros store Hq; [done|].
  apply not_elem_of_cons in Hq as [Hne Hq].
  unfold settle_all in *. simpl. rewrite IH by done.
  by apply settle_other.
Qed.

Lemma settle_all_pending err ps store q :
  q ∈ ps → store !! q = Some Pending →
  settle_all err ps store !! q = Some (Rejected err).
Proof.
  revert store. induction ps as [|p ps IH]; intros store Hq Hpend.
  { by apply elem_of_nil in Hq. }
  unfold settle_all in *. simpl.
  destruct (decide (q = p)) as [->|Hne].
  - apply (settle_all_settled err ps); [|done]. by apply settle_pending.
  - apply elem_of_cons in Hq as [?|Hq]; [done|].
    apply IH; [done|]. by rewrite settle_other.
Qed.

(** The [forEach] of [close]. *)
Lemma reject_all_spec (msgs : list Message) (s : World) :
  let s' := foldl (λ s message, reject (completion message) channel_closed s)
              s msgs in
  history s' =
    history s ++ ((λ m, CallReject (completion m) channel_closed) <$> msgs)
  ∧ promises s' =
      settle_all channel_closed (completion <$> msgs) (promises s)
  ∧ _messages s' = _messages s ∧ cm_listeners s' = cm_listeners s
  ∧ _channel s' = _channel s ∧ _workerNumber s' = _workerNumber s
  ∧ _working s' = _working s.
Proof.
  revert s. induction msgs as [|m msgs IH]; intros s; simpl.
  { by rewrite app_nil_r. }
  destruct (IH (reject (completion m) channel_closed s))
    as (Hh & Hp & Hq & Hl & Hc & Hn & Hw).
  rewrite Hh, Hp, Hq, Hl, Hc, Hn, Hw. simpl.
  by rewrite <-app_assoc.
Qed.

Lemma close_spec (s : World) :
  let s' := close s in
  history s' =
    history s
    ++ ((λ m, CallReject (completion m) channel_closed) <$> _messages s)
    ++ [CmRemoveListener CmConnectEv H_onConnect;
        CmRemoveListener CmDisconnectEv H_onDisconnect]
    ++ match _channel s with Some ch => [ChanClose ch] | None => [] end
    ++ [Emit WClose]
  ∧ promises s' =
      settle_all channel_closed (completion <$> _messages s) (promises s)
  ∧ _messages s' = _messages s
  ∧ cm_listeners s' =
      reverse (remove_first (CmDisconnectEv, H_onDisconnect)
        (remove_first (CmConnectEv, H_onConnect) (reverse (cm_listeners s))))
  ∧ _channel s' = None ∧ _working s' = false
  ∧ _workerNumber s' = _workerNumber s.
Proof.
  unfold close.
  destruct (reject_all_spec (_messages s) (set_working false s))
    as (Hh & Hp & Hq & Hl & Hc & Hn & Hw).
  simpl in *.
  set (s1 := foldl _ _ _) in *. clearbody s1.
  split_and!.
  - destruct (_channel s1) as [ch|] eqn:E; rewrite <-Hc; simpl;
      rewrite Hh, <-?app_assoc; done.
  - by destruct (_channel s1).
  - by destruct (_channel s1).
  - destruct (_channel s1); simpl; by rewrite Hl, reverse_involutive.
  - by destruct (_channel s1).
  - by destruct (_channel s1).
  - by destruct (_channel s1).
Qed.

Lemma queue_view_close s : queue_view (close s) = queue_view s.
Proof.
  destruct (close_spec s) as (Hh & Hp & Hq & _).
  unfold queue_view. rewrite Hh, Hp, Hq, length_settle_all.
  unfold pushed, sent. rewrite !bind_app.
  assert (∀ msgs : list Message,
    ((λ m, CallReject (completion m) channel_closed) <$> msgs) ≫= pushed_of
      = []
    ∧ ((λ m, CallReject (completion m) channel_closed) <$> msgs) ≫= sent_of
      = []) as Hnil.
  { induction msgs as [|m msgs [IH1 IH2]]; simpl; by rewrite ?IH1, ?IH2. }
  destruct (Hnil (_messages s)) as [-> ->].
  destruct (_channel s); simpl; by rewrite !app_nil_r.
Qed.

(** ** Invariance *)

Lemma fifo_inv_quiet s s' :
  publish_view s' = publish_view s → fifo_inv s → fifo_inv s'.
Proof. intros Hv. apply fifo_inv_view. by apply publish_view_queue_view. Qed.

Lemma fifo_inv__onConnect_resume a s :
  fifo_inv s → fifo_inv (_onConnect_resume a s).
Proof.
  intros Hinv. unfold _onConnect_resume. case_match; [|done].
  eapply fifo_inv_quiet; [apply view_emit|].
  by apply fifo_inv__startWorker.
Qed.

(** Dispatch on the piece of code a stimulus runs. *)
Ltac fifo_inv_case :=
  lazymatch goal with
  | H : fifo_inv ?s |- fifo_inv ?s => exact H
  | |- fifo_inv (publish _ _ _ _ _).2 => by apply fifo_inv_publish
  | |- fifo_inv (_onConnect_resume _ _) => by apply fifo_inv__onConnect_resume
  | |- fifo_inv (_onChannelDrain _) => by apply fifo_inv__startWorker
  | |- fifo_inv (_publishExchangeMessages _ _) => by apply fifo_inv_worker
  | H : fifo_inv ?s |- fifo_inv (close ?s) =>
      revert H; apply fifo_inv_view, queue_view_close
  | H : fifo_inv ?s |- fifo_inv _ =>
      revert H; apply fifo_inv_quiet;
      autorewrite with view; reflexivity
  end.

Lemma fifo_inv_step e s : fifo_inv s → fifo_inv (step e s).
Proof.
  intros Hinv. destruct e; cbv beta iota delta [step];
    repeat first [ case_match | case_bool_decide ]; fifo_inv_case.
Qed.

Lemma fifo_inv_new connected nm setup oracle :
  fifo_inv (new_ChannelWrapper connected nm setup oracle).
Proof.
  destruct connected, setup; unfold fifo_inv; simpl;
    (split_and!; [done|apply NoDup_nil_2|apply NoDup_nil_2|]);
    intros p [Hp|Hp]; by apply elem_of_nil in Hp.
Qed.

Lemma run_snoc evs e s : run (evs ++ [e]) s = step e (run evs s).
Proof. unfold run. by rewrite foldl_app. Qed.

Lemma fifo_inv_run evs s : fifo_inv s → fifo_inv (run evs s).
Proof.
  intros Hinv. induction evs as [|e evs IH] using rev_ind; [done|].
  rewrite run_snoc. by apply fifo_inv_step.
Qed.

(** ** Subscriptions and the generation counter along a run *)

Lemma publish_view_listeners s s' :
  publish_view s' = publish_view s →
  cm_listeners s' = cm_listeners s ∧ _workerNumber s' = _workerNumber s
  ∧ promises s' = promises s ∧ _setups s' = _setups s.
Proof. unfold publish_view. by intros [= _ _ _ -> -> -> ->]. Qed.

Lemma publish_frame ex rk body opts s :
  let s' := (publish ex rk body opts s).2 in
  cm_listeners s' = cm_listeners s ∧ _workerNumber s' = _workerNumber s.
Proof.
  unfold publish, chan_publish. simpl.
  repeat case_match; simplify_eq/=; done.
Qed.

Lemma worker_frame n s :
  let s' := _publishExchangeMessages n s in
  cm_listeners s' = cm_listeners s ∧ _workerNumber s' = _workerNumber s.
Proof.
  destruct (worker_spec n s) as (acts & _ & _ & _ & _ & _ & _ & _ & _ & _
    & Hfr).
  unfold same_control in Hfr. by destruct_and!.
Qed.

(** [_startWorker] either does nothing, or bumps the counter by one and
    runs the first turn of the new worker with the new number. *)
Lemma _startWorker_cases s :
  _startWorker s = s
  ∨ _working s = false ∧ _shouldPublish s = true
    ∧ _startWorker s =
        _publishExchangeMessages (S (_workerNumber s))
          (set_workerNumber (S (_workerNumber s)) (set_working true s))
    ∧ _workerNumber (_startWorker s) = S (_workerNumber s).
Proof.
  unfold _startWorker.
  destruct (_working s) eqn:Hw; simpl; [by left|].
  destruct (_shouldPublish s) eqn:Hsp; [|by left].
  right. split_and!; try done.
  by destruct (worker_frame (S (_workerNumber s))
    (set_workerNumber (S (_workerNumber s)) (set_working true s))) as [_ ->].
Qed.

Lemma _startWorker_listeners s :
  cm_listeners (_startWorker s) = cm_listeners s.
Proof.
  destruct (_startWorker_cases s) as [->|(_ & _ & -> & _)]; [done|].
  by destruct (worker_frame (S (_workerNumber s))
    (set_workerNumber (S (_workerNumber s)) (set_working true s))) as [-> _].
Qed.

Ltac frame_case :=
  lazymatch goal with
  | |- cm_listeners ?s = cm_listeners ?s ∧ _ => split; [done|by left]
  | |- context [(publish ?ex ?rk ?body ?opts ?s).2] =>
      destruct (publish_frame ex rk body opts s) as [-> ->];
      split; [done|by left]
  | |- context [_onConnect_resume ?a ?s] =>
      unfold _onConnect_resume; case_match;
      [|split; [done|by left]];
      rewrite (proj1 (publish_view_listeners _ _ (view_emit _ _)));
      rewrite (proj1 (proj2 (publish_view_listeners _ _ (view_emit _ _))));
      rewrite _startWorker_listeners;
      split; [done|];
      destruct (_startWorker_cases (set_phase a Done s))
        as [->|(_ & _ & _ & ->)]; [by left|by right]
  | |- context [_onChannelDrain ?s] =>
      unfold _onChannelDrain; rewrite _startWorker_listeners;
      split; [done|];
      destruct (_startWorker_cases (set_channelHasRoom true s))
        as [->|(_ & _ & _ & ->)]; [by left|by right]
  | |- context [_publishExchangeMessages ?n ?s] =>
      destruct (worker_frame n s) as [-> ->]; split; [done|by left]
  | |- cm_listeners ?s' = cm_listeners ?s ∧ _ =>
      assert (publish_view s' = publish_view s) as Hv
        by (autorewrite with view; reflexivity);
      apply publish_view_listeners in Hv as (-> & -> & _ & _);
      split; [done|by left]
  end.

Lemma step_frame e s :
  e ≠ CallClose →
  cm_listeners (step e s) = cm_listeners s
  ∧ (_workerNumber (step e s) = _workerNumber s
     ∨ _workerNumber (step e s) = S (_workerNumber s)).
Proof.
  intros He. destruct e; try done; cbv beta iota delta [step];
    repeat first [ case_match | case_bool_decide ]; frame_case.
Qed.


Lemma listeners_inv_close s : listeners_inv s → cm_listeners (close s) = [].
Proof.
  destruct (close_spec s) as (_ & _ & _ & -> & _).
  by intros [-> | ->].
Qed.

Lemma listeners_inv_step e s : listeners_inv s → listeners_inv (step e s).
Proof.
  intros Hinv. unfold listeners_inv.
  destruct e;
    try (by match goal with
            | |- context [step ?e s] =>
                destruct (step_frame e s) as [-> _]
            end).
  right. by apply listeners_inv_close.
Qed.

Lemma listeners_inv_new connected nm setup oracle :
  listeners_inv (new_ChannelWrapper connected nm setup oracle).
Proof. left. by destruct connected, setup. Qed.

Lemma listeners_inv_run evs s : listeners_inv s → listeners_inv (run evs s).
Proof.
  intros Hinv. induction evs as [|e evs IH] using rev_ind; [done|].
  rewrite run_snoc. by apply listeners_inv_step.
Qed.

(** ** Settled promises stay settled *)

Lemma settled_stable_refl s : settled_stable s s.
Proof. by intros q w. Qed.

Lemma settled_stable_trans s1 s2 s3 :
  settled_stable s1 s2 → settled_stable s2 s3 → settled_stable s1 s3.
Proof. intros H1 H2 q w Hq Hw. apply H2; [|done]. by apply H1. Qed.

Lemma settled_stable_eq s s' : promises s' = promises s → settled_stable s s'.
Proof. intros Heq q w. by rewrite Heq. Qed.

Lemma settled_stable_loop channel n s :
  settled_stable s (publish_loop channel n s).2.
Proof.
  apply (publish_loop_ind channel (λ n s out, settled_stable s out.2));
    clear n s.
  - intros. apply settled_stable_refl.
  - intros. apply settled_stable_refl.
  - intros. apply settled_stable_refl.
  - by intros n s m rest err _ _ _ q w.
  - intros n s m rest room _ _ _ IH.
    eapply settled_stable_trans; [|exact IH].
    intros q w Hq Hw. simpl. by apply settle_settled.
Qed.

Lemma settled_stable_worker n s :
  settled_stable s (_publishExchangeMessages n s).
Proof.
  unfold _publishExchangeMessages.
  destruct (_channel s) as [channel|]; [|by apply settled_stable_eq].
  case_match; [by apply settled_stable_eq|].
  pose proof (settled_stable_loop channel MAX_MESSAGES_PER_BATCH s) as Hl.
  destruct (publish_loop channel MAX_MESSAGES_PER_BATCH s) as [[err|] s1];
    simpl in *; [done|].
  by case_match.
Qed.

Lemma settled_stable__startWorker s : settled_stable s (_startWorker s).
Proof.
  unfold _startWorker. case_match; [|apply settled_stable_refl].
  apply (settled_stable_worker _
    (set_workerNumber (S (_workerNumber s)) (set_working true s))).
Qed.

Lemma settled_stable__onConnect_resume a s :
  settled_stable s (_onConnect_resume a s).
Proof.
  unfold _onConnect_resume. case_match; [|by apply settled_stable_eq].
  apply (settled_stable__startWorker (set_phase a Done s)).
Qed.

Lemma settled_stable_publish ex rk body opts s :
  settled_stable s (publish ex rk body opts s).2.
Proof.
  intros q w Hq Hw.
  assert (q < length (promises s)) as Hlt by (by eapply lookup_lt_Some).
  assert ((promises s ++ [Pending]) !! q = Some w) as Hq'
    by (by rewrite lookup_app_l).
  unfold publish, chan_publish. simpl.
  repeat case_match; simplify_eq/=; try done; by apply settle_settled.
Qed.

Lemma settled_stable_close s : settled_stable s (close s).
Proof.
  intros q w Hq Hw. destruct (close_spec s) as (_ & -> & _).
  by apply settle_all_settled.
Qed.

Ltac settled_case :=
  lazymatch goal with
  | |- settled_stable ?s ?s => apply settled_stable_refl
  | |- settled_stable _ (publish _ _ _ _ _).2 => apply settled_stable_publish
  | |- settled_stable _ (close _) => apply settled_stable_close
  | |- settled_stable _ (_onConnect_resume ?a ?s) =>
      apply settled_stable__onConnect_resume
  | |- settled_stable _ (_onChannelDrain ?s) =>
      apply (settled_stable__startWorker (set_channelHasRoom true s))
  | |- settled_stable _ (_publishExchangeMessages ?n ?s) =>
      apply (settled_stable_worker n s)
  | |- settled_stable ?s ?s' =>
      assert (publish_view s' = publish_view s) as Hv
        by (autorewrite with view; reflexivity);
      apply publish_view_listeners in Hv as (_ & _ & Hv & _);
      by apply settled_stable_eq
  end.

Lemma settled_stable_step e s : settled_stable s (step e s).
Proof.
  destruct e; cbv beta iota delta [step];
    repeat first [ case_match | case_bool_decide ]; settled_case.
Qed.

Lemma settled_stable_run evs s : settled_stable s (run evs s).
Proof.
  induction evs as [|e evs IH] using rev_ind; [apply settled_stable_refl|].
  rewrite run_snoc. eapply settled_stable_trans; [exact IH|].
  apply settled_stable_step.
Qed.

(** ** C1 *)

(** [filter] keeps the order of the elements it keeps. *)
Lemma filter_lookup_order {A} (P : A → Prop) `{∀ x, Decision (P x)}
    (l : list A) (i j : nat) (a b : A) :
  filter P l !! i = Some a → filter P l !! j = Some b → i < j →
  ∃ k1 k2, k1 < k2 ∧ l !! k1 = Some a ∧ l !! k2 = Some b.
Proof.
  revert i j. induction l as [|x l IH]; intros i j Hi Hj Hlt; [done|].
  rewrite filter_cons in Hi, Hj. destruct (decide (P x)) as [HP|HP].
  - destruct i as [|i], j as [|j]; try lia; simpl in *.
    + simplify_eq. apply list_elem_of_lookup_2, list_elem_of_filter in Hj
        as [_ (k & Hk)%list_elem_of_lookup_1].
      exists 0, (S k). split_and!; [lia|done|done].
    + destruct (IH i j Hi Hj) as (k1 & k2 & ? & ? & ?); [lia|].
      exists (S k1), (S k2). split_and!; [lia|done|done].
  - destruct (IH i j Hi Hj Hlt) as (k1 & k2 & ? & ? & ?).
    exists (S k1), (S k2). split_and!; [lia|done|done].
Qed.

(** Of two messages pushed on the queue, the one pushed later is never
    handed to a channel before the one pushed earlier. *)
Lemma fifo_inv_order s i j m1 m2 k2 :
  fifo_inv s →
  pushed (history s) !! i = Some m1 → pushed (history s) !! j = Some m2 →
  i < j → sent (history s) !! k2 = Some m2 →
  ∃ k1, k1 < k2 ∧ sent (history s) !! k1 = Some m1.
Proof.
  intros (Heq & Hnd & Hsnd & _) Hi Hj Hlt Hk2.
  set (F := filter (λ p, p ∈ pushed (history s)) (sent (history s))) in *.
  assert (m2 ∈ F) as (j' & Hj')%list_elem_of_lookup_1.
  { apply list_elem_of_filter. split; by eapply list_elem_of_lookup_2. }
  assert (j' = j) as ->.
  { eapply NoDup_lookup; [exact Hnd| |exact Hj].
    rewrite <-Heq. by apply lookup_app_l_Some. }
  assert (F !! i = Some m1) as Hi'.
  { rewrite <-Heq in Hi. rewrite lookup_app_l in Hi; [done|].
    apply lookup_lt_Some in Hj'. lia. }
  destruct (filter_lookup_order _ _ i j m1 m2 Hi' Hj' Hlt)
    as (k1 & k2' & Hlt' & Hk1 & Hk2').
  assert (k2' = k2) as -> by (by eapply NoDup_lookup).
  by exists k1.
Qed.

(** C1: the outbound queue is FIFO in publish-call order, whatever
    happens in between (disconnects, reconnects, channel closes, drains,
    [close]).  Messages are named by the promise [publish] returned for
    them, and a message counts as handed to a channel when
    [channel.publish] is called with it.  In every state the wrapper can
    reach, the messages pushed so far are those already handed to a
    channel, in the order they were handed over, followed by the current
    queue; so if [m1] was pushed before [m2] and [m2] has been handed to
    a channel, [m1] was handed over earlier. *)
Theorem outbound_queue_is_fifo (connected : bool) (nm : option string)
    (setup : option SetupFunc) (oracle : list Action → PublishResult)
    (evs : list Event) :
  let s := run evs (new_ChannelWrapper connected nm setup oracle) in
  filter (λ p, p ∈ pushed (history s)) (sent (history s))
    ++ (completion <$> _messages s) = pushed (history s)
  ∧ ∀ i j m1 m2 k2,
      pushed (history s) !! i = Some m1 →
      pushed (history s) !! j = Some m2 →
      i < j →
      sent (history s) !! k2 = Some m2 →
      ∃ k1, k1 < k2 ∧ sent (history s) !! k1 = Some m1.
Proof.
  intros s.
  assert (fifo_inv s) as Hinv by apply fifo_inv_run, fifo_inv_new.
  split; [apply Hinv|]. intros i j m1 m2 k2. by apply fifo_inv_order.
Qed.

(** ** C3 *)

Lemma rejected_close s :
  rejected (actions_since s (close s)) =
    (λ m, (completion m, channel_closed)) <$> _messages s.
Proof.
  destruct (close_spec s) as (Hh & _).
  rewrite (actions_since_app _ _ _ Hh). unfold rejected.
  rewrite !bind_app.
  assert (∀ msgs : list Message,
    ((λ m, CallReject (completion m) channel_closed) <$> msgs) ≫= rejected_of
    = (λ m, (completion m, channel_closed)) <$> msgs) as ->.
  { induction msgs as [|m msgs IH]; [done|].
    by rewrite !fmap_cons, bind_cons, IH. }
  destruct (_channel s); simpl; by rewrite app_nil_r.
Qed.

(** C3: [close], called in any state the wrapper can reach, calls
    [reject] with the error "Channel closed" once for each message in the
    outbound queue and for nothing else; the queued messages are pairwise
    distinct, so each is rejected exactly once.  A queued message whose
    promise was pending is rejected from then on, whatever happens later;
    a promise that was already settled keeps its value, and so does every
    promise of a message that is not in the queue.  Afterwards the
    connection manager holds no listener of the wrapper. *)
Theorem close_rejects_pending_messages (connected : bool)
    (nm : option string) (setup : option SetupFunc)
    (oracle : list Action → PublishResult) (evs later : list Event) :
  let s := run evs (new_ChannelWrapper connected nm setup oracle) in
  let s' := close s in
  rejected (actions_since s s') =
    (λ m, (completion m, channel_closed)) <$> _messages s
  ∧ err_message channel_closed = "Channel closed"
  ∧ NoDup (completion <$> _messages s)
  ∧ (∀ m, m ∈ _messages s →
       promises s !! completion m = Some Pending →
       promises (run later s') !! completion m =
         Some (Rejected channel_closed))
  ∧ (∀ p w, promises s !! p = Some w → w ≠ Pending →
       promises s' !! p = Some w)
  ∧ (∀ p, p ∉ completion <$> _messages s →
       promises s' !! p = promises s !! p)
  ∧ cm_listeners s' = [].
Proof.
  intros s s'.
  assert (fifo_inv s) as Hinv by apply fifo_inv_run, fifo_inv_new.
  assert (listeners_inv s) as Hl by apply listeners_inv_run, listeners_inv_new.
  destruct (close_spec s) as (_ & Hp & _).
  split_and!.
  - apply rejected_close.
  - done.
  - by apply fifo_inv_queue_NoDup.
  - intros m Hm Hpend. apply settled_stable_run; [|done].
    subst s'. rewrite Hp. apply settle_all_pending; [|done].
    by apply list_elem_of_fmap_2.
  - apply settled_stable_close.
  - intros p Hp'. subst s'. rewrite Hp. by apply settle_all_other.
  - by apply listeners_inv_close.
Qed.

(** ** C4 *)

(** While no channel is live every [publish] call goes to the queue. *)
Lemma publish_disconnected (calls : list PublishArgs) (s : World) :
  _channel s = None →
  let s' := run (publish_call <$> calls) s in
  _channel s' = None
  ∧ length (_messages s') = length (_messages s) + length calls
  ∧ promises s' = promises s ++ replicate (length calls) Pending
  ∧ (∀ i, i < length calls →
       length (promises s) + i ∈ completion <$> _messages s').
Proof.
  intros Hc. induction calls as [|[[[ex rk] body] opts] calls IH]
    using rev_ind; simpl.
  { rewrite app_nil_r. split_and!; try done; try lia. }
  rewrite fmap_app. simpl. rewrite run_snoc.
  destruct IH as (Hc' & Hlen & Hp & Hin).
  set (s1 := run (publish_call <$> calls) s) in *. clearbody s1.
  assert ((publish ex rk body opts s1).2 =
          _enqueueMessage
            {| exchange := ex; routingKey := rk; content := body;
               options := Some (default [] opts);
               completion := length (promises s1); isTimedout := false |}
            (set_promises (promises s1 ++ [Pending]) s1)) as Heq.
  { unfold publish. simpl. rewrite Hc'.
    by destruct (_settingUp s1), opts. }
  simpl. rewrite Heq. simpl. rewrite !length_app. simpl.
  split_and!; [done|lia| |].
  - rewrite Hp, replicate_add, app_assoc. done.
  - intros i Hi. rewrite fmap_app, elem_of_app.
    destruct (decide (i < length calls)) as [Hlt|Hge].
    + left. by apply Hin.
    + right. simpl. apply list_elem_of_singleton.
      rewrite Hp, length_app, length_replicate. lia.
Qed.

(** C4, as the code has it: after [N] [publish] calls on a wrapper
    without a live channel, [close] rejects the promise of each of the
    [N] calls with "Channel closed", and leaves the rejected messages in
    the queue: [queueLength] is what it was before [close], that is, [N]
    more than before the calls. *)
Theorem close_rejects_queued_and_keeps_queue (s0 : World)
    (calls : list PublishArgs) :
  _channel s0 = None →
  let s := run (publish_call <$> calls) s0 in
  let s' := close s in
  (∀ i, i < length calls →
     promises s' !! (length (promises s0) + i) =
       Some (Rejected channel_closed))
  ∧ err_message channel_closed = "Channel closed"
  ∧ queueLength s' = queueLength s0 + length calls.
Proof.
  intros Hc s s'.
  destruct (publish_disconnected calls s0 Hc) as (_ & Hlen & Hp & Hin).
  destruct (close_spec s) as (_ & Hp' & Hq & _).
  fold s in Hlen, Hp, Hin. fold s' in Hp', Hq.
  split_and!; [|done|].
  - intros i Hi. rewrite Hp'. apply settle_all_pending; [by apply Hin|].
    rewrite Hp, lookup_app_r by lia.
    apply lookup_replicate_2. lia.
  - unfold queueLength. by rewrite Hq.
Qed.

(** ** C6 *)

(** C6: one turn of the publish worker calls [channel.publish] at most
    [MAX_MESSAGES_PER_BATCH] = 1000 times, on the first messages of the
    queue in queue order; every send of the turn but the last one
    reported room, so the turn stops at the first send that reports none.
    If the turn ran, no send threw, and it ends with room and a non-empty
    queue, it made a full batch of sends and handed exactly one
    continuation, with its own number, to [setImmediate]; a turn that
    schedules nothing clears the worker flag. *)
Theorem worker_turn_is_bounded (workerNumber : nat) (s : World) :
  let s' := _publishExchangeMessages workerNumber s in
  let acts := actions_since s s' in
  MAX_MESSAGES_PER_BATCH = 1000
  ∧ length (results acts) ≤ MAX_MESSAGES_PER_BATCH
  ∧ sent acts = completion <$> take (length (results acts)) (_messages s)
  ∧ _messages s' = drop (length (results acts)) (_messages s)
  ∧ (∀ i, S i < length (results acts) →
       results acts !! i = Some (Returned true))
  ∧ (worker_proceeds workerNumber s →
     (∀ err, Thrown err ∉ results acts) →
     _channelHasRoom s' = true → _messages s' ≠ [] →
     length (results acts) = MAX_MESSAGES_PER_BATCH
     ∧ scheduled acts = [workerNumber]
     ∧ immediates s' = immediates s ++ [workerNumber]
     ∧ _working s' = true)
  ∧ (scheduled acts = [] ∨ scheduled acts = [workerNumber])
  ∧ (scheduled acts = [] →
     immediates s' = immediates s ∧ _working s' = false).
Proof.
  intros s' acts.
  destruct (worker_spec workerNumber s) as (acts' & Hh & Hn & _ & Hd & Hs
    & _ & Hall & Hsch & Hfull & _).
  fold s' in Hh, Hd, Hsch, Hfull.
  assert (acts = acts') as -> by (by apply actions_since_app).
  split; [by vm_compute|].
  split_and!; try assumption.
  - intros Hgo Hnothrow Hroom Hq.
    specialize (Hfull Hgo Hnothrow Hroom Hq).
    destruct Hsch as [(Hsch & _)|(_ & Hw & Him & _ & Hlen & _)];
      [congruence|done].
  - destruct Hsch as [(? & _)|(? & _)]; [by left|by right].
  - intros Hnone.
    destruct Hsch as [(_ & ? & ?)|(Hsch & _)]; [done|congruence].
Qed.

(** ** The message at the head of the queue *)

Lemma publish_loop_send channel n s message rest room :
  _channelHasRoom s = true →
  _messages s = message :: rest →
  channel_publish s (history s) = Returned room →
  publish_loop channel (S n) s =
    publish_loop channel n (after_send channel message rest room s).
Proof.
  intros Hroom Hq Hres. simpl. rewrite Hroom, Hq. simpl.
  unfold chan_publish. simpl. by rewrite Hres.
Qed.


(** ** Code that leaves the consumers alone *)

#[global] Instance registry_view_framed : Framed registry_view.
Proof. by split. Qed.

Lemma registry_publish ex rk body opts s :
  registry_view (publish ex rk body opts s).2 = registry_view s.
Proof.
  unfold publish, chan_publish. simpl.
  repeat case_match; simplify_eq/=; done.
Qed.

Lemma registry_worker n s :
  registry_view (_publishExchangeMessages n s) = registry_view s.
Proof.
  destruct (worker_spec n s) as (acts & _ & _ & _ & _ & _ & _ & _ & _ & _
    & Hfr).
  unfold same_control in Hfr. unfold registry_view.
  destruct_and!. congruence.
Qed.

Lemma registry__startWorker s :
  registry_view (_startWorker s) = registry_view s.
Proof.
  destruct (_startWorker_cases s) as [->|(_ & _ & -> & _)]; [done|].
  by rewrite registry_worker.
Qed.

Lemma registry_close s : registry_view (close s) = registry_view s.
Proof.
  unfold close.
  assert (∀ msgs s,
    registry_view
      (foldl (λ s message, reject (completion message) channel_closed s)
         s msgs) = registry_view s) as Hfold.
  { intros msgs s0. apply (foldl_view registry_view). intros s2 x. reflexivity. }
  match goal with
  | |- context [foldl ?f ?s0 ?l] =>
      specialize (Hfold l s0); set (s1 := foldl f s0 l) in *
  end.
  clearbody s1. simpl. by destruct (_channel s1).
Qed.

Lemma registry__onConnect_resume a s :
  registry_view (_onConnect_resume a s) = registry_view s.
Proof.
  unfold _onConnect_resume. case_match; [|done].
  rewrite frame_emit by apply _. by rewrite registry__startWorker.
Qed.

Lemma registry__onChannelDrain s :
  registry_view (_onChannelDrain s) = registry_view s.
Proof. unfold _onChannelDrain. by rewrite registry__startWorker. Qed.

(** ** Consumer tags *)

Lemma tag_of_view s s' c :
  registry_view s' = registry_view s → tag_of s' c = tag_of s c.
Proof. unfold registry_view, tag_of. by intros [= _ -> _]. Qed.

Lemma tag_of_alter s t c c' :
  consumerTag <$> alter (with_consumerTag t) c' (consumer_heap s) !! c =
    if decide (c' = c) then (λ _, t) <$> consumer_heap s !! c
    else tag_of s c.
Proof.
  unfold tag_of. destruct (decide (c' = c)) as [->|Hne].
  - rewrite list_lookup_alter_eq. by destruct (consumer_heap s !! c); simpl.
  - by rewrite list_lookup_alter_ne.
Qed.

Lemma tag_of__consume s c c' owner :
  tag_of (_consume c' owner s) c = tag_of s c.
Proof. apply tag_of_view, (frame__consume registry_view). Qed.

Lemma tag_of_register s consumer c t :
  tag_of (consume_register consumer s) c = Some (Some t) →
  consumerTag consumer = None →
  tag_of s c = Some (Some t).
Proof.
  intros Ht Hnone. revert Ht. unfold consume_register. rewrite tag_of__consume.
  unfold tag_of. simpl.
  destruct (decide (c < length (consumer_heap s))) as [Hlt|Hge].
  - by rewrite lookup_app_l.
  - rewrite lookup_app_r by lia.
    destruct (c - length (consumer_heap s)) as [|n]; simpl; [|done].
    by rewrite Hnone.
Qed.

(** A tag only ever becomes non-null through the answer to a
    [channel.consume] call. *)
Lemma tag_set_only_by_reply e s c t :
  tag_of (step e s) c = Some (Some t) →
  tag_of s c = Some (Some t)
  ∨ ∃ k pc, e = ConsumeOk k t ∧ pending_consumes s !! k = Some pc
            ∧ pc_consumer pc = c.
Proof.
  assert (∀ s', registry_view s' = registry_view s →
    tag_of s' c = Some (Some t) →
    tag_of s c = Some (Some t)
    ∨ ∃ k pc, e = ConsumeOk k t ∧ pending_consumes s !! k = Some pc
              ∧ pc_consumer pc = c) as Hsame.
  { intros s' Hv. rewrite (tag_of_view s s' c Hv). by left. }
  assert (∀ consumer s0,
    registry_view s0 = registry_view s → consumerTag consumer = None →
    tag_of (consume_register consumer s0) c = Some (Some t) →
    tag_of s c = Some (Some t)
    ∨ ∃ k pc, e = ConsumeOk k t ∧ pending_consumes s !! k = Some pc
              ∧ pc_consumer pc = c) as Hreg.
  { intros consumer s0 Hv Hnone Ht. left.
    rewrite <-(tag_of_view s s0 c Hv). by eapply tag_of_register. }
  destruct e; cbv beta iota delta [step].
  - apply Hsame, registry_publish.
  - apply Hsame, registry_close.
  - (* consume *)
    unfold consume, consume_tagged.
    repeat case_match; try (by apply Hsame); by apply Hreg.
  - (* cancel *)
    intros Ht. left. revert Ht. unfold cancel.
    repeat case_match; done.
  - (* cancelAll *)
    intros Ht. left. revert Ht. unfold cancelAll.
    case_match; [|done].
    unfold tag_of. rewrite (foldl_view consumer_heap); [done|].
    intros. by repeat case_match.
  - case_bool_decide; apply Hsame; first [done|apply (frame__onConnect registry_view)].
  - case_bool_decide; apply Hsame; first [done|apply (frame__onDisconnect registry_view)].
  - repeat case_match; apply Hsame; first [done|apply (frame__onConnect_channel registry_view)].
  - repeat case_match; apply Hsame; first [done|apply (frame__onConnect_catch registry_view)].
  - apply Hsame, (frame_setup_settled registry_view).
  - apply Hsame, (frame_setup_settled registry_view).
  - apply Hsame, (frame_setup_thrown registry_view).
  - repeat case_match; apply Hsame; first [done|apply (frame__onConnect_consumers registry_view)].
  - (* the reply with a tag *)
    unfold consume_settled.
    destruct (pending_consumes s !! k) as [pc|] eqn:Hk; [|by left].
    assert (∀ s', consumer_heap s' =
                  alter (with_consumerTag (Some tag)) (pc_consumer pc)
                    (consumer_heap s) →
            tag_of s' c = Some (Some t) →
            tag_of s c = Some (Some t) ∨
            ∃ k0 pc0, ConsumeOk k tag = ConsumeOk k0 t
              ∧ pending_consumes s !! k0 = Some pc0
              ∧ pc_consumer pc0 = c) as Hreply.
    { intros s' Hs'. unfold tag_of at 1. rewrite Hs', tag_of_alter.
      destruct (decide (pc_consumer pc = c)) as [Heq|Hne]; [|by left].
      destruct (consumer_heap s !! c); [|done].
      intros [= ->]. right. by exists k, pc. }
    repeat case_match; by apply Hreply.
  - (* the reply with an error *)
    unfold consume_settled.
    repeat case_match; apply Hsame;
      first [ done
            | apply (frame__onConnect_catch registry_view _ _
                (set_pending_consumes (delete k (pending_consumes s)) s))
            | apply (frame_resubscribe_catch registry_view _
                (set_pending_consumes (delete k (pending_consumes s)) s)) ].
  - repeat case_match; apply Hsame; try done.
  - repeat case_match; apply Hsame; first [done|apply registry__onConnect_resume].
  - (* RandomBytes *)
    repeat case_match; try (by apply Hsame). unfold consume_tagged.
    case_match; [by apply Hsame|]. by apply Hreg.
  - (* ConsumeResume *)
    repeat case_match; try (by apply Hsame).
    all: by apply Hreg.
  - case_bool_decide; apply Hsame; first [done|apply (frame__onChannelClose registry_view)].
  - case_bool_decide; apply Hsame; first [done|apply registry__onChannelDrain].
  - (* the consumer callback *)
    case_bool_decide; [|by left]. unfold consumer_callback.
    destruct msg as [m|]; [by left|].
    unfold _reconnectConsumer. intros Ht. left. revert Ht.
    case_bool_decide; rewrite ?tag_of__consume; unfold tag_of at 1; simpl;
      rewrite tag_of_alter; case_decide; try done;
      by destruct (consumer_heap s !! c).
  - case_match; [by left|].
    apply Hsame. by rewrite registry_worker.
Qed.

(** ** Setup functions *)



Lemma history_call_setups channel (fs : list nat) s :
  history (foldl (λ s setupFn, log (CallSetup setupFn channel) s) s fs) =
    history s ++ ((λ f, CallSetup f channel) <$> fs).
Proof.
  revert s. induction fs as [|f fs IH]; intros s; simpl.
  - by rewrite app_nil_r.
  - rewrite IH. simpl. by rewrite <-app_assoc.
Qed.

(** A new channel is handed to every setup function, in order. *)
Lemma setup_calls__onConnect_channel a s :
  setup_calls (actions_since s (_onConnect_channel a s)) =
    (λ f, (f, channels s)) <$> _setups s.
Proof.
  assert (history (_onConnect_channel a s) =
    history s ++ [ChanOn (channels s) ChCloseEv; ChanOn (channels s) ChDrainEv]
      ++ ((λ f, CallSetup f (channels s)) <$> _setups s)) as Hh.
  { unfold _onConnect_channel. simpl. rewrite history_call_setups. simpl.
    by rewrite <-!app_assoc. }
  rewrite (actions_since_app _ _ _ Hh). unfold setup_calls.
  rewrite bind_app. simpl.
  clear Hh. induction (_setups s) as [|f fs IH]; [done|].
  rewrite !fmap_cons, bind_cons, IH. done.
Qed.

(** ** The consumer registry along a run *)

Lemma registry_inv_view s s' :
  _consumers s' = _consumers s →
  length (consumer_heap s') = length (consumer_heap s) →
  registry_inv s → registry_inv s'.
Proof. unfold registry_inv. by intros -> ->. Qed.

Lemma registry_inv_same s s' :
  registry_view s' = registry_view s → registry_inv s → registry_inv s'.
Proof. unfold registry_view. intros [= H1 H2 _]. apply registry_inv_view; congruence. Qed.

Lemma registry_inv_register consumer s0 s :
  registry_view s0 = registry_view s →
  registry_inv s → registry_inv (consume_register consumer s0).
Proof.
  intros Hv Hinv. apply (registry_inv_same s s0 Hv) in Hinv as [Hnd Hb].
  unfold consume_register.
  eapply registry_inv_same; [apply (frame__consume registry_view)|].
  unfold registry_inv. simpl. rewrite length_app. simpl. split.
  - apply NoDup_app. split_and!; [done| |apply NoDup_singleton].
    intros c Hc ->%list_elem_of_singleton. apply Hb in Hc. lia.
  - intros c [Hc| ->%list_elem_of_singleton]%elem_of_app; [|lia].
    apply Hb in Hc. lia.
Qed.

Lemma registry_inv_step e s : registry_inv s → registry_inv (step e s).
Proof.
  intros Hinv.
  assert (∀ s', registry_view s' = registry_view s → registry_inv s')
    as Hsame.
  { intros s' Hv. by apply (registry_inv_same s). }
  assert (∀ s' c t,
    _consumers s' = _consumers s →
    consumer_heap s' = alter (with_consumerTag t) c (consumer_heap s) →
    registry_inv s') as Halter.
  { intros s' c t Hc Hh. apply (registry_inv_view s); [done| |done].
    by rewrite Hh, length_alter. }
  destruct e; cbv beta iota delta [step].
  - apply Hsame, registry_publish.
  - apply Hsame, registry_close.
  - unfold consume, consume_tagged.
    repeat case_match; try (by apply Hsame); by eapply registry_inv_register.
  - (* cancel *)
    unfold cancel. destruct (list_find _ _) as [[idx c]|]; [|done].
    apply (registry_inv_view
             (set_consumers (delete idx (_consumers s)) s)).
    { by repeat case_match. }
    { by repeat case_match. }
    destruct Hinv as [Hnd Hb]. split; simpl.
    + eapply sublist_NoDup; [exact Hnd|]. apply sublist_delete.
    + intros c' Hc'. apply Hb.
      by apply (sublist_subseteq _ _ (sublist_delete (_consumers s) idx)).
  - (* cancelAll *)
    unfold cancelAll.
    apply (registry_inv_view (set_consumers [] s)).
    { case_match; [|done]. rewrite (foldl_view _consumers); [done|].
      intros. by repeat case_match. }
    { case_match; [|done].
      rewrite (foldl_view (λ s, length (consumer_heap s))); [done|].
      intros. by repeat case_match. }
    split; simpl; [apply NoDup_nil_2|]. by intros c ?%elem_of_nil.
  - case_bool_decide; apply Hsame;
      first [done|apply (frame__onConnect registry_view)].
  - case_bool_decide; apply Hsame;
      first [done|apply (frame__onDisconnect registry_view)].
  - repeat case_match; apply Hsame;
      first [done|apply (frame__onConnect_channel registry_view)].
  - repeat case_match; apply Hsame;
      first [done|apply (frame__onConnect_catch registry_view)].
  - apply Hsame, (frame_setup_settled registry_view).
  - apply Hsame, (frame_setup_settled registry_view).
  - apply Hsame, (frame_setup_thrown registry_view).
  - repeat case_match; apply Hsame;
      first [done|apply (frame__onConnect_consumers registry_view)].
  - unfold consume_settled.
    destruct (pending_consumes s !! k) as [pc|]; [|done].
    repeat case_match; by eapply Halter.
  - unfold consume_settled.
    repeat case_match; apply Hsame;
      first [ done
            | apply (frame__onConnect_catch registry_view _ _
                (set_pending_consumes (delete k (pending_consumes s)) s))
            | apply (frame_resubscribe_catch registry_view _
                (set_pending_consumes (delete k (pending_consumes s)) s)) ].
  - repeat case_match; apply Hsame; done.
  - repeat case_match; apply Hsame; first [done|apply registry__onConnect_resume].
  - repeat case_match; try (by apply Hsame). unfold consume_tagged.
    case_match; [by apply Hsame|]. by eapply registry_inv_register.
  - repeat case_match; try (by apply Hsame).
    all: by eapply registry_inv_register.
  - case_bool_decide; apply Hsame;
      first [done|apply (frame__onChannelClose registry_view)].
  - case_bool_decide; apply Hsame;
      first [done|apply registry__onChannelDrain].
  - case_bool_decide; [|done]. unfold consumer_callback.
    destruct msg as [m|]; [by apply Hsame|].
    unfold _reconnectConsumer.
    case_bool_decide; [|by eapply Halter].
    eapply registry_inv_same; [apply (frame__consume registry_view)|].
    by eapply Halter.
  - case_match; [done|]. apply Hsame. by rewrite registry_worker.
Qed.

Lemma registry_inv_new connected nm setup oracle :
  registry_inv (new_ChannelWrapper connected nm setup oracle).
Proof.
  destruct connected, setup; (split; simpl; [apply NoDup_nil_2|]);
    by intros c ?%elem_of_nil.
Qed.

Lemma registry_inv_run evs s : registry_inv s → registry_inv (run evs s).
Proof.
  intros Hinv. induction evs as [|e evs IH] using rev_ind; [done|].
  rewrite run_snoc. by apply registry_inv_step.
Qed.

(** ** C8 *)

(** C8: when amqplib invokes a consumer's callback with [null], the
    wrapper sets the consumer's tag to [null] and, if the consumer is in
    the registry and a channel is live, calls [channel.consume] for it on
    that channel within the same callback.  If that call later fails with
    code 404 nothing happens; with any other error the wrapper emits one
    ['error'] event carrying it.  A consumer that is not in the registry
    is not re-subscribed, and a consumer that [cancel] found by its tag is
    no longer in the registry afterwards. *)
Theorem broker_cancel_resubscribes (s : World) (c : ConsumerRef)
    (consumer : Consumer) (connected : bool) (nm : option string)
    (setup : option SetupFunc) (oracle : list Action → PublishResult)
    (evs : list Event) (tag : string) :
  consumer_heap s !! c = Some consumer →
  let s' := step (ConsumerCallback c None) s in
  tag_of s' c = Some None
  ∧ (c ∈ _consumers s → ∀ channel, _channel s = Some channel →
       actions_since s s' =
         prefetch_call channel consumer
         ++ [ChanConsume channel (queue consumer)
               (opt_consumerTag (c_options consumer))
               (opt_rest (c_options consumer)) c]
       ∧ pending_consumes s' =
           pending_consumes s
           ++ [{| pc_consumer := c; pc_channel := channel;
                  pc_owner := OwnerCancelRetry |}])
  ∧ ((c ∉ _consumers s) ∨ (_channel s = None) →
       actions_since s s' = [] ∧ pending_consumes s' = pending_consumes s)
  ∧ (∀ t k pc err,
       pending_consumes t !! k = Some pc →
       pc_owner pc = OwnerCancelRetry →
       let t' := step (ConsumeErr k err) t in
       (err_code err = Some 404 → actions_since t t' = [])
       ∧ (err_code err ≠ Some 404 →
            actions_since t t' = [Emit (WError err None)]))
  ∧ (∀ idx c',
       let r := run evs (new_ChannelWrapper connected nm setup oracle) in
       list_find (tag_matches r tag) (_consumers r) = Some (idx, c') →
       (c' ∉ _consumers (cancel tag r))
       ∧ actions_since (cancel tag r)
           (step (ConsumerCallback c' None) (cancel tag r)) = []).
Proof.
  intros Hc s'.
  assert (c < length (consumer_heap s)) as Hlt by (by eapply lookup_lt_Some).
  assert (s' = _reconnectConsumer c OwnerCancelRetry
                 (set_consumer_heap
                    (alter (with_consumerTag None) c (consumer_heap s)) s))
    as Hs'.
  { subst s'. cbv beta iota delta [step].
    by rewrite bool_decide_eq_true_2. }
  set (s1 := set_consumer_heap _ s) in Hs'.
  assert (consumer_heap s1 !! c = Some (with_consumerTag None consumer))
    as Hc1.
  { simpl. by rewrite list_lookup_alter_eq, Hc. }
  refine (conj _ (conj _ (conj _ (conj _ _)))).
  - rewrite Hs'. unfold _reconnectConsumer.
    case_bool_decide; rewrite ?tag_of__consume; unfold tag_of; by rewrite Hc1.
  - intros Hin channel Hch. rewrite Hs'. unfold _reconnectConsumer.
    rewrite bool_decide_eq_true_2 by done.
    unfold _consume. replace (_channel s1) with (Some channel) by done.
    rewrite Hc1. unfold prefetch_call. simpl.
    destruct (prefetch (c_options consumer)); simpl; (split; [|done]);
      apply actions_since_app; simpl; by rewrite <-?app_assoc.
  - intros Hout. rewrite Hs'. unfold _reconnectConsumer, _consume.
    destruct Hout as [Hout|Hnone].
    + rewrite bool_decide_eq_false_2 by done. split; [|done].
      apply actions_since_app. simpl. by rewrite app_nil_r.
    + replace (_channel s1) with (@None nat) by done.
      case_bool_decide; (split; [|done]);
        apply actions_since_app; simpl; by rewrite app_nil_r.
  - intros t k pc err Hk Ho t'. subst t'. cbv beta iota delta [step].
    unfold consume_settled. rewrite Hk, Ho. unfold resubscribe_catch.
    split; intros Hcode.
    + rewrite bool_decide_eq_true_2 by done.
      apply actions_since_app. simpl. by rewrite app_nil_r.
    + rewrite bool_decide_eq_false_2 by done. by apply actions_since_app.
  - intros idx c' r Hfind.
    assert (registry_inv r) as [Hnd _]
      by apply registry_inv_run, registry_inv_new.
    assert (_consumers (cancel tag r) = delete idx (_consumers r)) as Hdel.
    { unfold cancel. rewrite Hfind. by repeat case_match. }
    assert (c' ∉ _consumers (cancel tag r)) as Hout.
    { rewrite Hdel. apply list_find_Some in Hfind as (Hidx & _ & _).
      intros (j & Hj)%list_elem_of_lookup_1.
      destruct (decide (j < idx)) as [Hlt'|Hge].
      - rewrite list_lookup_delete_lt in Hj by done.
        pose proof (NoDup_lookup _ _ _ _ Hnd Hj Hidx). lia.
      - rewrite list_lookup_delete_ge in Hj by lia.
        pose proof (NoDup_lookup _ _ _ _ Hnd Hj Hidx). lia. }
    split; [done|].
    cbv beta iota delta [step]. case_bool_decide.
    + unfold consumer_callback, _reconnectConsumer.
      rewrite bool_decide_eq_false_2 by done.
      apply actions_since_app. simpl. by rewrite app_nil_r.
    + apply actions_since_app. by rewrite app_nil_r.
Qed.

(** ** C9 *)

(** C9, as the code has it: a consumer's tag is set by the answer to a
    [channel.consume] call for that consumer and by nothing else, and it
    reverts to [null] when the broker cancels the consumer.  Losing the
    channel does not touch it: [_onDisconnect] and [_onChannelClose] leave
    every consumer as it is, so the tag of the previous subscription stays
    until a later answer overwrites it. *)
Theorem consumer_tag_follows_replies (s : World) (c : ConsumerRef) :
  tag_of (_onDisconnect s) c = tag_of s c
  ∧ (∀ channel, tag_of (_onChannelClose channel s) c = tag_of s c)
  ∧ (is_Some (consumer_heap s !! c) →
       tag_of (step (ConsumerCallback c None) s) c = Some None)
  ∧ (∀ k pc tag,
       pending_consumes s !! k = Some pc → pc_consumer pc = c →
       is_Some (consumer_heap s !! c) →
       tag_of (step (ConsumeOk k tag) s) c = Some (Some tag))
  ∧ (∀ e t,
       tag_of (step e s) c = Some (Some t) →
       tag_of s c = Some (Some t)
       ∨ ∃ k pc, e = ConsumeOk k t ∧ pending_consumes s !! k = Some pc
                 ∧ pc_consumer pc = c).
Proof.
  refine (conj _ (conj _ (conj _ (conj _ _)))).
  - apply tag_of_view, (frame__onDisconnect registry_view).
  - intros channel. apply tag_of_view, (frame__onChannelClose registry_view).
  - intros [consumer Hc].
    assert (c < length (consumer_heap s)) as Hlt
      by (by eapply lookup_lt_Some).
    cbv beta iota delta [step]. rewrite bool_decide_eq_true_2 by done.
    unfold consumer_callback, _reconnectConsumer.
    case_bool_decide; rewrite ?tag_of__consume; unfold tag_of; simpl;
      by rewrite list_lookup_alter_eq, Hc.
  - intros k pc tag Hk Hpc [consumer Hc].
    cbv beta iota delta [step]. unfold consume_settled. rewrite Hk.
    assert (∀ s', consumer_heap s' =
              alter (with_consumerTag (Some tag)) c (consumer_heap s) →
            tag_of s' c = Some (Some tag)) as Hset.
    { intros s' Hs'. unfold tag_of.
      by rewrite Hs', list_lookup_alter_eq, Hc. }
    subst c. repeat case_match; by apply Hset.
  - intros e t. apply tag_set_only_by_reply.
Qed.

Ltac computed := apply (bool_decide_unpack _); vm_compute; exact I.

(** ** Witnesses and counterexamples *)

Lemma outbound_queue_is_fifo_witness :
  ∃ k1, k1 < 3 ∧ sent (history reconnect_run) !! k1 = Some 1.
Proof.
  apply (proj2 (outbound_queue_is_fifo false (Some "orders") None always_room
                  (publishes 2 ++ connect_events 0 ++ [CmDisconnect]
                   ++ publishes 2 ++ connect_events 1))
           1 3 1 3 3).
  - vm_compute. reflexivity.
  - vm_compute. reflexivity.
  - lia.
  - vm_compute. reflexivity.
Defined.

Lemma close_rejects_pending_messages_witness :
  promises (run [CmConnect] (close (run (publishes 2) fresh))) !! 1 =
    Some (Rejected channel_closed).
Proof.
  apply (proj1 (proj2 (proj2 (proj2
           (close_rejects_pending_messages false (Some "orders") None
              always_room (publishes 2) [CmConnect]))))
           (queued_message 1)).
  - computed.
  - vm_compute. reflexivity.
Defined.

(** C4 as stated fails: one message queued while disconnected, then
    [close]: the promise is rejected with "Channel closed", but
    [queueLength] still reports 1, not 0. *)
Lemma close_leaves_queue_counterexample :
  let s := close (run [CallPublish "amq.topic" "order.new" "payload" None]
                    fresh) in
  _channel fresh = None
  ∧ promises s !! 0 = Some (Rejected channel_closed)
  ∧ queueLength s = 1
  ∧ queueLength s ≠ 0.
Proof. vm_compute. split_and!; try reflexivity. discriminate. Qed.

Lemma close_rejects_queued_and_keeps_queue_witness :
  (∀ i, i < 3 →
     promises (close (run (publish_call <$> replicate 3 publish_args) fresh))
       !! (0 + i) = Some (Rejected channel_closed))
  ∧ err_message channel_closed = "Channel closed"
  ∧ queueLength (close (run (publish_call <$> replicate 3 publish_args)
                          fresh)) = 0 + 3.
Proof.
  apply (close_rejects_queued_and_keeps_queue fresh
           (replicate 3 publish_args)).
  reflexivity.
Defined.

Lemma worker_turn_is_bounded_witness :
  length (results (actions_since full_queue
                     (_publishExchangeMessages 1 full_queue)))
    = MAX_MESSAGES_PER_BATCH
  ∧ scheduled (actions_since full_queue
                 (_publishExchangeMessages 1 full_queue)) = [1]
  ∧ immediates (_publishExchangeMessages 1 full_queue) =
      immediates full_queue ++ [1]
  ∧ _working (_publishExchangeMessages 1 full_queue) = true.
Proof.
  apply (proj1 (proj2 (proj2 (proj2 (proj2 (proj2
           (worker_turn_is_bounded 1 full_queue))))))).
  - computed.
  - intros err Hin.
    assert (results (actions_since full_queue
                       (_publishExchangeMessages 1 full_queue)) =
            replicate 1000 (Returned true)) as Hres
      by (vm_compute; reflexivity).
    rewrite Hres in Hin. apply elem_of_replicate in Hin as [Hin _].
    discriminate Hin.
  - vm_compute. reflexivity.
  - vm_compute. discriminate.
Defined.

Lemma broker_cancel_resubscribes_witness :
  actions_since consuming (step (ConsumerCallback 0 None) consuming) =
    [ChanPrefetch 0 10; ChanConsume 0 "orders" (Some "orders-1") [] 0]
  ∧ pending_consumes (step (ConsumerCallback 0 None) consuming) =
      [{| pc_consumer := 0; pc_channel := 0; pc_owner := OwnerCancelRetry |}].
Proof.
  apply (proj1 (proj2 (broker_cancel_resubscribes consuming 0
           {| consumerTag := Some "orders-1"; queue := "orders";
              onMessage := 0; c_options := orders_options |}
           false None None always_room [] "orders-1" eq_refl))).
  - computed.
  - vm_compute. reflexivity.
Defined.

(** C9 as stated fails: after a transport disconnect, and after the close
    of the current channel, the wrapper holds no channel but the
    registered consumer still carries the tag of its last subscription. *)
Lemma consumer_tag_survives_channel_loss_counterexample :
  tag_of consuming 0 = Some (Some "orders-1")
  ∧ (let s := step CmDisconnect consuming in
     _channel s = None ∧ 0 ∈ _consumers s
     ∧ tag_of s 0 = Some (Some "orders-1"))
  ∧ (let s := step (ChannelClosed 0) consuming in
     _channel s = None ∧ 0 ∈ _consumers s
     ∧ tag_of s 0 = Some (Some "orders-1")).
Proof.
  split; [vm_compute; reflexivity|].
  split; cbv zeta; (split; [vm_compute; reflexivity|]);
    (split; [computed|vm_compute; reflexivity]).
Qed.

Lemma consumer_tag_follows_replies_witness :
  tag_of (step (ConsumerCallback 0 None) consuming) 0 = Some None
  ∧ tag_of (step (ConsumeOk 0 "orders-2")
              (step (ConsumerCallback 0 None) consuming)) 0 =
      Some (Some "orders-2").
Proof.
  split.
  - apply (proj1 (proj2 (proj2 (consumer_tag_follows_replies consuming 0)))).
    computed.
  - apply (proj1 (proj2 (proj2 (proj2
             (consumer_tag_follows_replies
                (step (ConsumerCallback 0 None) consuming) 0))))
             0 {| pc_consumer := 0; pc_channel := 0;
                  pc_owner := OwnerCancelRetry |} "orders-2").
    + vm_compute. reflexivity.
    + reflexivity.
    + computed.
Defined.

Lemma stale_channel_close_is_ignored_witness :
  _channel reconnected = Some 1
  ∧ _onChannelClose 0 reconnected = reconnected
  ∧ _channel (step (ChannelClosed 0) reconnected) = _channel reconnected.
Proof.
  split; [vm_compute; reflexivity|].
  apply (stale_channel_close_is_ignored reconnected 0).
  vm_compute. discriminate.
Defined.

(** * Further properties *)

(** ** Stimuli that cannot send *)

Lemma sends_snoc h a : sends (h ++ [a]) = sends h ++ sends_of a.
Proof. apply bind_snoc. Qed.

Ltac unfold_ops :=
  unfold consume, consume_tagged, consume_register, cancel, cancelAll,
    consumer_callback, consume_settled, _consume_reply, resubscribe_catch,
    _reconnectConsumer, _consume, setup_settled, setup_thrown,
    _onConnect_setup_thrown, setup_catch, _onConnect,
    _onConnect_catch, _onConnect_channel, _onConnect_consumers,
    _onConnect_settled, _onChannelClose, _onDisconnect, set_phase, emit.

Lemma worker_view_log a s :
  sends_of a = [] → pushed_of a = [] → worker_view (log a s) = worker_view s.
Proof.
  intros Hs Hp. unfold worker_view, log. simpl.
  by rewrite sends_snoc, pushed_snoc, Hs, Hp, !app_nil_r.
Qed.

(** Peel field updates and logged calls that a view cannot see. *)
Ltac peel V Vlog :=
  cbv zeta;
  repeat first
    [ rewrite Vlog by reflexivity
    | rewrite (foldl_view V); [|intros]
    | match goal with
      | |- context [V (?f ?v ?s)] => progress change (V (f v s)) with (V s)
      end
    | case_match
    | case_bool_decide
    | progress (unfold_ops; cbv zeta) ];
  try reflexivity.

Ltac worker_view_solver := peel worker_view worker_view_log.

Lemma worker_view_reject p err s :
  worker_view (reject p err s) = worker_view s.
Proof. unfold reject. worker_view_solver. Qed.

Lemma worker_view_close s : worker_view (close s) = worker_view s.
Proof.
  unfold close, cm_removeListener.
  assert (∀ msgs s0,
    worker_view
      (foldl (λ s message, reject (completion message) channel_closed s)
         s0 msgs) = worker_view s0) as Hfold.
  { intros msgs s0. apply (foldl_view worker_view).
    intros. apply worker_view_reject. }
  match goal with
  | |- context [foldl ?f ?s0 ?l] =>
      specialize (Hfold l s0); set (s1 := foldl f s0 l) in *
  end.
  clearbody s1. transitivity (worker_view s1); [|exact Hfold].
  unfold emit. worker_view_solver.
Qed.

Lemma worker_view_quiet e s :
  quiet e = true → worker_view (step e s) = worker_view s.
Proof.
  intros He. destruct e; try discriminate He; cbv beta iota delta [step].
  1: apply worker_view_close.
  all: unfold_ops; worker_view_solver.
Qed.

(** ** The history only grows *)

Lemma history_log a s : history (log a s) = history s ++ [a].
Proof. reflexivity. Qed.

Lemma prefix_log (h : list Action) a s :
  h `prefix_of` history s → h `prefix_of` history (log a s).
Proof. intros H. rewrite history_log. by apply prefix_app_r. Qed.

Lemma prefix_foldl {A} (h : list Action) (f : World → A → World) l s :
  (∀ s x, history s `prefix_of` history (f s x)) →
  h `prefix_of` history s → h `prefix_of` history (foldl f s l).
Proof.
  intros Hf. revert s. induction l as [|x l IH]; intros s Hs; simpl; [done|].
  apply IH. etrans; [exact Hs|apply Hf].
Qed.

Ltac prefix_solver :=
  repeat first
    [ reflexivity
    | assumption
    | apply prefix_log
    | apply prefix_foldl; [intros|]
    | match goal with
      | |- ?h `prefix_of` history (?f ?v ?s) =>
          progress change (h `prefix_of` history s)
      end
    | case_match
    | case_bool_decide
    | progress unfold_ops ].

Lemma prefix_reject (h : list Action) p err s :
  h `prefix_of` history s → h `prefix_of` history (reject p err s).
Proof. intros. unfold reject. prefix_solver. Qed.

Lemma prefix_resolve (h : list Action) p b s :
  h `prefix_of` history s → h `prefix_of` history (resolve p b s).
Proof. intros. unfold resolve. prefix_solver. Qed.

Lemma prefix_worker n s :
  history s `prefix_of` history (_publishExchangeMessages n s).
Proof. destruct (worker_spec n s) as (acts & -> & _). by apply prefix_app_r. Qed.

Lemma prefix__startWorker (h : list Action) s :
  h `prefix_of` history s → h `prefix_of` history (_startWorker s).
Proof.
  intros H. destruct (_startWorker_cases s) as [->|(_ & _ & -> & _)]; [done|].
  etrans; [|apply prefix_worker]. done.
Qed.

Lemma history_step e s : history s `prefix_of` history (step e s).
Proof.
  destruct e; cbv beta iota delta [step].
  1:{ unfold publish, chan_publish, _enqueueMessage.
      repeat case_match; simplify_eq/=;
        repeat first [ reflexivity | apply prefix_app_r ]. }
  1:{ destruct (close_spec s) as (-> & _). by apply prefix_app_r. }
  all: try (repeat case_match; try reflexivity;
            first [ apply prefix_worker
                  | apply (prefix_worker _ (set_immediates _ _))
                  | unfold _onChannelDrain; by apply prefix__startWorker
                  | unfold _onConnect_resume; case_match; [|reflexivity];
                    apply prefix_log, prefix__startWorker; reflexivity ]).
  all: prefix_solver.
Qed.

Lemma history_run evs s : history s `prefix_of` history (run evs s).
Proof.
  induction evs as [|e evs IH] using rev_ind; [done|].
  rewrite run_snoc. etrans; [exact IH|apply history_step].
Qed.

(** The calls made between two states are what the history grew by. *)
Lemma history_since s s' :
  history s `prefix_of` history s' →
  history s' = history s ++ actions_since s s'.
Proof. intros [k Hk]. by rewrite (actions_since_app _ _ k Hk). Qed.

Lemma sends_app h1 h2 : sends (h1 ++ h2) = sends h1 ++ sends h2.
Proof. apply bind_app. Qed.

Lemma sent_sends h : sent h = snd <$> sends h.
Proof.
  induction h as [|a h IH]; [done|].
  unfold sent, sends in *. rewrite !bind_cons, fmap_app, IH.
  by destruct a.
Qed.

Lemma results_sends h : results h = (λ x, x.1.2) <$> sends h.
Proof.
  induction h as [|a h IH]; [done|].
  unfold results, sends in *. rewrite !bind_cons, fmap_app, IH.
  by destruct a.
Qed.

(** ** What the loop hands to the channel *)

Lemma rejected_app h1 h2 : rejected (h1 ++ h2) = rejected h1 ++ rejected h2.
Proof. apply bind_app. Qed.

Lemma settled_by_app_l snd snd' rej rej' p w :
  settled_by snd rej p w → settled_by (snd ++ snd') (rej ++ rej') p w.
Proof.
  destruct w as [|room|err]; simpl; [done| |].
  - intros [ch H]. exists ch. apply elem_of_app. by left.
  - intros [[ch H]|[H ->]]; [left|right].
    + exists ch. apply elem_of_app. by left.
    + split; [|done]. apply elem_of_app. by left.
Qed.

Lemma settled_by_app_r snd snd' rej rej' p w :
  settled_by snd' rej' p w → settled_by (snd ++ snd') (rej ++ rej') p w.
Proof.
  destruct w as [|room|err]; simpl; [done| |].
  - intros [ch H]. exists ch. apply elem_of_app. by right.
  - intros [[ch H]|[H ->]]; [left|right].
    + exists ch. apply elem_of_app. by right.
    + split; [|done]. apply elem_of_app. by right.
Qed.

Lemma publish_loop_sends channel n s :
  let s' := (publish_loop channel n s).2 in
  ∃ acts,
    history s' = history s ++ acts
    ∧ Forall (λ x, x.1.1 = channel) (sends acts)
    ∧ (∀ i x, sends acts !! i = Some x → x.1.2 = Returned false →
         S i = length (sends acts) ∧ _channelHasRoom s' = false)
    ∧ (∀ p w, promises s' !! p = Some w →
         promises s !! p = Some w
         ∨ ∃ room, w = Resolved room
                   ∧ (channel, Returned room, p) ∈ sends acts)
    ∧ rejected acts = [].
Proof.
  apply (publish_loop_ind channel (λ n s out,
    ∃ acts,
      history out.2 = history s ++ acts
      ∧ Forall (λ x, x.1.1 = channel) (sends acts)
      ∧ (∀ i x, sends acts !! i = Some x → x.1.2 = Returned false →
           S i = length (sends acts) ∧ _channelHasRoom out.2 = false)
      ∧ (∀ p w, promises out.2 !! p = Some w →
           promises s !! p = Some w
           ∨ ∃ room, w = Resolved room
                     ∧ (channel, Returned room, p) ∈ sends acts)
      ∧ rejected acts = [])); clear n s.
  - intros s. exists []. simpl. rewrite app_nil_r.
    split_and!; try done. intros p w H. by left.
  - intros n s Hroom. exists []. simpl. rewrite app_nil_r.
    split_and!; try done. intros p w H. by left.
  - intros n s Hroom Hq. exists []. simpl. rewrite app_nil_r.
    split_and!; try done. intros p w H. by left.
  - intros n s m rest err Hroom Hq Hres.
    exists [ChanPublish channel (exchange m) (routingKey m) (content m)
              (options m) (Thrown err) (completion m)].
    simpl. split_and!; try done.
    + by repeat constructor.
    + intros [|i] x; simpl; [|done]. by intros [= <-].
    + intros p w H. by left.
  - intros n s m rest room Hroom Hq Hres (acts & Hh & Hch & Hlast & Hpr & Hrej).
    exists ([ChanPublish channel (exchange m) (routingKey m) (content m)
               (options m) (Returned room) (completion m);
             CallResolve (completion m) room] ++ acts).
    split.
    { rewrite Hh. simpl. by rewrite <-!app_assoc. }
    simpl. split_and!; try done.
    + by constructor.
    + intros [|i] x; simpl.
      * intros [= <-]. simpl. intros [= ->].
        rewrite publish_loop_no_room in Hh |- * by done. simpl in *.
        assert (acts = []) as ->; [|done].
        apply (f_equal length) in Hh. rewrite !length_app in Hh.
        destruct acts; [done|]. simpl in Hh. lia.
      * intros Hx Hres'. destruct (Hlast i x Hx Hres') as [-> ?]. done.
    + intros p w Hp. destruct (Hpr p w Hp) as [Hold|(room' & -> & Hin)].
      * simpl in Hold. unfold settle in Hold.
        destruct (promises s !! completion m) as [[| |]|] eqn:E;
          try (by left).
        destruct (decide (p = completion m)) as [->|Hne].
        -- rewrite list_lookup_insert_eq in Hold
             by (by eapply lookup_lt_Some).
           right. exists room. split; [congruence|]. by left.
        -- rewrite list_lookup_insert_ne in Hold by done. by left.
      * right. exists room'. split; [done|]. by right.
Qed.

(** ** What a transition hands to the channel *)

Lemma _shouldPublish_true s :
  _shouldPublish s = true ↔ _messages s ≠ [] ∧ sends_at_once s.
Proof.
  unfold _shouldPublish, sends_at_once.
  rewrite !andb_true_iff, negb_true_iff, bool_decide_eq_false,
    !bool_decide_eq_true.
  rewrite <-eq_None_not_Some.
  destruct (_messages s); simpl; split; intros; destruct_and?;
    split_and?; try done; try lia.
Qed.

Lemma worker_proceeds_sends_at_once n s :
  worker_proceeds n s → sends_at_once s.
Proof. intros (_ & H & _). by apply _shouldPublish_true in H as [_ ?]. Qed.

Lemma worker_blocked n s :
  ¬ sends_at_once s → _publishExchangeMessages n s = set_working false s.
Proof.
  intros H. apply worker_stops. intros Hp.
  by apply H, (worker_proceeds_sends_at_once n).
Qed.

Lemma _startWorker_blocked s : ¬ sends_at_once s → _startWorker s = s.
Proof.
  intros H. unfold _startWorker.
  destruct (_shouldPublish s) eqn:E; [|by rewrite andb_false_r].
  by apply _shouldPublish_true in E as [_ ?].
Qed.

Lemma sends_between_worker n s :
  sends_between s (_publishExchangeMessages n s).
Proof.
  destruct (decide (worker_proceeds n s)) as [Hgo|Hno].
  2:{ rewrite worker_stops by done. exists [], []. simpl.
      rewrite !app_nil_r. split_and!; try done.
      - intros x Hx. by apply elem_of_nil in Hx.
      - intros p w H. by left. }
  pose proof (worker_proceeds_sends_at_once _ _ Hgo) as (Hsu & Hc & Hroom).
  destruct Hc as [channel Hc].
  rewrite (worker_runs _ _ channel) by done.
  destruct (publish_loop_sends channel MAX_MESSAGES_PER_BATCH s)
    as (acts & Hh & Hch & Hlast & Hpr & Hrej).
  destruct (publish_loop channel MAX_MESSAGES_PER_BATCH s) as [r s1].
  simpl in *. exists (sends acts), [].
  assert (∀ x, x ∈ sends acts → _channel s = Some x.1.1 ∧ _settingUp s = None)
    as Hgate.
  { intros x Hx. rewrite Forall_forall in Hch. rewrite (Hch x Hx). done. }
  assert (∀ p w, promises s1 !! p = Some w → w ≠ Pending →
            promises s !! p = Some w ∨ settled_by (sends acts) [] p w)
    as Hpr'.
  { intros p w Hp _. destruct (Hpr p w Hp) as [?|(room & -> & ?)]; [by left|].
    right. simpl. by exists channel. }
  unfold rejected in *.
  assert (∀ i x, sends acts !! i = Some x → x.1.2 = Returned false →
            S i = length (sends acts) ∧ _channelHasRoom s1 = false) as Hl
    by exact Hlast.
  clear Hlast Hpr.
  destruct r as [err|].
  - unfold emit. simpl. rewrite Hh.
    rewrite sends_snoc, sends_app, !bind_app. simpl.
    rewrite Hrej, !app_nil_r. by split_and!.
  - destruct (_channelHasRoom s1 && bool_decide (0 < length (_messages s1)));
      simpl; rewrite Hh, ?sends_snoc, sends_app, ?bind_app; simpl;
      rewrite Hrej, ?app_nil_r; by split_and!.
Qed.

Lemma sends_between_same (s1 s2 s1' s2' : World) :
  promises s1' = promises s1 →
  _channel s1' = _channel s1 → _settingUp s1' = _settingUp s1 →
  sends (history s1') = sends (history s1) →
  rejected (history s1') = rejected (history s1) →
  sends (history s2') = sends (history s2) →
  rejected (history s2') = rejected (history s2) →
  promises s2' = promises s2 →
  _channelHasRoom s2' = _channelHasRoom s2 →
  sends_between s1 s2 → sends_between s1' s2'.
Proof.
  intros E3 E4 E5 E1 E2 F1 F2 F3 F4 (new & rej & H1 & H2 & H3 & H4 & H5).
  exists new, rej. rewrite E1, E2, E3, E4, E5, F1, F2, F3, F4. by split_and!.
Qed.

Lemma sends_between_refl s : sends_between s s.
Proof.
  exists [], []. rewrite !app_nil_r. split_and!; try done.
  - intros x Hx. by apply elem_of_nil in Hx.
  - intros p w H. by left.
Qed.

Lemma sends_between__startWorker s : sends_between s (_startWorker s).
Proof.
  destruct (_startWorker_cases s) as [->|(_ & _ & -> & _)];
    [apply sends_between_refl|].
  set (s0 := set_workerNumber (S (_workerNumber s)) (set_working true s)).
  apply (sends_between_same s0
           (_publishExchangeMessages (S (_workerNumber s)) s0));
    try reflexivity.
  apply sends_between_worker.
Qed.

Lemma settle_all_inv err ps store p w :
  settle_all err ps store !! p = Some w →
  store !! p = Some w ∨ (w = Rejected err ∧ p ∈ ps).
Proof.
  intros H. destruct (decide (p ∈ ps)) as [Hin|Hout].
  2:{ left. by rewrite settle_all_other in H. }
  destruct (store !! p) as [x|] eqn:E.
  - destruct (decide (x = Pending)) as [->|Hx].
    + rewrite (settle_all_pending err ps store p Hin E) in H.
      right. split; [congruence|done].
    + rewrite (settle_all_settled err ps store p x E Hx) in H. by left.
  - apply lookup_lt_Some in H. rewrite length_settle_all in H.
    apply lookup_ge_None in E. lia.
Qed.

Lemma rejected_snoc h a : rejected (h ++ [a]) = rejected h ++ rejected_of a.
Proof. apply bind_snoc. Qed.

Lemma settle_view_log a s :
  sends_of a = [] → rejected_of a = [] →
  settle_view (log a s) = settle_view s.
Proof.
  intros Hs Hp. unfold settle_view, log. simpl.
  by rewrite sends_snoc, rejected_snoc, Hs, Hp, !app_nil_r.
Qed.

Lemma settle_view_quiet e s :
  quiet e = true → e ≠ CallClose →
  settle_view (step e s) = settle_view s.
Proof.
  intros He Hc. destruct e; try discriminate He; try done;
    cbv beta iota delta [step].
  all: peel settle_view settle_view_log.
Qed.

Lemma sends_between_quiet s s' :
  settle_view s' = settle_view s → sends_between s s'.
Proof.
  intros [= H1 H2 H3]. exists [], []. rewrite !app_nil_r, H3.
  split_and!; try done.
  - intros x Hx. by apply elem_of_nil in Hx.
  - intros p w H. by left.
Qed.

Lemma sends_between_publish ex rk body opts s :
  sends_between s (publish ex rk body opts s).2.
Proof.
  unfold publish, chan_publish, _enqueueMessage. simpl.
  assert (∀ q w, (promises s ++ [Pending]) !! q = Some w → w ≠ Pending →
            promises s !! q = Some w) as Hold.
  { intros q w Hq Hw. apply lookup_app_Some in Hq as [?|[_ Hq]]; [done|].
    destruct (q - length (promises s)); simplify_eq/=. }
  destruct (_settingUp s) eqn:Hsu; simpl.
  2: destruct (_channel s) as [ch|] eqn:Hch; simpl.
  2: destruct (_channelHasRoom s) eqn:Hroom; simpl.
  2: destruct (channel_publish s (history s)) as [room|err] eqn:Hres; simpl.
  2,3: set (p := length (promises s)).
  2:{ exists [(ch, Returned room, p)], []. unfold resolve, log. simpl.
      rewrite !sends_snoc, !rejected_snoc. simpl. rewrite !app_nil_r.
      split_and!; try done.
      - intros x ->%list_elem_of_singleton. done.
      - intros [|i] x; simpl; [|done]. by intros [= <-] [= ->].
      - intros q w Hq Hw.
        destruct (decide (q = p)) as [->|Hne].
        + right. rewrite settle_pending in Hq.
          * simplify_eq. simpl. by exists ch; left.
          * unfold p. by rewrite lookup_app_r, Nat.sub_diag.
        + left. rewrite settle_other in Hq by done. by apply Hold. }
  2:{ exists [(ch, Thrown err, p)], []. unfold log. simpl.
      rewrite !sends_snoc, !rejected_snoc. simpl. rewrite !app_nil_r.
      split_and!; try done.
      - intros x ->%list_elem_of_singleton. done.
      - intros [|i] x; simpl; [|done]. by intros [= <-].
      - intros q w Hq Hw.
        destruct (decide (q = p)) as [->|Hne].
        + right. rewrite settle_pending in Hq.
          * simplify_eq. simpl. left. by exists ch; left.
          * unfold p. by rewrite lookup_app_r, Nat.sub_diag.
        + left. rewrite settle_other in Hq by done. by apply Hold. }
  all: exists [], []; unfold log; simpl;
    rewrite !sends_snoc, !rejected_snoc; simpl;
    rewrite !app_nil_r; (split_and!; try done);
    [ intros x Hx; by apply elem_of_nil in Hx
    | intros q w Hq Hw; left; by apply Hold ].
Qed.

Lemma sends_between_close s : sends_between s (close s).
Proof.
  destruct (close_spec s) as (Hh & Hp & _).
  exists [], ((λ m, (completion m, channel_closed)) <$> _messages s).
  rewrite Hh, Hp.
  assert (∀ msgs : list Message,
    sends ((λ m, CallReject (completion m) channel_closed) <$> msgs) = []
    ∧ rejected ((λ m, CallReject (completion m) channel_closed) <$> msgs)
      = (λ m, (completion m, channel_closed)) <$> msgs) as Hnil.
  { unfold sends, rejected.
    induction msgs as [|m msgs [IH1 IH2]]; [done|].
    rewrite !fmap_cons, !bind_cons, IH1, IH2. done. }
  destruct (Hnil (_messages s)) as [Hs Hr].
  rewrite !sends_app, !rejected_app, Hs, Hr.
  split_and!.
  - destruct (_channel s); simpl; by rewrite !app_nil_r.
  - destruct (_channel s); simpl; by rewrite !app_nil_r.
  - intros x Hx. by apply elem_of_nil in Hx.
  - done.
  - intros p w Hq Hw.
    apply settle_all_inv in Hq as [?|[-> Hin]]; [by left|].
    right. simpl. right. split; [|done].
    apply list_elem_of_fmap in Hin as (m & -> & Hm).
    apply list_elem_of_fmap. by exists m.
Qed.

Lemma sends_between_step e s : sends_between s (step e s).
Proof.
  destruct e;
    try (apply sends_between_quiet, settle_view_quiet;
         [reflexivity|discriminate]);
    cbv beta iota delta [step].
  - apply sends_between_publish.
  - apply sends_between_close.
  - repeat case_match; try apply sends_between_refl.
    unfold _onConnect_resume. case_match; simpl in *.
    + set (s0 := set_phase a Done s).
      apply (sends_between_same s0 (_startWorker s0)); try reflexivity;
        try (unfold emit, log; simpl;
             by rewrite ?sends_snoc, ?rejected_snoc, app_nil_r).
      apply sends_between__startWorker.
    + by apply sends_between_quiet.
  - case_bool_decide; [|apply sends_between_refl].
    unfold _onChannelDrain. set (s0 := set_channelHasRoom true s).
    apply (sends_between_same s0 (_startWorker s0)); try reflexivity.
    apply sends_between__startWorker.
  - destruct (immediates s) as [|n rest]; [apply sends_between_refl|].
    set (s0 := set_immediates rest s).
    apply (sends_between_same s0 (_publishExchangeMessages n s0));
      try reflexivity.
    apply sends_between_worker.
Qed.

(** ** A wrapper that cannot send *)

(** Peel field updates a projection cannot see, and read the ones it
    can. *)
Ltac peel_field V :=
  cbv zeta;
  repeat first
    [ rewrite (foldl_view V); [|intros]
    | match goal with
      | |- context [V (?f ?v ?s)] =>
          first [ progress change (V (f v s)) with (V s)
                | progress change (V (f v s)) with v ]
      end
    | case_match
    | case_bool_decide
    | progress (unfold_ops; cbv zeta) ];
  try reflexivity.

Lemma room_quiet e s :
  quiet e = true → refills e = false →
  _channelHasRoom (step e s) = _channelHasRoom s.
Proof.
  intros He Hr. destruct e; try discriminate He; try discriminate Hr;
    cbv beta iota delta [step].
  1:{ unfold close, cm_removeListener, reject.
      peel_field _channelHasRoom. }
  all: peel_field _channelHasRoom.
Qed.

Lemma gate_quiet e s :
  quiet e = true → unblocks e = false →
  _channel (step e s) = None ∨ is_Some (_settingUp (step e s))
  ∨ gate_view (step e s) = gate_view s.
Proof.
  intros He Hu. destruct e; try discriminate He; try discriminate Hu;
    cbv beta iota delta [step].
  1:{ left. by destruct (close_spec s) as (_ & _ & _ & _ & -> & _). }
  all: unfold gate_view; peel_field _channel; peel_field _settingUp;
    peel_field _channelHasRoom;
    first [ assumption
          | left; reflexivity
          | right; left; eexists; reflexivity
          | right; right; congruence ].
Qed.

Lemma sends_at_once_gate s s' :
  gate_view s' = gate_view s → sends_at_once s' → sends_at_once s.
Proof. unfold sends_at_once. intros [= -> -> ->]. done. Qed.

Lemma blocked_quiet e s :
  quiet e = true → unblocks e = false →
  ¬ sends_at_once s → ¬ sends_at_once (step e s).
Proof.
  intros He Hu Hs.
  destruct (gate_quiet e s He Hu) as [H|[H|H]]; intros (H1 & H2 & H3).
  - rewrite H in H2. by destruct H2.
  - rewrite H1 in H. by destruct H.
  - apply Hs. by apply (sends_at_once_gate _ _ H).
Qed.

Lemma length_promises_quiet e s :
  quiet e = true → length (promises (step e s)) = length (promises s).
Proof.
  intros He. destruct e; try discriminate He.
  1:{ cbv beta iota delta [step].
      destruct (close_spec s) as (_ & -> & _). apply length_settle_all. }
  all: match goal with
       | |- context [step ?e ?s] =>
           pose proof (settle_view_quiet e s He ltac:(discriminate))
             as [= _ _ H]; exact (f_equal length H)
       end.
Qed.

Lemma blocked_step e s :
  ¬ sends_at_once s → unblocks e = false →
  let s' := step e s in
  sends (history s') = sends (history s)
  ∧ ¬ sends_at_once s'
  ∧ completion <$> _messages s' =
      (completion <$> _messages s)
      ++ (if calls_publish e then [length (promises s)] else [])
  ∧ length (promises s') =
      length (promises s) + (if calls_publish e then 1 else 0)
  ∧ (refills e = false → _channelHasRoom s' = _channelHasRoom s).
Proof.
  intros Hs Hu s'. subst s'.
  destruct (quiet e) eqn:He.
  { pose proof (worker_view_quiet e s He) as [= H1 _ H3 _ _].
    rewrite H1, H3, length_promises_quiet by done.
    split_and!; [done|by apply blocked_quiet| | |by apply room_quiet].
    - destruct e; try discriminate He; simpl; by rewrite app_nil_r.
    - destruct e; try discriminate He; simpl; lia. }
  destruct e; try discriminate He; try discriminate Hu;
    cbv beta iota delta [step].
  - (* publish *)
    unfold publish, chan_publish, _enqueueMessage, sends_at_once in *.
    simpl.
    destruct (_settingUp s) eqn:Hsu, (_channel s) eqn:Hch,
      (_channelHasRoom s) eqn:Hroom; simpl;
      try (destruct Hs; by split_and!);
      unfold log; simpl; rewrite sends_snoc, fmap_app, length_app; simpl;
      rewrite app_nil_r; (split_and!; try done);
      rewrite ?Hsu, ?Hch, ?Hroom; exact Hs.
  - (* the end of [_onConnect] *)
    destruct (connects s !! a) as [[]|]; simpl;
      try (split_and!; [done|done|by rewrite app_nil_r|lia|done]).
    unfold _onConnect_resume.
    rewrite _startWorker_blocked by exact Hs.
    destruct (_channel (set_phase a Done s)); unfold emit, log; simpl;
      rewrite ?sends_snoc; simpl; rewrite ?app_nil_r;
      (split_and!; [done|exact Hs|done|lia|done]).
  - (* a turn of the worker *)
    destruct (immediates s) as [|n rest]; simpl.
    { split_and!; [done|done|by rewrite app_nil_r|lia|done]. }
    rewrite worker_blocked by exact Hs. simpl. rewrite app_nil_r.
    split_and!; [done|exact Hs|done|lia|done].
Qed.

Lemma room_step e s :
  _channelHasRoom s = false → refills e = false →
  sends (history (step e s)) = sends (history s)
  ∧ _channelHasRoom (step e s) = false.
Proof.
  intros Hroom Hr.
  destruct (quiet e) eqn:He.
  { pose proof (worker_view_quiet e s He) as [= H1 _ _ _ _].
    by rewrite H1, room_quiet. }
  assert (¬ sends_at_once s) as Hs.
  { intros (_ & _ & ?). congruence. }
  assert (unblocks e = false) as Hu.
  { destruct e; try discriminate He; try discriminate Hr; done. }
  destruct (blocked_step e s Hs Hu) as (H1 & _ & _ & _ & H5).
  by rewrite H1, H5.
Qed.

Lemma publish_calls_snoc evs e :
  publish_calls (evs ++ [e])
  = publish_calls evs + (if calls_publish e then 1 else 0).
Proof.
  unfold publish_calls. rewrite filter_app, length_app.
  destruct (calls_publish e) eqn:E.
  - by rewrite filter_cons_True.
  - rewrite filter_cons_False; [done|]. by rewrite E.
Qed.

Lemma sends_since s s' :
  history s `prefix_of` history s' →
  sends (history s') = sends (history s) ++ sends (actions_since s s').
Proof. intros H. by rewrite (history_since s s' H) at 1; rewrite sends_app. Qed.

Lemma sends_since_eq s s' new :
  history s `prefix_of` history s' →
  sends (history s') = sends (history s) ++ new →
  sends (actions_since s s') = new.
Proof.
  intros H Hnew. rewrite (sends_since s s' H) in Hnew.
  by apply app_inv_head in Hnew.
Qed.

Lemma elem_of_sends ch ex rk body opts res p h :
  ChanPublish ch ex rk body opts res p ∈ h → (ch, res, p) ∈ sends h.
Proof.
  intros H. unfold sends. apply list_elem_of_bind.
  eexists. split; [|exact H]. simpl. by left.
Qed.

(** X1: whatever makes the wrapper call [channel.publish] ([publish]
    itself, a turn of the worker, the end of [_onConnect] or a ['drain']
    event), the call goes to the channel the wrapper holds at that
    moment, and the field [_settingUp] is unset then: nothing is
    published on a channel the wrapper has dropped, nor while the setup
    chain the field points to is pending. *)
Theorem sends_use_the_current_channel (e : Event) (s : World)
    (ch : Channel) (ex rk : string) (body : Buffer)
    (opts : option PublishOptions) (res : PublishResult) (p : nat) :
  ChanPublish ch ex rk body opts res p ∈ actions_since s (step e s) →
  _channel s = Some ch ∧ _settingUp s = None.
Proof.
  intros Hin. apply elem_of_sends in Hin.
  destruct (sends_between_step e s) as (new & rej & Hnew & _ & Hgate & _).
  apply sends_since_eq in Hnew; [|apply history_step].
  rewrite Hnew in Hin. by apply Hgate in Hin.
Qed.

(** X2: a wrapper that cannot send at once (it holds no channel, or a
    setup is running, or the channel has reported that it is full) hands
    nothing to a channel, and stays unable to send, whatever happens
    except the end of a setup chain or a ['drain'] event; meanwhile every
    [publish] call is queued, in call order, under the promise it
    returned. *)
Theorem blocked_wrapper_queues_every_message (s : World)
    (evs : list Event) :
  ¬ sends_at_once s →
  Forall (λ e, unblocks e = false) evs →
  let s' := run evs s in
  ¬ sends_at_once s'
  ∧ sent (actions_since s s') = []
  ∧ completion <$> _messages s' =
      (completion <$> _messages s)
      ++ seq (length (promises s)) (publish_calls evs)
  ∧ length (promises s') = length (promises s) + publish_calls evs.
Proof.
  intros Hs Hevs s'. subst s'.
  assert (¬ sends_at_once (run evs s)
          ∧ sends (history (run evs s)) = sends (history s)
          ∧ completion <$> _messages (run evs s) =
              (completion <$> _messages s)
              ++ seq (length (promises s)) (publish_calls evs)
          ∧ length (promises (run evs s)) =
              length (promises s) + publish_calls evs) as (H1 & H2 & H3 & H4).
  { induction evs as [|e evs IH] using rev_ind.
    { simpl. rewrite app_nil_r. split_and!; done. }
    apply Forall_app in Hevs as [Hevs He].
    rewrite Forall_singleton in He.
    destruct (IH Hevs) as (H1 & H2 & H3 & H4).
    rewrite run_snoc, publish_calls_snoc.
    destruct (blocked_step e (run evs s) H1 He) as (G1 & G2 & G3 & G4 & _).
    rewrite G1, G3, G4, H2, H3, H4. split_and!; [done|done| |lia].
    rewrite <-app_assoc. f_equal.
    destruct (calls_publish e); [|by rewrite Nat.add_0_r, app_nil_r].
    by rewrite seq_app. }
  split_and!; try done.
  rewrite sent_sends. rewrite (sends_since_eq s (run evs s) []); [done| |].
  - apply history_run.
  - by rewrite app_nil_r.
Qed.

(** X3: back-pressure.  Once [channel.publish] has answered [false], the
    wrapper makes no further [channel.publish] call, and keeps
    [_channelHasRoom] false, until a ['drain'] event arrives or a new
    channel is created. *)
Theorem full_channel_is_left_alone (s : World) (evs : list Event)
    (i : nat) :
  Forall (λ e, refills e = false) evs →
  let s' := run evs s in
  results (actions_since s s') !! i = Some (Returned false) →
  S i = length (results (actions_since s s'))
  ∧ _channelHasRoom s' = false.
Proof.
  intros Hevs s'. subst s'. rewrite results_sends, length_fmap.
  rewrite list_lookup_fmap.
  destruct (sends (actions_since s (run evs s)) !! i) as [x|] eqn:Hx;
    [|done].
  simpl. intros [= Hres]. revert i x Hx Hres.
  induction evs as [|e evs IH] using rev_ind.
  { intros i x. unfold actions_since. simpl. by rewrite drop_all. }
  apply Forall_app in Hevs as [Hevs He]. rewrite Forall_singleton in He.
  specialize (IH Hevs). rewrite run_snoc.
  pose proof (sends_since s (run evs s) (history_run evs s)) as Hold.
  set (s1 := run evs s) in *.
  destruct (sends_between_step e s1) as (new & rej & Hnew & _ & _ & Hl & _).
  assert (sends (actions_since s (step e s1))
          = sends (actions_since s s1) ++ new) as ->.
  { apply sends_since_eq.
    - etrans; [apply history_run|apply history_step].
    - by rewrite Hnew, Hold, app_assoc. }
  intros i x Hx Hres.
  apply lookup_app_Some in Hx as [Hx|[Hge Hx]].
  - destruct (IH i x Hx Hres) as [Hlen Hroom].
    destruct (room_step e s1 Hroom He) as [Hsame Hroom'].
    rewrite Hsame in Hnew.
    assert (new = []) as ->.
    { apply (app_inv_head (sends (history s1))). by rewrite app_nil_r. }
    by rewrite app_nil_r.
  - destruct (Hl _ x Hx Hres) as [Hlen Hroom].
    split; [|done]. rewrite length_app. lia.
Qed.

Lemma sends_use_the_current_channel_witness :
  _channel backlog = Some 0 ∧ _settingUp backlog = None.
Proof.
  apply (sends_use_the_current_channel (Resume 0) backlog 0
           "amq.topic" "order.new" "payload" (Some []) (Returned true) 0).
  apply (list_elem_of_lookup_2 _ 0). vm_compute. reflexivity.
Defined.

Lemma blocked_wrapper_queues_every_message_witness :
  let s' := run (publishes 2 ++ [CmConnect; CreateChannelOk 0]
                 ++ publishes 1 ++ [SetupsSettled 0]) fresh in
  ¬ sends_at_once s'
  ∧ sent (actions_since fresh s') = []
  ∧ completion <$> _messages s' = [0; 1; 2]
  ∧ length (promises s') = 3.
Proof.
  apply (blocked_wrapper_queues_every_message fresh
           (publishes 2 ++ [CmConnect; CreateChannelOk 0]
            ++ publishes 1 ++ [SetupsSettled 0])).
  - computed.
  - computed.
Defined.

Lemma full_channel_is_left_alone_witness :
  let s' := run (publishes 3 ++ [Resume 0; Immediate; CmConnect])
              online_congested in
  1 = length (results (actions_since online_congested s'))
  ∧ _channelHasRoom s' = false.
Proof.
  apply (full_channel_is_left_alone online_congested
           (publishes 3 ++ [Resume 0; Immediate; CmConnect]) 0).
  - computed.
  - vm_compute. reflexivity.
Defined.

(** ** Promises and the channel's answers *)

Lemma settled_sound_step e s : settled_sound s → settled_sound (step e s).
Proof.
  intros Hinv p w Hp.
  destruct (decide (w = Pending)) as [->|Hw]; [done|].
  destruct (sends_between_step e s) as (new & rej & -> & -> & _ & _ & Hpr).
  destruct (Hpr p w Hp Hw) as [Hold|Hnew].
  - by apply settled_by_app_l, Hinv.
  - by apply settled_by_app_r.
Qed.

Lemma settled_sound_new connected nm setup oracle :
  settled_sound (new_ChannelWrapper connected nm setup oracle).
Proof. intros p w. by destruct connected, setup. Qed.

Lemma settled_sound_run evs s : settled_sound s → settled_sound (run evs s).
Proof.
  intros Hinv. induction evs as [|e evs IH] using rev_ind; [done|].
  rewrite run_snoc. by apply settled_sound_step.
Qed.

Lemma elem_of_sends_inv ch res p h :
  (ch, res, p) ∈ sends h →
  ∃ ex rk body opts, ChanPublish ch ex rk body opts res p ∈ h.
Proof.
  unfold sends. intros (a & Ha & Hin)%list_elem_of_bind.
  destruct a; simpl in Ha; try by apply elem_of_nil in Ha.
  apply list_elem_of_singleton in Ha as [= -> -> ->]. eauto.
Qed.

Lemma elem_of_rejected_inv p err h :
  (p, err) ∈ rejected h → CallReject p err ∈ h.
Proof.
  unfold rejected. intros (a & Ha & Hin)%list_elem_of_bind.
  destruct a; simpl in Ha; try by apply elem_of_nil in Ha.
  by apply list_elem_of_singleton in Ha as [= -> ->].
Qed.

(** X4: what a settled publish promise means.  In every state the
    wrapper can reach, a promise resolved with [room] belongs to a
    message that was handed to [channel.publish], which answered [room];
    a rejected promise carries what [channel.publish] threw for its
    message, or it was rejected by [close] with "Channel closed". *)
Theorem settled_promise_reports_the_channel (connected : bool)
    (nm : option string) (setup : option SetupFunc)
    (oracle : list Action → PublishResult) (evs : list Event) (p : nat) :
  let s := run evs (new_ChannelWrapper connected nm setup oracle) in
  (∀ room, promises s !! p = Some (Resolved room) →
     ∃ ch ex rk body opts,
       ChanPublish ch ex rk body opts (Returned room) p ∈ history s)
  ∧ (∀ err, promises s !! p = Some (Rejected err) →
       (∃ ch ex rk body opts,
          ChanPublish ch ex rk body opts (Thrown err) p ∈ history s)
       ∨ (err = channel_closed ∧ CallReject p err ∈ history s)).
Proof.
  intros s.
  assert (settled_sound s) as Hinv
    by apply settled_sound_run, settled_sound_new.
  split.
  - intros room Hp. destruct (Hinv p _ Hp) as [ch Hin].
    exists ch. by apply elem_of_sends_inv.
  - intros err Hp. destruct (Hinv p _ Hp) as [[ch Hin]|[Hin ->]].
    + left. exists ch. by apply elem_of_sends_inv.
    + right. split; [done|]. by apply elem_of_rejected_inv.
Qed.

Lemma settled_promise_reports_the_channel_witness :
  ∃ ch ex rk body opts,
    ChanPublish ch ex rk body opts (Returned true) 1 ∈ history flushed.
Proof.
  apply (proj1 (settled_promise_reports_the_channel false (Some "orders")
                  None always_room (publishes 2 ++ connect_events 0) 1)
           true).
  vm_compute. reflexivity.
Defined.

(** ** No message is lost or duplicated *)

Lemma length_promises_worker n s :
  length (promises (_publishExchangeMessages n s)) = length (promises s).
Proof.
  destruct (worker_spec n s) as (acts & _ & _ & _ & _ & _ & _ & _ & _ & _ & H).
  unfold same_control in H. by destruct_and!.
Qed.

Lemma length_promises__startWorker s :
  length (promises (_startWorker s)) = length (promises s).
Proof.
  destruct (_startWorker_cases s) as [->|(_ & _ & -> & _)]; [done|].
  by rewrite length_promises_worker.
Qed.

Lemma length_promises_step e s :
  length (promises (step e s))
  = length (promises s) + (if calls_publish e then 1 else 0).
Proof.
  destruct (quiet e) eqn:He.
  { rewrite length_promises_quiet by done.
    destruct e; try discriminate He; simpl; lia. }
  destruct e; try discriminate He; cbv beta iota delta [step]; simpl.
  - unfold publish, chan_publish, _enqueueMessage.
    repeat case_match; simplify_eq/=;
      rewrite ?length_settle, length_app; simpl; lia.
  - rewrite Nat.add_0_r. repeat case_match; try done.
    unfold _onConnect_resume. case_match; [|done].
    unfold emit, log. simpl. by rewrite length_promises__startWorker.
  - rewrite Nat.add_0_r. case_bool_decide; [|done].
    unfold _onChannelDrain. by rewrite length_promises__startWorker.
  - rewrite Nat.add_0_r. destruct (immediates s); [done|].
    by rewrite length_promises_worker.
Qed.

Lemma pushed_app h1 h2 : pushed (h1 ++ h2) = pushed h1 ++ pushed h2.
Proof. apply bind_app. Qed.
Lemma sent_app h1 h2 : sent (h1 ++ h2) = sent h1 ++ sent h2.
Proof. apply bind_app. Qed.

Lemma covered_step e s : covered s → covered (step e s).
Proof.
  intros Hinv p Hp. rewrite length_promises_step in Hp.
  destruct (history_step e s) as [acts Hacts].
  destruct (decide (p < length (promises s))) as [Hold|Hnew].
  { rewrite Hacts, pushed_app, sent_app, !elem_of_app.
    destruct (Hinv p Hold); tauto. }
  destruct e; simpl in Hp; try lia.
  assert (p = length (promises s)) as -> by lia.
  cbv beta iota delta [step].
  unfold publish, chan_publish, _enqueueMessage.
  repeat case_match; simplify_eq/=; unfold log, resolve, log; simpl;
    rewrite ?pushed_snoc, ?sent_snoc; simpl;
    rewrite ?elem_of_app, ?list_elem_of_singleton; tauto.
Qed.

Lemma covered_new connected nm setup oracle :
  covered (new_ChannelWrapper connected nm setup oracle).
Proof. intros p. destruct connected, setup; simpl; lia. Qed.

Lemma covered_run evs s : covered s → covered (run evs s).
Proof.
  intros Hinv. induction evs as [|e evs IH] using rev_ind; [done|].
  rewrite run_snoc. by apply covered_step.
Qed.

(** X5: no message is lost and none is duplicated.  In every state the
    wrapper can reach, each promise [publish] has returned belongs to a
    message that is either waiting in the queue or was handed to a
    channel, never both; and no message is in the queue twice or was
    handed over twice. *)
Theorem message_is_queued_or_handed_over (connected : bool)
    (nm : option string) (setup : option SetupFunc)
    (oracle : list Action → PublishResult) (evs : list Event) :
  let s := run evs (new_ChannelWrapper connected nm setup oracle) in
  NoDup (completion <$> _messages s)
  ∧ NoDup (sent (history s))
  ∧ ∀ p, p < length (promises s) →
      (p ∈ completion <$> _messages s ∧ p ∉ sent (history s))
      ∨ (p ∈ sent (history s) ∧ p ∉ completion <$> _messages s).
Proof.
  intros s.
  assert (fifo_inv s) as Hfifo by apply fifo_inv_run, fifo_inv_new.
  assert (covered s) as Hcov by apply covered_run, covered_new.
  split; [by apply fifo_inv_queue_NoDup|].
  split; [by destruct Hfifo as (_ & _ & ? & _)|].
  intros p Hp.
  assert (∀ q, q ∈ completion <$> _messages s → q ∉ sent (history s))
    as Hunsent.
  { intros q (m & -> & Hm)%list_elem_of_fmap.
    by apply fifo_inv_queue_unsent. }
  destruct (decide (p ∈ sent (history s))) as [Hs|Hs].
  - right. split; [done|]. intros Hq. by apply (Hunsent p).
  - left. split; [|done].
    destruct (Hcov p Hp) as [Hpu|?]; [|done].
    destruct Hfifo as (Heq & _). rewrite <-Heq in Hpu.
    apply elem_of_app in Hpu as [Hf|?]; [|done].
    by apply list_elem_of_filter in Hf as [_ ?].
Qed.

Lemma message_is_queued_or_handed_over_witness :
  (3 ∈ completion <$> _messages two_workers
   ∧ 3 ∉ sent (history two_workers))
  ∨ (3 ∈ sent (history two_workers)
     ∧ 3 ∉ completion <$> _messages two_workers).
Proof.
  apply (proj2 (proj2 (message_is_queued_or_handed_over false
                         (Some "orders") None always_room
                         (publishes 2001 ++ connect_events 0
                          ++ [CmDisconnect] ++ connect_events 1))) 3).
  vm_compute. lia.
Defined.

(** ** The worker flag *)

Lemma working_quiet e s :
  quiet e = true →
  _working (step e s) = _working s ∨ _working (step e s) = false.
Proof.
  intros He. destruct e; try discriminate He; cbv beta iota delta [step].
  1:{ right. by destruct (close_spec s) as (_ & _ & _ & _ & _ & -> & _). }
  all: peel_field _working;
    first [ left; reflexivity | right; reflexivity ].
Qed.

Lemma worker_inv_worker n rest s :
  worker_inv s → immediates s = n :: rest →
  worker_inv (_publishExchangeMessages n (set_immediates rest s)).
Proof.
  intros (Hw & Hnd & Hle) Him. rewrite Him in *.
  apply NoDup_cons in Hnd as [Hn Hnd].
  apply Forall_cons in Hle as [Hn' Hle].
  destruct (worker_spec n (set_immediates rest s))
    as (acts & _ & _ & _ & _ & _ & _ & _ & Hcase & _ & Hsame).
  assert (_workerNumber (_publishExchangeMessages n (set_immediates rest s))
          = _workerNumber s) as Hwn.
  { unfold same_control in Hsame. by destruct_and!. }
  unfold worker_inv. rewrite Hwn.
  destruct Hcase as [(_ & -> & ->)|(_ & -> & -> & Hgo & _)]; simpl.
  - by split_and!.
  - destruct Hgo as (_ & _ & _ & ->). simpl in *. split_and!.
    + intros _. apply elem_of_app. right. by left.
    + apply NoDup_app. split_and!; [done| |apply NoDup_singleton].
      by intros x Hx ->%list_elem_of_singleton.
    + apply Forall_app. split; [done|]. by apply Forall_singleton.
Qed.

Lemma worker_inv__startWorker s : worker_inv s → worker_inv (_startWorker s).
Proof.
  intros (Hw & Hnd & Hle).
  destruct (_startWorker_cases s) as [->|(Hidle & _ & -> & _)]; [done|].
  set (s0 := set_workerNumber (S (_workerNumber s)) (set_working true s)).
  destruct (worker_spec (S (_workerNumber s)) s0)
    as (acts & _ & _ & _ & _ & _ & _ & _ & Hcase & _ & Hsame).
  assert (_workerNumber (_publishExchangeMessages (S (_workerNumber s)) s0)
          = S (_workerNumber s)) as Hwn.
  { unfold same_control in Hsame. by destruct_and!. }
  unfold worker_inv. rewrite Hwn.
  assert (Forall (λ n, n ≤ S (_workerNumber s)) (immediates s)) as Hle'.
  { eapply Forall_impl; [exact Hle|]. simpl. lia. }
  destruct Hcase as [(_ & -> & ->)|(_ & -> & -> & _)]; simpl.
  - by split_and!.
  - split_and!.
    + intros _. apply elem_of_app. right. by left.
    + apply NoDup_app. split_and!; [done| |apply NoDup_singleton].
      intros x Hx ->%list_elem_of_singleton.
      rewrite Forall_forall in Hle. apply Hle in Hx. lia.
    + apply Forall_app. split; [done|]. by apply Forall_singleton.
Qed.

Lemma worker_inv_same s s' :
  immediates s' = immediates s → _workerNumber s' = _workerNumber s →
  (_working s' = _working s ∨ _working s' = false) →
  worker_inv s → worker_inv s'.
Proof.
  unfold worker_inv. intros -> -> Hw (H1 & H2 & H3).
  split_and!; try done. intros H. apply H1. destruct Hw; congruence.
Qed.

Lemma worker_inv_step e s : worker_inv s → worker_inv (step e s).
Proof.
  intros Hinv.
  destruct (quiet e) eqn:He.
  { pose proof (worker_view_quiet e s He) as [= _ _ _ H4 H5].
    apply (worker_inv_same s); try done. by apply working_quiet. }
  destruct e; try discriminate He; cbv beta iota delta [step].
  - revert Hinv. apply worker_inv_same;
      unfold publish, chan_publish, _enqueueMessage;
      repeat case_match; simplify_eq/=; auto.
  - repeat case_match; try done.
    unfold _onConnect_resume. case_match; [|done].
    apply (worker_inv_same (_startWorker (set_phase a Done s)));
      [done|done|by left|].
    by apply worker_inv__startWorker.
  - case_bool_decide; [|done]. unfold _onChannelDrain.
    by apply worker_inv__startWorker.
  - destruct (immediates s) as [|n rest] eqn:Him; [done|].
    by apply worker_inv_worker.
Qed.

Lemma worker_inv_new connected nm setup oracle :
  worker_inv (new_ChannelWrapper connected nm setup oracle).
Proof.
  destruct connected, setup; unfold worker_inv; simpl;
    (split_and!; [done|apply NoDup_nil_2|apply Forall_nil_2]).
Qed.

Lemma worker_inv_run evs s : worker_inv s → worker_inv (run evs s).
Proof.
  intros Hinv. induction evs as [|e evs IH] using rev_ind; [done|].
  rewrite run_snoc. by apply worker_inv_step.
Qed.

(** X6: the worker flag is never left set with nobody to clear it.  In
    every state the wrapper can reach, [_working] being set means that a
    turn of the current worker is waiting in the [setImmediate] queue;
    no worker has two turns waiting, so at most one waiting turn carries
    the current worker number. *)
Theorem working_flag_has_a_turn_scheduled (connected : bool)
    (nm : option string) (setup : option SetupFunc)
    (oracle : list Action → PublishResult) (evs : list Event) :
  let s := run evs (new_ChannelWrapper connected nm setup oracle) in
  (_working s = true → _workerNumber s ∈ immediates s)
  ∧ NoDup (immediates s)
  ∧ (∀ n, n ∈ immediates s → n ≤ _workerNumber s).
Proof.
  intros s.
  assert (worker_inv s) as (H1 & H2 & H3)
    by apply worker_inv_run, worker_inv_new.
  split_and!; try done. by apply Forall_forall.
Qed.

Lemma working_flag_has_a_turn_scheduled_witness :
  _workerNumber two_workers ∈ immediates two_workers.
Proof.
  apply (proj1 (working_flag_has_a_turn_scheduled false (Some "orders") None
                  always_room
                  (publishes 2001 ++ connect_events 0 ++ [CmDisconnect]
                   ++ connect_events 1))).
  vm_compute. reflexivity.
Defined.

(** ** The queue drains *)

Lemma same_link_refl s : same_link s s.
Proof. by repeat split. Qed.

Lemma same_link_trans s1 s2 s3 :
  same_link s1 s2 → same_link s2 s3 → same_link s1 s3.
Proof.
  unfold same_link. intros H1 H2. destruct_and!. split_and!; congruence.
Qed.

Lemma same_link_after_send channel m rest room s :
  same_link s (after_send channel m rest room s).
Proof. unfold same_link. simpl. rewrite length_settle. by split_and!. Qed.

Lemma settled_stable_after_send channel m rest room s :
  settled_stable s (after_send channel m rest room s).
Proof. intros q w Hq Hw. simpl. by apply settle_settled. Qed.

Lemma hands_over_none k s :
  _channelHasRoom s = true → take k (_messages s) = [] →
  drop k (_messages s) = _messages s → hands_over k s s.
Proof.
  intros Hroom Ht Hd. unfold hands_over. rewrite Ht, Hd, app_nil_r.
  refine (conj eq_refl (conj Hroom (conj eq_refl
           (conj (same_link_refl s) (conj (settled_stable_refl s)
              (conj _ _)))))).
  - by intros m Hm%elem_of_nil.
  - intros p w H. by left.
Qed.

Lemma accepts_now s :
  accepts s → channel_publish s (history s) = Returned true.
Proof. intros H. specialize (H []). by rewrite app_nil_r in H. Qed.

Lemma accepts_later s s' :
  accepts s → history s `prefix_of` history s' →
  channel_publish s' = channel_publish s → accepts s'.
Proof.
  intros H [k Hk] Hpub acts. by rewrite Hpub, Hk, <-app_assoc.
Qed.

Lemma publish_loop_accepting channel n s :
  accepts s → _channelHasRoom s = true →
  ∃ s', publish_loop channel n s = (None, s')
        ∧ hands_over n s s'
        ∧ _working s' = _working s ∧ immediates s' = immediates s.
Proof.
  revert s. induction n as [|n IH]; intros s Hor Hroom.
  { exists s. simpl. split; [done|]. split; [|done].
    by apply hands_over_none. }
  destruct (_messages s) as [|m rest] eqn:Hq.
  { exists s. simpl. rewrite Hroom, Hq. simpl. split; [done|].
    split; [|done]. apply hands_over_none; by rewrite ?Hq. }
  rewrite (publish_loop_send channel n s m rest true Hroom Hq
             (accepts_now s Hor)).
  destruct (IH (after_send channel m rest true s))
    as (s' & Hs' & (Hd & Hr & Hsent & Hsame & Hst & Hres & Hinv) & Hw & Him);
    [|done|].
  { apply (accepts_later s); [done| |done]. simpl.
    rewrite <-app_assoc. by apply prefix_app_r. }
  exists s'. split; [done|]. split; [|by rewrite Hw, Him].
  unfold hands_over. rewrite Hq. simpl in *.
  split_and!; try done.
  - rewrite Hsent, sent_snoc, sent_snoc. simpl.
    by rewrite app_nil_r, <-app_assoc.
  - eapply same_link_trans; [apply same_link_after_send|exact Hsame].
  - eapply settled_stable_trans; [apply settled_stable_after_send|].
    exact Hst.
  - intros m' Hm' Hpend.
    destruct (decide (completion m' = completion m)) as [Heq|Hne].
    + apply Hst; [|done]. rewrite Heq in *. by apply settle_pending.
    + apply elem_of_cons in Hm' as [->|Hm']; [done|].
      apply Hres; [done|]. by rewrite settle_other.
  - intros p w Hp. destruct (Hinv p w Hp) as [Hold|?]; [|by right].
    unfold settle in Hold.
    destruct (promises s !! completion m) as [[| |]|] eqn:E; try (by left).
    destruct (decide (p = completion m)) as [->|Hne].
    + rewrite list_lookup_insert_eq in Hold by (by eapply lookup_lt_Some).
      right. congruence.
    + rewrite list_lookup_insert_ne in Hold by done. by left.
Qed.

Lemma batch_positive : 0 < MAX_MESSAGES_PER_BATCH.
Proof.
  assert (MAX_MESSAGES_PER_BATCH = S 999) as -> by (by vm_compute). lia.
Qed.

(** One turn on an accepting channel: a batch is handed over; the turn
    re-schedules itself exactly if messages are left. *)
Lemma worker_turn_accepting n s :
  accepts s → worker_proceeds n s →
  let s' := _publishExchangeMessages n s in
  hands_over MAX_MESSAGES_PER_BATCH s s'
  ∧ (MAX_MESSAGES_PER_BATCH < length (_messages s) →
       _working s' = true ∧ immediates s' = immediates s ++ [n])
  ∧ (length (_messages s) ≤ MAX_MESSAGES_PER_BATCH →
       _working s' = false ∧ immediates s' = immediates s).
Proof.
  intros Hor Hgo s'. subst s'.
  pose proof (worker_proceeds_sends_at_once _ _ Hgo) as (_ & [ch Hch] & Hroom).
  rewrite (worker_runs n s ch Hgo Hch).
  destruct (publish_loop_accepting ch MAX_MESSAGES_PER_BATCH s Hor Hroom)
    as (s1 & -> & Hover & Hw & Him).
  pose proof Hover as (Hd & Hr & _).
  rewrite Hr. simpl.
  assert (length (_messages s1)
          = length (_messages s) - MAX_MESSAGES_PER_BATCH) as Hlen
    by (by rewrite Hd, length_drop).
  destruct Hover as (H1 & H2 & H3 & H4 & H5 & H6 & H7).
  case_bool_decide as Hleft.
  - split; [|split; [intros _|intros ?; lia]].
    + unfold hands_over. simpl. rewrite sent_snoc. simpl.
      rewrite app_nil_r. by split_and!.
    + simpl. rewrite Him, Hw. split; [|done].
      by destruct Hgo as (_ & _ & -> & _).
  - split; [|split; [intros ?; lia|intros _; by rewrite <-Him]].
    unfold hands_over. simpl. by split_and!.
Qed.

Lemma run_cons e evs s : run (e :: evs) s = run evs (step e s).
Proof. reflexivity. Qed.

Lemma step_Immediate n rest s :
  immediates s = n :: rest →
  step Immediate s = _publishExchangeMessages n (set_immediates rest s).
Proof. intros H. simpl. by rewrite H. Qed.

Lemma run_idle k s :
  immediates s = [] → run (replicate k Immediate) s = s.
Proof.
  intros H. induction k as [|k IH]; [done|].
  simpl. unfold run in *. simpl. by rewrite H.
Qed.

Lemma hands_over_all k s s' :
  length (_messages s) ≤ k → hands_over k s s' →
  _messages s' = []
  ∧ sent (history s') = sent (history s) ++ (completion <$> _messages s)
  ∧ (∀ m, m ∈ _messages s → promises s !! completion m = Some Pending →
          promises s' !! completion m = Some (Resolved true)).
Proof.
  intros Hk (H1 & H2 & H3 & H4 & H5 & H6 & H7).
  rewrite drop_ge in H1 by done. rewrite take_ge in H3, H6 by done. done.
Qed.

(** The turns of a worker on an accepting channel, one batch each. *)
Lemma drain_turns k n s :
  accepts s → worker_proceeds n s → immediates s = [] →
  length (_messages s) ≤ S k * MAX_MESSAGES_PER_BATCH →
  drained s (run (replicate k Immediate) (_publishExchangeMessages n s)).
Proof.
  revert s. induction k as [|k IH]; intros s Hor Hgo Him Hlen.
  { simpl. rewrite Nat.mul_1_l in Hlen.
    destruct (worker_turn_accepting n s Hor Hgo) as (Hover & _ & Hstop).
    destruct (Hstop Hlen) as [Hw Him'].
    destruct (hands_over_all _ _ _ Hlen Hover) as (H1 & H2 & H3).
    unfold drained. rewrite Him' , Him. by split_and!. }
  destruct (worker_turn_accepting n s Hor Hgo) as (Hover & Hmore & Hstop).
  destruct (decide (length (_messages s) ≤ MAX_MESSAGES_PER_BATCH))
    as [Hfew|Hmany].
  { destruct (Hstop Hfew) as [Hw Him'].
    destruct (hands_over_all _ _ _ Hfew Hover) as (H1 & H2 & H3).
    rewrite run_idle by (by rewrite Him').
    unfold drained. rewrite Him', Him. by split_and!. }
  destruct Hmore as [Hw Him']; [lia|]. clear Hstop.
  set (s1 := _publishExchangeMessages n s) in *.
  change (replicate (S k) Immediate) with (Immediate :: replicate k Immediate).
  rewrite run_cons, (step_Immediate n [] s1) by (by rewrite Him', Him).
  set (s2 := set_immediates [] s1).
  destruct Hover as (Hd & Hroom & Hsent & Hsame & Hst & Hres & Hinv).
  pose proof Hsame as (Hsu & Hch & Hpub & Hlenp).
  pose proof (proj2 (worker_frame n s)) as Hwn. simpl in Hwn.
  fold s1 in Hwn.
  assert (length (_messages s1)
          = length (_messages s) - MAX_MESSAGES_PER_BATCH) as Hlen1
    by (by rewrite Hd, length_drop).
  assert (worker_proceeds n s2) as Hgo2.
  { destruct Hgo as (Hc & Hsp & _ & Hn).
    apply _shouldPublish_true in Hsp as [_ (Hsu0 & Hc0 & _)].
    unfold worker_proceeds. simpl. rewrite Hch, Hwn.
    split_and!; try done.
    apply _shouldPublish_true. unfold sends_at_once. simpl.
    rewrite Hsu, Hch. split_and!; try done.
    intros Hnil. rewrite Hnil in Hlen1. simpl in Hlen1. lia. }
  assert (accepts s2) as Hor2.
  { apply (accepts_later s); [done| |done]. apply prefix_worker. }
  destruct (IH s2 Hor2 Hgo2 eq_refl) as (G1 & G2 & G3 & G4 & G5).
  { simpl. rewrite Hlen1. rewrite Nat.mul_succ_l in Hlen. lia. }
  simpl in G4, G5.
  unfold drained. split_and!; try done.
  - rewrite G4, Hsent, Hd, <-app_assoc, <-fmap_app. by rewrite take_drop.
  - intros m Hm Hpend.
    destruct (promises s1 !! completion m) as [w|] eqn:Hw1.
    2:{ apply lookup_ge_None in Hw1. apply lookup_lt_Some in Hpend.
        lia. }
    destruct (Hinv _ _ Hw1) as [Hold| ->].
    + rewrite <-(take_drop MAX_MESSAGES_PER_BATCH (_messages s)) in Hm.
      apply elem_of_app in Hm as [Hm|Hm].
      * rewrite (Hres m Hm Hpend) in Hw1. simplify_eq.
      * apply G5; [by rewrite Hd|]. congruence.
    + pose proof (settled_stable_worker n s2) as Hst2.
      assert (∀ j s0, settled_stable s0 (run (replicate j Immediate) s0))
        as Hrun by (intros; apply settled_stable_run).
      eapply Hrun; [|done]. by eapply Hst2.
Qed.

Lemma drained_refl s :
  _messages s = [] → _working s = false → immediates s = [] → drained s s.
Proof.
  intros Hq Hw Him. unfold drained. rewrite Hq. simpl. rewrite app_nil_r.
  split_and!; try done. by intros m Hm%elem_of_nil.
Qed.

(** Starting the worker on an accepting channel empties the queue within
    one turn per batch. *)
Lemma _startWorker_drains k s :
  accepts s → sends_at_once s → _working s = false → immediates s = [] →
  length (_messages s) ≤ S k * MAX_MESSAGES_PER_BATCH →
  drained s (run (replicate k Immediate) (_startWorker s)).
Proof.
  intros Hor Hgate Hidle Him Hlen.
  destruct (_messages s) as [|m rest] eqn:Hq.
  { assert (_startWorker s = s) as ->.
    { unfold _startWorker, _shouldPublish. rewrite Hq. simpl.
      by rewrite andb_false_r. }
    rewrite run_idle by done. by apply drained_refl. }
  assert (_shouldPublish s = true) as Hsp.
  { apply _shouldPublish_true. by rewrite Hq. }
  unfold _startWorker. rewrite Hidle, Hsp. simpl.
  set (s0 := set_workerNumber (S (_workerNumber s)) (set_working true s)).
  assert (drained s0 (run (replicate k Immediate)
                        (_publishExchangeMessages (S (_workerNumber s)) s0)))
    as Hd; [|exact Hd].
  apply drain_turns; try done.
  - destruct Hgate as (? & ? & ?). by split_and!.
  - simpl. by rewrite Hq.
Qed.

Lemma sent_since_eq s s' new :
  history s `prefix_of` history s' →
  sent (history s') = sent (history s) ++ new →
  sent (actions_since s s') = new.
Proof.
  intros H Hnew. rewrite (history_since s s' H), sent_app in Hnew.
  by apply app_inv_head in Hnew.
Qed.

(** X7: a ['drain'] event gets the queue going again.  On a connected
    wrapper whose worker is idle and whose channel accepts what it is
    given, a ['drain'] event followed by one worker turn per further
    batch of [MAX_MESSAGES_PER_BATCH] messages hands the whole queue to
    the channel, in queue order, resolves every promise still awaited
    with [true], and leaves the queue empty and the worker stopped. *)
Theorem drain_event_flushes_the_queue (s : World) (ch : Channel)
    (k : nat) :
  accepts s →
  is_Some (_channel s) → _settingUp s = None →
  _working s = false → immediates s = [] →
  ch < channels s →
  queueLength s ≤ S k * MAX_MESSAGES_PER_BATCH →
  let s' := run (ChannelDrain ch :: replicate k Immediate) s in
  _messages s' = [] ∧ _working s' = false
  ∧ sent (actions_since s s') = completion <$> _messages s
  ∧ (∀ m, m ∈ _messages s → promises s !! completion m = Some Pending →
          promises s' !! completion m = Some (Resolved true)).
Proof.
  intros Hor Hch Hsu Hidle Him Hlt Hlen s'. subst s'.
  rewrite run_cons.
  assert (step (ChannelDrain ch) s
          = _startWorker (set_channelHasRoom true s)) as ->.
  { simpl. by rewrite bool_decide_eq_true_2. }
  destruct (_startWorker_drains k (set_channelHasRoom true s))
    as (H1 & H2 & H3 & H4 & H5); try done.
  split_and!; try done.
  apply sent_since_eq; [|exact H4].
  etrans; [|apply history_run].
  apply (prefix__startWorker _ (set_channelHasRoom true s)). done.
Qed.

Lemma drain_event_flushes_the_queue_witness :
  let s' := run (ChannelDrain 0 :: replicate 0 Immediate)
              waiting_for_drain in
  _messages s' = [] ∧ _working s' = false
  ∧ sent (actions_since waiting_for_drain s') = [1; 2]
  ∧ (∀ m, m ∈ _messages waiting_for_drain →
          promises waiting_for_drain !! completion m = Some Pending →
          promises s' !! completion m = Some (Resolved true)).
Proof.
  apply (drain_event_flushes_the_queue waiting_for_drain 0 0).
  - intros acts.
    change (channel_publish waiting_for_drain) with full_at_first.
    unfold full_at_first. rewrite sent_app, length_app.
    assert (sent (history waiting_for_drain) = [0]) as ->
      by (vm_compute; reflexivity).
    rewrite bool_decide_eq_true_2; [done|simpl; lia].
  - computed.
  - vm_compute. reflexivity.
  - vm_compute. reflexivity.
  - vm_compute. reflexivity.
  - vm_compute. lia.
  - assert (MAX_MESSAGES_PER_BATCH = 1000) as -> by (by vm_compute).
    vm_compute. lia.
Defined.

(** ** From connect to an empty queue *)

Lemma flush_view_log a s :
  sent_of a = [] → flush_view (log a s) = flush_view s.
Proof.
  intros Hs. unfold flush_view, log. simpl.
  by rewrite sent_snoc, Hs, !app_nil_r.
Qed.

Lemma filter_filter_not_elem (i : nat) (l out : list nat) :
  filter (λ j, j ∉ l) (filter (λ j, j ≠ i) out)
  = filter (λ j, j ∉ i :: l) out.
Proof.
  induction out as [|x out IH]; [done|].
  rewrite !filter_cons.
  destruct (decide (x ≠ i)) as [Hne|Heq]; rewrite ?filter_cons, IH;
    destruct (decide (x ∉ l)) as [Hl|Hl],
             (decide (x ∉ i :: l)) as [Hil|Hil];
    try done; rewrite not_elem_of_cons in Hil; tauto.
Qed.

Lemma setups_settle a ch (l : list nat) :
  ∀ t out,
    connects t !! a = Some (AwaitSetups ch out) →
    let t' := run (SetupOk a <$> l) t in
    connects t' !! a = Some (AwaitSetups ch (filter (λ j, j ∉ l) out))
    ∧ flush_view t' = flush_view t ∧ gate_view t' = gate_view t.
Proof.
  induction l as [|i l IH]; intros t out Hph; cbv zeta.
  { simpl. rewrite filter_all; [done|]. apply Forall_forall. intros x _.
    apply not_elem_of_nil. }
  rewrite fmap_cons, run_cons.
  assert (connects (step (SetupOk a i) t) !! a
          = Some (AwaitSetups ch (filter (λ j, j ≠ i) out))
          ∧ flush_view (step (SetupOk a i) t) = flush_view t
          ∧ gate_view (step (SetupOk a i) t) = gate_view t)
    as (Hph' & Hf & Hg).
  { simpl. unfold setup_settled. rewrite Hph.
    case_bool_decide as Hin.
    - unfold set_phase. simpl. split; [|done].
      apply list_lookup_insert_eq. by eapply lookup_lt_Some.
    - split; [|done]. rewrite Hph. do 2 f_equal. symmetry.
      apply filter_all, Forall_forall. intros x Hx ->. done. }
  destruct (IH _ _ Hph') as (H1 & H2 & H3).
  rewrite H1, H2, H3, Hf, Hg. by rewrite filter_filter_not_elem.
Qed.

Lemma filter_none (l : list nat) : filter (λ _ : nat, False) l = [].
Proof.
  induction l as [|x l IH]; [done|]. rewrite filter_cons.
  by case_decide.
Qed.

Lemma run_app evs1 evs2 s : run (evs1 ++ evs2) s = run evs2 (run evs1 s).
Proof. unfold run. by rewrite foldl_app. Qed.

Lemma run_nil s : run [] s = s.
Proof. reflexivity. Qed.

Lemma connect_with_setups_spec s :
  (CmConnectEv, H_onConnect) ∈ cm_listeners s →
  _consumers s = [] →
  let a := length (connects s) in
  let t := run (connect_with_setups a (length (_setups s))) s in
  connects t !! a = Some AwaitResume
  ∧ gate_view t = (None, Some (channels s), true)
  ∧ flush_view t = flush_view s.
Proof.
  intros Hl Hc a t. subst t. unfold connect_with_setups.
  rewrite !run_app, !run_cons, !run_nil.
  (* connect *)
  assert (step CmConnect s = _onConnect s) as ->.
  { simpl. by rewrite bool_decide_eq_true_2. }
  set (s1 := _onConnect s).
  assert (connects s1 !! a = Some AwaitCreateChannel) as Hph1.
  { simpl. by rewrite lookup_app_r, Nat.sub_diag. }
  assert (flush_view s1 = flush_view s) as Hf1.
  { unfold s1, _onConnect. peel flush_view flush_view_log. }
  (* the channel arrives *)
  assert (step (CreateChannelOk a) s1 = _onConnect_channel a s1) as ->.
  { simpl. simpl in Hph1. by rewrite Hph1. }
  set (s2 := _onConnect_channel a s1).
  assert (connects s2 !! a
          = Some (AwaitSetups (channels s) (seq 0 (length (_setups s)))))
    as Hph2.
  { unfold s2, _onConnect_channel, set_phase. simpl.
    rewrite (foldl_view connects) by done.
    rewrite (foldl_view _setups) by done. simpl.
    apply list_lookup_insert_eq. rewrite length_app. simpl. lia. }
  assert (flush_view s2 = flush_view s) as Hf2.
  { rewrite <-Hf1. unfold s2, _onConnect_channel.
    peel flush_view flush_view_log. }
  assert (gate_view s2 = (Some a, Some (channels s), true)) as Hg2.
  { unfold gate_view, s2, _onConnect_channel, set_phase. simpl.
    rewrite (foldl_view _channel), (foldl_view _channelHasRoom) by done.
    done. }
  (* the setup functions succeed *)
  destruct (setups_settle a (channels s) (seq 0 (length (_setups s)))
              s2 _ Hph2) as (Hph3 & Hf3 & Hg3).
  set (s3 := run (SetupOk a <$> seq 0 (length (_setups s))) s2) in *.
  rewrite (filter_ext_in _ (λ _, False)) in Hph3.
  2:{ intros x Hx. split; [|done]. intros Hn. by apply Hn. }
  rewrite filter_none in Hph3.
  clearbody s3. clearbody s2. clearbody s1.
  (* the consumers (there are none) *)
  assert (_consumers s3 = []) as Hc3.
  { rewrite <-Hc. exact (f_equal (λ v, v.1.1.2) (eq_trans Hf3 Hf2)). }
  assert (step (SetupsSettled a) s3 = _onConnect_consumers a s3) as ->.
  { cbv beta iota delta [step]. by rewrite Hph3. }
  assert (_onConnect_consumers a s3 = set_phase a (AwaitConsumers 0) s3)
    as ->.
  { unfold _onConnect_consumers. rewrite Hc3. simpl.
    by rewrite Nat.sub_diag. }
  set (s4 := set_phase a (AwaitConsumers 0) s3).
  assert (connects s4 !! a = Some (AwaitConsumers 0)) as Hph4.
  { apply list_lookup_insert_eq. by eapply lookup_lt_Some. }
  assert (step (ConsumersSettled a) s4 = _onConnect_settled a s4) as ->.
  { cbv beta iota delta [step]. by rewrite Hph4. }
  split_and!.
  - apply list_lookup_insert_eq. by eapply lookup_lt_Some.
  - unfold gate_view in Hg3, Hg2 |- *. simpl. congruence.
  - rewrite <-Hf2, <-Hf3. reflexivity.
Qed.

Lemma drain_scheduled k n s :
  accepts s → immediates s = [n] →
  worker_proceeds n (set_immediates [] s) →
  length (_messages s) ≤ k * MAX_MESSAGES_PER_BATCH →
  drained s (run (replicate k Immediate) s).
Proof.
  intros Hor Him Hgo Hlen.
  destruct k as [|k].
  { exfalso. destruct Hgo as (_ & Hsp & _).
    apply _shouldPublish_true in Hsp as [Hne _]. simpl in *.
    destruct (_messages s); [done|]. simpl in Hlen. lia. }
  change (replicate (S k) Immediate) with (Immediate :: replicate k Immediate).
  rewrite run_cons, (step_Immediate n [] s Him).
  assert (drained (set_immediates [] s)
            (run (replicate k Immediate)
               (_publishExchangeMessages n (set_immediates [] s)))) as Hd;
    [|exact Hd].
  by apply drain_turns.
Qed.

(** The first turn, which [_startWorker] runs at once. *)
Lemma _startWorker_first s :
  accepts s → sends_at_once s → _working s = false → immediates s = [] →
  let s1 := _startWorker s in
  hands_over MAX_MESSAGES_PER_BATCH s s1
  ∧ history s `prefix_of` history s1
  ∧ (immediates s1 = [] ∧ _messages s1 = [] ∧ _working s1 = false
     ∨ ∃ n, immediates s1 = [n]
            ∧ worker_proceeds n (set_immediates [] s1)).
Proof.
  intros Hor Hgate Hidle Him s1. subst s1.
  split; [|split; [by apply prefix__startWorker|]].
  - destruct (_messages s) as [|m rest] eqn:Hq.
    + assert (_startWorker s = s) as ->.
      { unfold _startWorker, _shouldPublish. rewrite Hq. simpl.
        by rewrite andb_false_r. }
      destruct Hgate as (_ & _ & ?).
      apply hands_over_none; by rewrite ?Hq.
    + assert (_shouldPublish s = true) as Hsp.
      { apply _shouldPublish_true. by rewrite Hq. }
      unfold _startWorker. rewrite Hidle, Hsp. simpl.
      set (s0 := set_workerNumber (S (_workerNumber s)) (set_working true s)).
      destruct (worker_turn_accepting (S (_workerNumber s)) s0)
        as (Hover & _); [done| |exact Hover].
      destruct Hgate as (? & ? & ?). by split_and!.
  - destruct (_messages s) as [|m rest] eqn:Hq.
    + assert (_startWorker s = s) as ->.
      { unfold _startWorker, _shouldPublish. rewrite Hq. simpl.
        by rewrite andb_false_r. }
      by left.
    + assert (_shouldPublish s = true) as Hsp.
      { apply _shouldPublish_true. by rewrite Hq. }
      unfold _startWorker. rewrite Hidle, Hsp. simpl.
      set (n := S (_workerNumber s)).
      set (s0 := set_workerNumber n (set_working true s)).
      assert (worker_proceeds n s0) as Hgo.
      { destruct Hgate as (? & ? & ?). by split_and!. }
      destruct (worker_turn_accepting n s0 Hor Hgo)
        as (Hover & Hmore & Hstop).
      destruct (decide (length (_messages s0) ≤ MAX_MESSAGES_PER_BATCH))
        as [Hfew|Hmany].
      * left. destruct (Hstop Hfew) as [Hw Him'].
        destruct (hands_over_all _ _ _ Hfew Hover) as (H1 & _).
        split_and!; [by rewrite Him'|done|done].
      * right. exists n. destruct Hmore as [Hw Him']; [lia|].
        split; [rewrite Him'; simpl; by rewrite Him|].
        destruct Hover as (Hd & Hroom & _ & (Hsu & Hch & _) & _).
        pose proof (proj2 (worker_frame n s0)) as Hwn. simpl in Hwn.
        destruct Hgate as (Hsu0 & Hc0 & _).
        unfold worker_proceeds. simpl. rewrite Hch, Hwn.
        split_and!; try done.
        apply _shouldPublish_true. unfold sends_at_once. simpl.
        rewrite Hsu, Hch. split_and!; try done.
        intros Hnil. apply (f_equal length) in Hd.
        rewrite Hnil, length_drop in Hd. simpl in Hd, Hmany. lia.
Qed.

Lemma drained_after k s s1 u s' :
  hands_over k s s1 →
  sent (history u) = sent (history s1) → _messages u = _messages s1 →
  promises u = promises s1 →
  settled_stable u s' → drained u s' → drained s s'.
Proof.
  intros (Hd & _ & Hsent & (_ & _ & _ & Hlenp) & _ & Hres & Hinv)
    Es Em Ep Hst (G1 & G2 & G3 & G4 & G5).
  unfold drained. split_and!; try done.
  - rewrite G4, Es, Em, Hsent, Hd, <-app_assoc, <-fmap_app.
    by rewrite take_drop.
  - intros m Hm Hpend.
    destruct (promises s1 !! completion m) as [w|] eqn:Hw1.
    2:{ apply lookup_ge_None in Hw1. apply lookup_lt_Some in Hpend.
        lia. }
    destruct (Hinv _ _ Hw1) as [Hold| ->].
    + rewrite <-(take_drop k (_messages s)) in Hm.
      apply elem_of_app in Hm as [Hm|Hm].
      * rewrite (Hres m Hm Hpend) in Hw1. simplify_eq.
      * apply G5; [by rewrite Em, Hd|]. rewrite Ep. congruence.
    + apply Hst; [by rewrite Ep|done].
Qed.

Lemma channel_worker n s :
  _channel (_publishExchangeMessages n s) = _channel s.
Proof.
  destruct (worker_spec n s) as (acts & _ & _ & _ & _ & _ & _ & _ & _ & _ & H).
  unfold same_control in H. by destruct_and!.
Qed.

Lemma channel_turns k s :
  _channel (run (replicate k Immediate) s) = _channel s.
Proof.
  revert s. induction k as [|k IH]; intros s; [done|].
  change (replicate (S k) Immediate) with (Immediate :: replicate k Immediate).
  rewrite run_cons, IH. simpl. destruct (immediates s); [done|].
  by rewrite channel_worker.
Qed.

(** X8: what was published while the wrapper could not send is sent
    once a connect completes.  On a wrapper without consumers whose
    worker is idle and whose channel accepts what it is given, a connect
    whose setup functions all succeed, followed by one worker turn per
    further batch of [MAX_MESSAGES_PER_BATCH] messages, leaves the
    wrapper on the new channel with an empty queue: every queued message
    was handed to a channel, in queue order, every promise still awaited
    is resolved with [true], and ['connect'] was emitted. *)
Theorem connect_flushes_the_queue (s : World) (k : nat) :
  accepts s →
  (CmConnectEv, H_onConnect) ∈ cm_listeners s →
  _consumers s = [] →
  _working s = false → immediates s = [] →
  queueLength s ≤ S k * MAX_MESSAGES_PER_BATCH →
  let a := length (connects s) in
  let s' := run (connect_with_setups a (length (_setups s))
                 ++ [Resume a] ++ replicate k Immediate) s in
  _channel s' = Some (channels s)
  ∧ _messages s' = [] ∧ _working s' = false
  ∧ sent (actions_since s s') = completion <$> _messages s
  ∧ (∀ m, m ∈ _messages s → promises s !! completion m = Some Pending →
          promises s' !! completion m = Some (Resolved true))
  ∧ Emit WConnect ∈ actions_since s s'.
Proof.
  intros Hor Hl Hc Hidle Him Hlen a s'. subst s'.
  destruct (connect_with_setups_spec s Hl Hc) as (Hph & Hg & Hf).
  fold a in Hph, Hg, Hf.
  rewrite !run_app, run_cons, run_nil.
  pose proof (history_run (connect_with_setups a (length (_setups s))) s)
    as Hpre.
  set (t := run (connect_with_setups a (length (_setups s))) s) in *.
  clearbody t.
  unfold flush_view in Hf. unfold gate_view in Hg.
  injection Hf as Hq Hp Hs Hw Hi Hpub Hwn Hcs Hss Hpc.
  injection Hg as Hsu Hch Hroom.
  assert (accepts t) as Hor' by (by apply (accepts_later s)).
  assert (step (Resume a) t
          = emit WConnect (_startWorker (set_phase a Done t))) as ->.
  { cbv beta iota delta [step]. rewrite Hph. unfold _onConnect_resume.
    simpl. by rewrite Hch. }
  set (t0 := set_phase a Done t).
  destruct (_startWorker_first t0) as (Hover & Hpre1 & Hnext).
  { exact Hor'. }
  { unfold sends_at_once. simpl. by rewrite Hsu, Hch, Hroom. }
  { simpl. by rewrite Hw. }
  { simpl. by rewrite Hi. }
  set (s1 := _startWorker t0) in *. clearbody s1.
  set (u := emit WConnect s1).
  assert (accepts u) as Horu.
  { apply (accepts_later t); [done| |].
    - etrans; [exact Hpre1|]. by apply prefix_app_r.
    - by destruct Hover as (_ & _ & _ & (_ & _ & ? & _) & _). }
  assert (drained u (run (replicate k Immediate) u)) as Hd.
  { destruct Hnext as [(I1 & I2 & I3)|(n & I1 & I2)].
    - rewrite run_idle by done. by apply drained_refl.
    - apply (drain_scheduled k n); try done.
      destruct Hover as (Hd & _). simpl. rewrite Hd, length_drop.
      simpl. rewrite Hq. unfold queueLength in Hlen.
      rewrite Nat.mul_succ_l in Hlen. lia. }
  pose proof (history_run (replicate k Immediate) u) as Hpre2.
  pose proof (settled_stable_run (replicate k Immediate) u) as Hst.
  pose proof (channel_turns k u) as Hch'.
  set (s' := run (replicate k Immediate) u) in *. clearbody s'.
  assert (drained t0 s') as (G1 & G2 & G3 & G4 & G5).
  { apply (drained_after _ _ _ u _ Hover); try done.
    unfold u, emit, log. simpl. by rewrite sent_snoc, app_nil_r. }
  simpl in G4, G5.
  assert (history s `prefix_of` history s') as Hall.
  { etrans; [exact Hpre|]. etrans; [exact Hpre1|].
    etrans; [|exact Hpre2]. by apply prefix_app_r. }
  split_and!; try done.
  - rewrite Hch'. simpl.
    destruct Hover as (_ & _ & _ & (_ & Hch1 & _) & _).
    simpl in *. congruence.
  - apply sent_since_eq; [done|]. by rewrite G4, Hs, Hq.
  - intros m Hm Hpend. apply G5; by rewrite ?Hq, ?Hp.
  - destruct Hpre as [k0 Hk0]. destruct Hpre1 as [k1 Hk1].
    destruct Hpre2 as [k2 Hk2]. simpl in Hk1.
    rewrite (actions_since_app s s' (k0 ++ k1 ++ [Emit WConnect] ++ k2)).
    + rewrite !elem_of_app. right. right. left. by left.
    + rewrite Hk2. unfold u, emit, log. simpl. rewrite Hk1, Hk0.
      by rewrite <-!app_assoc.
Qed.

Lemma connect_flushes_the_queue_witness :
  let s' := run (connect_with_setups 0 1 ++ [Resume 0]
                 ++ replicate 0 Immediate) two_queued in
  _channel s' = Some 0
  ∧ _messages s' = [] ∧ _working s' = false
  ∧ sent (actions_since two_queued s') = [0; 1]
  ∧ (∀ m, m ∈ _messages two_queued →
          promises two_queued !! completion m = Some Pending →
          promises s' !! completion m = Some (Resolved true))
  ∧ Emit WConnect ∈ actions_since two_queued s'.
Proof.
  apply (connect_flushes_the_queue two_queued 0).
  - intros acts. reflexivity.
  - apply (list_elem_of_lookup_2 _ 0). vm_compute. reflexivity.
  - vm_compute. reflexivity.
  - vm_compute. reflexivity.
  - vm_compute. reflexivity.
  - assert (MAX_MESSAGES_PER_BATCH = 1000) as -> by (by vm_compute).
    vm_compute. lia.
Defined.

(** ** The calls of the publish path *)

Lemma publish_loop_actions channel n s :
  ∃ acts, history (publish_loop channel n s).2 = history s ++ acts
          ∧ Forall (λ a, publish_path_action a = true) acts.
Proof.
  apply (publish_loop_ind channel (λ n s out,
    ∃ acts, history out.2 = history s ++ acts
            ∧ Forall (λ a, publish_path_action a = true) acts)); clear n s.
  - intros s. exists []. by rewrite app_nil_r.
  - intros n s _. exists []. by rewrite app_nil_r.
  - intros n s _ _. exists []. by rewrite app_nil_r.
  - intros n s m rest err _ _ _. eexists. split; [reflexivity|].
    by repeat constructor.
  - intros n s m rest room _ _ _ (acts & Hh & Hall).
    exists ([ChanPublish channel (exchange m) (routingKey m) (content m)
               (options m) (Returned room) (completion m);
             CallResolve (completion m) room] ++ acts).
    split.
    + rewrite Hh. simpl. by rewrite <-!app_assoc.
    + apply Forall_app. split; [by repeat constructor|done].
Qed.

Lemma worker_actions n s :
  ∃ acts, history (_publishExchangeMessages n s) = history s ++ acts
          ∧ Forall (λ a, publish_path_action a = true) acts.
Proof.
  destruct (decide (worker_proceeds n s)) as [Hgo|Hno].
  2:{ rewrite worker_stops by done. exists []. by rewrite app_nil_r. }
  pose proof (worker_proceeds_sends_at_once _ _ Hgo) as (_ & [ch Hch] & _).
  rewrite (worker_runs n s ch Hgo Hch).
  destruct (publish_loop_actions ch MAX_MESSAGES_PER_BATCH s)
    as (acts & Hh & Hall).
  destruct (publish_loop ch MAX_MESSAGES_PER_BATCH s) as [[err|] s1];
    simpl in *.
  - exists (acts ++ [Emit (WError err None)]). rewrite Hh, <-app_assoc.
    split; [done|]. apply Forall_app. split; [done|by repeat constructor].
  - destruct (_channelHasRoom s1 && bool_decide (0 < length (_messages s1)));
      simpl.
    + exists (acts ++ [SetImmediate n]). rewrite Hh, <-app_assoc.
      split; [done|]. apply Forall_app. split; [done|by repeat constructor].
    + by exists acts.
Qed.

Lemma _startWorker_actions s :
  ∃ acts, history (_startWorker s) = history s ++ acts
          ∧ Forall (λ a, publish_path_action a = true) acts.
Proof.
  destruct (_startWorker_cases s) as [->|(_ & _ & -> & _)].
  - exists []. by rewrite app_nil_r.
  - apply (worker_actions _
             (set_workerNumber (S (_workerNumber s)) (set_working true s))).
Qed.

Lemma publish_path_step e s :
  quiet e = false →
  ∃ acts, history (step e s) = history s ++ acts
          ∧ Forall (λ a, publish_path_action a = true) acts.
Proof.
  intros He. destruct e; try discriminate He; cbv beta iota delta [step].
  - unfold publish, chan_publish, _enqueueMessage, resolve, log.
    repeat case_match; simplify_eq/=; rewrite <-?app_assoc;
      (eexists; split; [reflexivity|by repeat constructor]).
  - repeat case_match; try (exists []; by rewrite app_nil_r).
    unfold _onConnect_resume. case_match;
      [|exists []; by rewrite app_nil_r].
    destruct (_startWorker_actions (set_phase a Done s))
      as (acts & Hh & Hall).
    exists (acts ++ [Emit WConnect]). unfold emit, log. simpl.
    rewrite Hh, <-app_assoc. split; [done|].
    apply Forall_app. split; [done|by repeat constructor].
  - case_bool_decide; [|exists []; by rewrite app_nil_r].
    apply (_startWorker_actions (set_channelHasRoom true s)).
  - destruct (immediates s) as [|n rest];
      [exists []; by rewrite app_nil_r|].
    apply (worker_actions n (set_immediates rest s)).
Qed.

Lemma bind_publish_path {B} (f : Action → list B) (acts : list Action) :
  (∀ a, publish_path_action a = true → f a = []) →
  Forall (λ a, publish_path_action a = true) acts →
  acts ≫= f = [].
Proof.
  intros Hf. induction 1 as [|a acts Ha _ IH]; [done|].
  by rewrite bind_cons, IH, (Hf a Ha).
Qed.

(** A projection of the history that ignores the calls of the publish
    path is left alone by the stimuli that run the publish path. *)
Lemma publish_path_ignored {B} (f : Action → list B) e s :
  (∀ a, publish_path_action a = true → f a = []) →
  quiet e = false →
  history (step e s) ≫= f = history s ≫= f.
Proof.
  intros Hf He. destruct (publish_path_step e s He) as (acts & -> & Hall).
  by rewrite bind_app, (bind_publish_path f acts Hf Hall), app_nil_r.
Qed.

(** ** After [close] *)

Lemma requests_view_log a s :
  channel_request_of a = [] → requests_view (log a s) = requests_view s.
Proof.
  intros H. unfold requests_view, channel_requests, log. simpl.
  by rewrite bind_snoc, H, app_nil_r.
Qed.

Lemma requests_view_close s : requests_view (close s) = requests_view s.
Proof.
  destruct (close_spec s) as (Hh & _).
  unfold requests_view, channel_requests. rewrite Hh, !bind_app.
  assert (∀ msgs : list Message,
    ((λ m, CallReject (completion m) channel_closed) <$> msgs)
      ≫= channel_request_of = []) as Hnil.
  { induction msgs as [|m msgs IH]; [done|].
    by rewrite fmap_cons, bind_cons, IH. }
  rewrite Hnil. destruct (_channel s); simpl; by rewrite !app_nil_r.
Qed.

Lemma requests_step e s :
  cm_listeners s = [] →
  cm_listeners (step e s) = []
  ∧ requests_view (step e s) = requests_view s.
Proof.
  intros Hl. split.
  { destruct e;
      try (match goal with
           | |- cm_listeners (step ?e ?s) = [] =>
               by rewrite (proj1 (step_frame e s ltac:(discriminate)))
           end).
    change (step CallClose s) with (close s).
    destruct (close_spec s) as (_ & _ & _ & -> & _). by rewrite Hl. }
  destruct (quiet e) eqn:He.
  2:{ by apply (publish_path_ignored channel_request_of);
        [intros []|]. }
  destruct e; try discriminate He; cbv beta iota delta [step].
  - apply requests_view_close.
  - peel requests_view requests_view_log.
  - peel requests_view requests_view_log.
  - peel requests_view requests_view_log.
  - rewrite Hl. by rewrite bool_decide_eq_false_2 by apply not_elem_of_nil.
  - peel requests_view requests_view_log.
  - peel requests_view requests_view_log.
  - peel requests_view requests_view_log.
  - peel requests_view requests_view_log.
  - peel requests_view requests_view_log.
  - peel requests_view requests_view_log.
  - peel requests_view requests_view_log.
  - peel requests_view requests_view_log.
  - peel requests_view requests_view_log.
  - peel requests_view requests_view_log.
  - peel requests_view requests_view_log.
  - peel requests_view requests_view_log.
  - peel requests_view requests_view_log.
  - peel requests_view requests_view_log.
Qed.

Lemma requests_run evs s :
  cm_listeners s = [] →
  cm_listeners (run evs s) = []
  ∧ requests_view (run evs s) = requests_view s.
Proof.
  intros Hl. induction evs as [|e evs [IH1 IH2]] using rev_ind; [done|].
  rewrite run_snoc. destruct (requests_step e (run evs s) IH1) as [H1 H2].
  split; [done|]. by rewrite H2.
Qed.

Lemma unsubscribed_ignores_manager s :
  cm_listeners s = [] → step CmConnect s = s ∧ step CmDisconnect s = s.
Proof.
  intros Hl. split.
  - cbv beta iota delta [step]. rewrite Hl.
    by rewrite bool_decide_eq_false_2 by apply not_elem_of_nil.
  - cbv beta iota delta [step]. rewrite Hl.
    by rewrite bool_decide_eq_false_2 by apply not_elem_of_nil.
Qed.

Lemma no_request_since s s' :
  history s `prefix_of` history s' →
  requests_view s' = requests_view s →
  ∀ a, ConnCreateChannel a ∉ actions_since s s'.
Proof.
  intros Hpre Hreq a Hin.
  unfold requests_view, channel_requests in Hreq.
  rewrite (history_since s s' Hpre), bind_app in Hreq.
  assert (a ∈ actions_since s s' ≫= channel_request_of) as Ha.
  { apply list_elem_of_bind. eexists. split; [|exact Hin]. by left. }
  rewrite <-(app_nil_r (history s ≫= channel_request_of)) in Hreq at 2.
  apply app_inv_head in Hreq. rewrite Hreq in Ha.
  by apply elem_of_nil in Ha.
Qed.

(** X9: a closed wrapper stays closed.  Once [close] has run on a
    wrapper, whatever happens afterwards, the wrapper is no longer
    subscribed to its connection manager, it ignores the manager's
    ['connect'] and ['disconnect'] events, and it never asks the
    connection for a channel again. *)
Theorem closed_wrapper_stays_closed (connected : bool)
    (nm : option string) (setup : option SetupFunc)
    (oracle : list Action → PublishResult) (evs evs' : list Event) :
  let s := close (run evs (new_ChannelWrapper connected nm setup oracle)) in
  let s' := run evs' s in
  cm_listeners s' = []
  ∧ step CmConnect s' = s' ∧ step CmDisconnect s' = s'
  ∧ ∀ a, ConnCreateChannel a ∉ actions_since s s'.
Proof.
  intros s s'.
  assert (cm_listeners s = []) as Hl
    by apply listeners_inv_close, listeners_inv_run, listeners_inv_new.
  destruct (requests_run evs' s Hl) as [Hl' Hreq].
  destruct (unsubscribed_ignores_manager s' Hl') as [H1 H2].
  split; [exact Hl'|]. split; [exact H1|]. split; [exact H2|].
  exact (no_request_since s s' (history_run evs' s) Hreq).
Qed.

Lemma closed_wrapper_stays_closed_witness :
  ConnCreateChannel 1
  ∉ actions_since (close online)
      (run (publishes 1 ++ connect_events 1) (close online)).
Proof.
  apply (closed_wrapper_stays_closed false (Some "orders") None always_room
           (connect_events 0) (publishes 1 ++ connect_events 1)).
Defined.

(** ** Consumers across reconnects *)

Lemma heap_le_refl h : heap_le h h.
Proof. intros c x Hc. by exists x. Qed.

Lemma heap_le_trans h1 h2 h3 : heap_le h1 h2 → heap_le h2 h3 → heap_le h1 h3.
Proof.
  intros H12 H23 c x Hc.
  destruct (H12 c x Hc) as (x' & Hc' & Hp).
  destruct (H23 c x' Hc') as (x'' & Hc'' & Hp').
  exists x''. split; [done|congruence].
Qed.

Lemma heap_le_alter h h1 t c :
  heap_le h h1 → heap_le h (alter (with_consumerTag t) c h1).
Proof.
  intros H c' x Hc'. destruct (H c' x Hc') as (x' & Hx' & Hp).
  destruct (decide (c = c')) as [->|Hne].
  - exists (with_consumerTag t x'). rewrite list_lookup_alter_eq, Hx'.
    split; [done|]. by rewrite <-Hp.
  - exists x'. by rewrite list_lookup_alter_ne.
Qed.

Lemma heap_le_app h h1 l : heap_le h h1 → heap_le h (h1 ++ l).
Proof.
  intros H c x Hc. destruct (H c x Hc) as (x' & Hx' & Hp).
  exists x'. split; [|done]. by apply lookup_app_l_Some.
Qed.

Ltac heap_le_solver :=
  repeat first
    [ apply heap_le_refl
    | apply heap_le_alter
    | apply heap_le_app ].

Lemma heap_le_step e s :
  heap_le (consumer_heap s) (consumer_heap (step e s)).
Proof.
  assert (∀ s', registry_view s' = registry_view s →
            heap_le (consumer_heap s) (consumer_heap s')) as Hsame.
  { intros s' [= _ -> _]. apply heap_le_refl. }
  destruct (quiet e) eqn:He.
  2:{ destruct e; try discriminate He; cbv beta iota delta [step].
      - apply Hsame, registry_publish.
      - repeat case_match; apply Hsame;
          first [done|apply registry__onConnect_resume].
      - case_bool_decide; apply Hsame;
          first [done|apply registry__onChannelDrain].
      - case_match; [apply heap_le_refl|].
        apply Hsame. by rewrite registry_worker. }
  destruct e; try discriminate He; cbv beta iota delta [step].
  1:{ apply Hsame, registry_close. }
  all: peel_field consumer_heap; heap_le_solver.
Qed.

Lemma heap_le_run evs s :
  heap_le (consumer_heap s) (consumer_heap (run evs s)).
Proof.
  induction evs as [|e evs IH] using rev_ind; [apply heap_le_refl|].
  rewrite run_snoc. eapply heap_le_trans; [exact IH|apply heap_le_step].
Qed.

(** X10: a registered consumer keeps what it was registered with.
    Whatever happens to the wrapper, the consumer stays in the store
    under the same reference, with the same queue, the same handler
    and the same options, among them the consumer tag that [consume]
    chose; only the tag the broker confirmed changes. *)
Theorem consumer_keeps_its_parameters (s : World) (evs : list Event)
    (c : ConsumerRef) (consumer : Consumer) :
  consumer_heap s !! c = Some consumer →
  ∃ consumer',
    consumer_heap (run evs s) !! c = Some consumer'
    ∧ queue consumer' = queue consumer
    ∧ onMessage consumer' = onMessage consumer
    ∧ c_options consumer' = c_options consumer.
Proof.
  intros Hc. destruct (heap_le_run evs s c consumer Hc) as (x' & Hx' & Hp).
  exists x'. unfold parameters in Hp. by simplify_eq.
Qed.

Lemma consumer_keeps_its_parameters_witness :
  ∃ consumer',
    consumer_heap (run ([CmDisconnect] ++ connect_events 1
                        ++ [ConsumeOk 0 "orders-1"]) consuming) !! 0
      = Some consumer'
    ∧ queue consumer' = "orders"
    ∧ onMessage consumer' = 0
    ∧ c_options consumer' = orders_options.
Proof.
  apply (consumer_keeps_its_parameters consuming
           ([CmDisconnect] ++ connect_events 1 ++ [ConsumeOk 0 "orders-1"])
           0 {| consumerTag := Some "orders-1"; queue := "orders";
                onMessage := 0; c_options := orders_options |}).
  vm_compute. reflexivity.
Defined.

Lemma consume_calls_in_snoc h a :
  consume_calls_in (h ++ [a]) = consume_calls_in h ++ consume_call_of a.
Proof. apply bind_snoc. Qed.

Lemma _reconnectConsumer_spec c owner s ch :
  _channel s = Some ch → c ∈ _consumers s →
  let s' := _reconnectConsumer c owner s in
  consume_calls_in (history s')
    = consume_calls_in (history s) ++ subscription s ch c
  ∧ registry_view s' = registry_view s ∧ _channel s' = _channel s
  ∧ length (pending_consumes s')
    = length (pending_consumes s) + length (subscription s ch c)
  ∧ connects s' = connects s.
Proof.
  intros Hch Hin s'. subst s'. unfold _reconnectConsumer.
  rewrite bool_decide_eq_true_2 by done.
  unfold _consume, subscription. rewrite Hch.
  destruct (consumer_heap s !! c) as [consumer|]; simpl.
  2:{ rewrite app_nil_r. split_and!; try done; lia. }
  destruct (prefetch (c_options consumer)); simpl;
    rewrite ?consume_calls_in_snoc, length_app; simpl;
    rewrite ?app_nil_r; by split_and!.
Qed.

Lemma resubscribe_fold a ch (l : list ConsumerRef) :
  ∀ s, _channel s = Some ch → (∀ c, c ∈ l → c ∈ _consumers s) →
    let s' := foldl (λ s c, _reconnectConsumer c (OwnerSetup a) s) s l in
    consume_calls_in (history s')
      = consume_calls_in (history s) ++ (l ≫= subscription s ch)
    ∧ registry_view s' = registry_view s ∧ _channel s' = _channel s
    ∧ length (pending_consumes s')
      = length (pending_consumes s) + length (l ≫= subscription s ch)
    ∧ connects s' = connects s.
Proof.
  induction l as [|c l IH]; intros s Hch Hin; cbv zeta.
  { simpl. rewrite app_nil_r. split_and!; try done; lia. }
  rewrite bind_cons. simpl.
  destruct (_reconnectConsumer_spec c (OwnerSetup a) s ch Hch)
    as (H1 & H2 & H3 & H4 & H5); [apply Hin; by left|].
  set (s1 := _reconnectConsumer c (OwnerSetup a) s) in *. clearbody s1.
  pose proof H2 as Hreg. unfold registry_view in Hreg.
  injection Hreg as Hcs Hhp _.
  assert (∀ c', subscription s1 ch c' = subscription s ch c') as Hsub.
  { intros c'. unfold subscription. by rewrite Hhp. }
  destruct (IH s1) as (G1 & G2 & G3 & G4 & G5).
  { by rewrite H3. }
  { intros c' Hc'. rewrite Hcs. apply Hin. by right. }
  rewrite G1, G2, G3, G4, G5, H1, H2, H3, H4, H5.
  assert (l ≫= subscription s1 ch = l ≫= subscription s ch) as ->.
  { clear -Hsub. induction l as [|x l IH]; [done|].
    by rewrite !bind_cons, IH, Hsub. }
  rewrite length_app, <-app_assoc. split_and!; try done; lia.
Qed.

Lemma bind_one {A B} (f : A → list B) (l : list A) :
  (∀ x, x ∈ l → ∃ y, f x = [y]) →
  length (l ≫= f) = length l
  ∧ ∀ i x, l !! i = Some x → (l ≫= f) !! i = head (f x).
Proof.
  induction l as [|x l IH]; intros Hf; [done|].
  destruct (Hf x) as [y Hy]; [by left|].
  destruct IH as [IH1 IH2]; [intros; apply Hf; by right|].
  rewrite bind_cons, Hy. simpl. split; [by rewrite IH1|].
  intros [|i] x'; simpl; [|by apply IH2].
  intros [= <-]. by rewrite Hy.
Qed.

(** X11: a connect re-subscribes the registry.  When the setup functions
    of a connect have settled, the wrapper calls [channel.consume] on
    its current channel once for every registered consumer, in
    registration order, with the queue and the tag the consumer was
    registered with; the registry itself is left as it is, and the
    connect then waits for as many answers as there are consumers. *)
Theorem connect_resubscribes_the_registry (s : World) (a : nat)
    (ch0 ch : Channel) :
  registry_inv s →
  connects s !! a = Some (AwaitSetups ch0 []) →
  _channel s = Some ch →
  let s' := step (SetupsSettled a) s in
  length (consume_calls_in (actions_since s s')) = length (_consumers s)
  ∧ (∀ i c consumer,
       _consumers s !! i = Some c → consumer_heap s !! c = Some consumer →
       consume_calls_in (actions_since s s') !! i
       = Some (ch, queue consumer, opt_consumerTag (c_options consumer), c))
  ∧ registry_view s' = registry_view s
  ∧ connects s' !! a = Some (AwaitConsumers (length (_consumers s))).
Proof.
  intros [Hnd Hheap] Hph Hch s'.
  assert (s' = _onConnect_consumers a s) as ->.
  { subst s'. cbv beta iota delta [step]. by rewrite Hph. }
  destruct (resubscribe_fold a ch (_consumers s) s Hch)
    as (H1 & H2 & H3 & H4 & H5); [done|].
  destruct (bind_one (subscription s ch) (_consumers s)) as [Hlen Hidx].
  { intros c Hc. apply Hheap in Hc.
    apply lookup_lt_is_Some in Hc as [consumer Hc].
    unfold subscription. rewrite Hc. eauto. }
  unfold _onConnect_consumers.
  assert (history s `prefix_of`
          history (foldl (λ s c, _reconnectConsumer c (OwnerSetup a) s)
                     s (_consumers s))) as Hpre.
  { apply prefix_foldl; [|done]. intros s0 c.
    unfold _reconnectConsumer, _consume. prefix_solver. }
  set (s1 := foldl _ s (_consumers s)) in *. clearbody s1.
  assert (consume_calls_in (actions_since s (set_phase a
            (AwaitConsumers (length (pending_consumes s1)
                             - length (pending_consumes s))) s1))
          = _consumers s ≫= subscription s ch) as ->.
  { unfold consume_calls_in in *.
    rewrite (history_since s s1 Hpre), bind_app in H1.
    by apply app_inv_head in H1. }
  split_and!; try done.
  - intros i c consumer Hi Hc. rewrite (Hidx i c Hi).
    unfold subscription. by rewrite Hc.
  - unfold set_phase. simpl. rewrite H4, Hlen, H5.
    replace (length (pending_consumes s) + length (_consumers s)
             - length (pending_consumes s)) with (length (_consumers s))
      by lia.
    apply list_lookup_insert_eq. by eapply lookup_lt_Some.
Qed.

Lemma connect_resubscribes_the_registry_witness :
  let s := run [CmDisconnect; CmConnect; CreateChannelOk 1] consuming in
  let s' := step (SetupsSettled 1) s in
  length (consume_calls_in (actions_since s s')) = 1
  ∧ (∀ i c consumer,
       _consumers s !! i = Some c → consumer_heap s !! c = Some consumer →
       consume_calls_in (actions_since s s') !! i
       = Some (1, queue consumer, opt_consumerTag (c_options consumer), c))
  ∧ registry_view s' = registry_view s
  ∧ connects s' !! 1 = Some (AwaitConsumers 1).
Proof.
  apply (connect_resubscribes_the_registry
           (run [CmDisconnect; CmConnect; CreateChannelOk 1] consuming)
           1 1 1).
  - apply (registry_inv_run [CmDisconnect; CmConnect; CreateChannelOk 1]).
    apply (registry_inv_run
             [CallConsume "orders" 0 orders_options; ConsumeOk 0 "orders-1"]).
    apply (registry_inv_run (connect_events 0)).
    apply registry_inv_new.
  - vm_compute. reflexivity.
  - vm_compute. reflexivity.
Defined.

(** ** After [cancelAll] *)

Lemma consumers_view_log a s :
  consume_call_of a = [] → consumers_view (log a s) = consumers_view s.
Proof.
  intros H. unfold consumers_view, log. simpl.
  by rewrite consume_calls_in_snoc, H, app_nil_r.
Qed.

Lemma consume_call_not_publish_path a :
  publish_path_action a = true → consume_call_of a = [].
Proof. by destruct a. Qed.

Lemma consumers_view_publish_path e s :
  quiet e = false → consumers_view (step e s) = consumers_view s.
Proof.
  intros He. unfold consumers_view, consume_calls_in.
  rewrite (publish_path_ignored consume_call_of e s
             consume_call_not_publish_path He).
  f_equal. destruct e; try discriminate He; cbv beta iota delta [step].
  - unfold publish, chan_publish, _enqueueMessage.
    by repeat case_match; simplify_eq/=.
  - repeat case_match; try done. unfold _onConnect_resume.
    case_match; [|done]. simpl.
    destruct (_startWorker_cases (set_phase a Done s))
      as [->|(_ & _ & -> & _)]; [done|].
    destruct (worker_spec (S (_workerNumber (set_phase a Done s)))
                (set_workerNumber (S (_workerNumber (set_phase a Done s)))
                   (set_working true (set_phase a Done s))))
      as (acts & _ & _ & _ & _ & _ & _ & _ & _ & _ & Hsame).
    unfold same_control in Hsame. destruct_and!. simpl in *. congruence.
  - case_bool_decide; [|done]. unfold _onChannelDrain.
    destruct (_startWorker_cases (set_channelHasRoom true s))
      as [->|(_ & _ & -> & _)]; [done|].
    destruct (worker_spec (S (_workerNumber (set_channelHasRoom true s)))
                (set_workerNumber
                   (S (_workerNumber (set_channelHasRoom true s)))
                   (set_working true (set_channelHasRoom true s))))
      as (acts & _ & _ & _ & _ & _ & _ & _ & _ & _ & Hsame).
    unfold same_control in Hsame. destruct_and!. simpl in *. congruence.
  - destruct (immediates s) as [|n rest]; [done|].
    destruct (worker_spec n (set_immediates rest s))
      as (acts & _ & _ & _ & _ & _ & _ & _ & _ & _ & Hsame).
    unfold same_control in Hsame. destruct_and!. simpl in *. congruence.
Qed.

(** [close] leaves alone whatever does not depend on the worker flag,
    the promises, the subscriptions to the connection manager, the
    channel handle and the calls it makes. *)
Lemma close_view {B} (V : World → B) s :
  (∀ v s, V (set_working v s) = V s) →
  (∀ v s, V (set_promises v s) = V s) →
  (∀ v s, V (set_cm_listeners v s) = V s) →
  (∀ v s, V (set_channel v s) = V s) →
  (∀ a s, match a with
          | CallReject _ _ | CmRemoveListener _ _ | ChanClose _
          | Emit WClose => True
          | _ => False
          end → V (log a s) = V s) →
  V (close s) = V s.
Proof.
  intros Hw Hp Hl Hc Hlog. unfold close, cm_removeListener, emit.
  cbv zeta. rewrite Hlog by done. rewrite Hc.
  assert (∀ s0, V (foldl (λ s message,
                     reject (completion message) channel_closed s)
                   s0 (_messages s0)) = V s0) as Hfold.
  { intros s0. apply foldl_view. intros s1 m. unfold reject.
    rewrite Hp. by rewrite Hlog. }
  case_match; rewrite ?(Hlog (ChanClose _)) by done;
    rewrite Hl, (Hlog (CmRemoveListener _ _)) by done;
    rewrite Hl, (Hlog (CmRemoveListener _ _)) by done;
    rewrite Hfold; apply Hw.
Qed.

Lemma consumers_view_close s : consumers_view (close s) = consumers_view s.
Proof.
  apply close_view; try done.
  intros a s0 Ha. apply consumers_view_log. by destruct a.
Qed.

(** Without registered consumers and without [consume] calls in flight
    nothing subscribes. *)
Lemma no_consumers_step e s :
  _consumers s = [] → consume_calls s = [] → calls_consume e = false →
  consumers_view (step e s) = consumers_view s.
Proof.
  intros Hc Hcc He.
  destruct (quiet e) eqn:Hq; [|by apply consumers_view_publish_path].
  destruct e; try discriminate Hq; try discriminate He;
    cbv beta iota delta [step].
  - apply consumers_view_close.
  - (* cancel *) unfold cancel. by rewrite Hc.
  - (* cancelAll *)
    unfold cancelAll. rewrite Hc. simpl.
    destruct (_channel s); unfold consumers_view; simpl; by rewrite Hc.
  - peel consumers_view consumers_view_log.
  - peel consumers_view consumers_view_log.
  - peel consumers_view consumers_view_log.
  - peel consumers_view consumers_view_log.
  - peel consumers_view consumers_view_log.
  - peel consumers_view consumers_view_log.
  - peel consumers_view consumers_view_log.
  - (* re-subscription: nothing is registered *)
    repeat case_match; try done. unfold _onConnect_consumers.
    rewrite Hc. reflexivity.
  - peel consumers_view consumers_view_log.
  - peel consumers_view consumers_view_log.
  - peel consumers_view consumers_view_log.
  - rewrite Hcc. by rewrite lookup_nil.
  - rewrite Hcc. by rewrite lookup_nil.
  - peel consumers_view consumers_view_log.
  - (* the callback of a consumer that is registered no more *)
    case_bool_decide; [|done]. unfold consumer_callback.
    destruct msg as [m|]; [by apply consumers_view_log|].
    unfold _reconnectConsumer. simpl. rewrite Hc.
    by rewrite bool_decide_eq_false_2 by apply not_elem_of_nil.
Qed.

Lemma no_consumers_run evs s :
  _consumers s = [] → consume_calls s = [] →
  Forall (λ e, calls_consume e = false) evs →
  consumers_view (run evs s) = consumers_view s.
Proof.
  intros Hc Hcc Hevs. induction evs as [|e evs IH] using rev_ind; [done|].
  apply Forall_app in Hevs as [Hevs He]. rewrite Forall_singleton in He.
  specialize (IH Hevs). rewrite run_snoc.
  pose proof IH as [= H1 H2 _].
  rewrite no_consumers_step; [done|congruence|congruence|done].
Qed.

Lemma cancel_fold ch (l : list ConsumerRef) :
  ∀ s,
    let s' := foldl (λ s c,
                match consumer_heap s !! c with
                | Some consumer =>
                    if truthy (consumerTag consumer)
                    then log (ChanCancel ch
                                (default EmptyString (consumerTag consumer))) s
                    else s
                | None => s
                end) s l in
    history s' = history s ++ (l ≫= cancellation s ch)
    ∧ consumer_heap s' = consumer_heap s
    ∧ _consumers s' = _consumers s ∧ consume_calls s' = consume_calls s.
Proof.
  induction l as [|c l IH]; intros s; cbv zeta.
  { simpl. by rewrite app_nil_r. }
  rewrite bind_cons. cbn [foldl].
  set (s1 := match consumer_heap s !! c with
             | Some consumer =>
                 if truthy (consumerTag consumer)
                 then log (ChanCancel ch
                             (default EmptyString (consumerTag consumer))) s
                 else s
             | None => s
             end).
  assert (history s1 = history s ++ cancellation s ch c
          ∧ consumer_heap s1 = consumer_heap s
          ∧ _consumers s1 = _consumers s
          ∧ consume_calls s1 = consume_calls s) as (H1 & H2 & H3 & H4).
  { unfold s1, cancellation. destruct (consumer_heap s !! c) as [x|];
      [destruct (truthy (consumerTag x))|]; simpl; by rewrite ?app_nil_r. }
  clearbody s1. destruct (IH s1) as (G1 & G2 & G3 & G4).
  rewrite G1, G2, G3, G4, H1, H2, H3, H4, <-app_assoc.
  split_and!; try done. do 2 f_equal.
  clear -H2. induction l as [|x l IH]; [done|].
  rewrite !bind_cons, IH. unfold cancellation. by rewrite H2.
Qed.

(** X12: [cancelAll] forgets every consumer.  It empties the registry
    and, on a connected wrapper, calls [channel.cancel] once for every
    consumer the broker had confirmed, in registration order, with the
    confirmed tag; on a disconnected wrapper it calls nothing.  From
    then on, as long as [consume] is not called (and no earlier call of
    it is still on its way), the registry stays empty and the wrapper
    never calls [channel.consume], whatever else happens, reconnects
    and broker cancellations included. *)
Theorem cancelAll_forgets_every_consumer (s : World)
    (evs : list Event) :
  consume_calls s = [] →
  Forall (λ e, calls_consume e = false) evs →
  let s0 := step CallCancelAll s in
  let s' := run evs s0 in
  actions_since s s0
  = match _channel s with
    | Some ch => _consumers s ≫= cancellation s ch
    | None => []
    end
  ∧ _consumers s' = []
  ∧ consume_calls_in (actions_since s0 s') = [].
Proof.
  intros Hcc Hevs s0 s'.
  assert (actions_since s s0
          = match _channel s with
            | Some ch => _consumers s ≫= cancellation s ch
            | None => []
            end
          ∧ _consumers s0 = [] ∧ consume_calls s0 = [])
    as (Hacts & Hc0 & Hcc0).
  { subst s0. cbv beta iota delta [step]. unfold cancelAll. simpl.
    destruct (_channel s) as [ch|]; simpl.
    - destruct (cancel_fold ch (_consumers s) (set_consumers [] s))
        as (H1 & _ & H3 & H4).
      simpl in *.
      split_and!; [by apply actions_since_app|exact H3|by rewrite H4].
    - split_and!; try done. apply actions_since_app. by rewrite app_nil_r. }
  pose proof (no_consumers_run evs s0 Hc0 Hcc0 Hevs) as Hv.
  pose proof (history_run evs s0) as Hpre.
  fold s' in Hv, Hpre. clearbody s'. clearbody s0.
  unfold consumers_view in Hv. injection Hv as H1 H2 H3.
  split; [done|]. split; [congruence|].
  unfold consume_calls_in in *.
  rewrite (history_since s0 s' Hpre), bind_app in H3.
  rewrite <-(app_nil_r (history s0 ≫= consume_call_of)) in H3 at 2.
  by apply app_inv_head in H3.
Qed.

Lemma cancelAll_forgets_every_consumer_witness :
  let s0 := step CallCancelAll consuming in
  let s' := run ([CmDisconnect] ++ connect_events 1
                 ++ [ConsumerCallback 0 None]) s0 in
  actions_since consuming s0 = [ChanCancel 0 "orders-1"]
  ∧ _consumers s' = []
  ∧ consume_calls_in (actions_since s0 s') = [].
Proof.
  apply (cancelAll_forgets_every_consumer consuming
           ([CmDisconnect] ++ connect_events 1
            ++ [ConsumerCallback 0 None])).
  - vm_compute. reflexivity.
  - computed.
Defined.

(** ** Operations passed through to the channel *)

Lemma drops_channel_step e s :
  drops_channel s e → _channel (step e s) = None.
Proof.
  destruct e; try done; cbv beta iota delta [step drops_channel].
  - intros H. by rewrite bool_decide_eq_true_2.
  - intros ->. done.
  - intros [H1 H2]. rewrite bool_decide_eq_true_2 by done.
    unfold _onChannelClose. by rewrite bool_decide_eq_true_2.
Qed.

(** X13: without a channel nothing is passed through.  After [close],
    after the connection manager has reported a disconnect, after the
    current channel has closed, and after a failed [createChannel], no
    pass-through method calls a channel: [ack], [ackAll], [nack],
    [nackAll], [bindQueue] and [unbindQueue] do nothing, [assertQueue]
    and [assertExchange] answer with what they were asked for, and every
    other method throws "Not connected."; [waitForConnect] waits. *)
Theorem no_channel_no_pass_through (s : World) (e : Event)
    (op : ChannelOp) :
  drops_channel s e →
  let s' := step e s in
  (∀ ch op', pass_through op s' ≠ Forwarded ch op')
  ∧ pass_through op s' =
      match op with
      | OpAck _ _ | OpAckAll | OpNack _ _ _ | OpNackAll _
      | OpBindQueue _ _ _ _ | OpUnbindQueue _ _ _ _ => Nothing
      | OpAssertQueue queue _ => AssertQueueReply queue 0 0
      | OpAssertExchange exchange _ _ => AssertExchangeReply exchange
      | _ => Throws not_connected
      end
  ∧ waitForConnect s' = false.
Proof.
  intros He s'. pose proof (drops_channel_step e s He) as Hc.
  fold s' in Hc. clearbody s'.
  unfold waitForConnect. rewrite Hc.
  split; [|split; [|done]].
  - intros ch op'.
    destruct op; simpl;
      unfold ack, ackAll, nack, nackAll, purgeQueue, checkQueue,
        assertQueue, bindQueue, unbindQueue, deleteQueue, assertExchange,
        bindExchange, checkExchange, deleteExchange, unbindExchange, get;
      by rewrite Hc.
  - destruct op; simpl;
      unfold ack, ackAll, nack, nackAll, purgeQueue, checkQueue,
        assertQueue, bindQueue, unbindQueue, deleteQueue, assertExchange,
        bindExchange, checkExchange, deleteExchange, unbindExchange, get;
      by rewrite Hc.
Qed.

Lemma no_channel_no_pass_through_witness :
  let s' := step CmDisconnect online in
  (∀ ch op', pass_through (OpGet "orders" None) s' ≠ Forwarded ch op')
  ∧ pass_through (OpGet "orders" None) s' = Throws not_connected
  ∧ waitForConnect s' = false.
Proof.
  apply (no_channel_no_pass_through online CmDisconnect
           (OpGet "orders" None)).
  apply (list_elem_of_lookup_2 _ 1). vm_compute. reflexivity.
Defined.

(** X14: pass-through methods do not wait for setup.  As soon as
    [createChannel] has produced a channel, every pass-through method
    is forwarded to that channel, although the setup functions have
    only just been called and have not settled; [publish] at the same
    moment does not send but queues, and [waitForConnect] waits. *)
Theorem pass_through_does_not_wait_for_setup (s : World) (a : nat)
    (op : ChannelOp) (ex rk : string) (body : Buffer)
    (opts : option PublishOptions) :
  connects s !! a = Some AwaitCreateChannel →
  let s' := step (CreateChannelOk a) s in
  pass_through op s' = Forwarded (channels s) op
  ∧ setup_calls (actions_since s s') = (λ f, (f, channels s)) <$> _setups s
  ∧ _settingUp s' = Some a
  ∧ sent (actions_since s' (step (CallPublish ex rk body opts) s')) = []
  ∧ length (_messages (step (CallPublish ex rk body opts) s'))
    = S (length (_messages s'))
  ∧ waitForConnect s' = false.
Proof.
  intros Hph s'.
  assert (s' = _onConnect_channel a s) as Hs'.
  { subst s'. cbv beta iota delta [step]. by rewrite Hph. }
  assert (_channel s' = Some (channels s)) as Hch.
  { rewrite Hs'. unfold _onConnect_channel, set_phase. simpl.
    by rewrite (foldl_view _channel). }
  assert (_settingUp s' = Some a) as Hsu by (by rewrite Hs').
  assert (setup_calls (actions_since s s')
          = (λ f, (f, channels s)) <$> _setups s) as Hsetup.
  { rewrite Hs'. apply setup_calls__onConnect_channel. }
  assert (¬ sends_at_once s') as Hblocked.
  { intros (H & _). congruence. }
  destruct (blocked_step (CallPublish ex rk body opts) s' Hblocked eq_refl)
    as (Hsends & _ & Hq & _).
  clearbody s'.
  split_and!; try done.
  - destruct op; simpl;
      unfold ack, ackAll, nack, nackAll, purgeQueue, checkQueue,
        assertQueue, bindQueue, unbindQueue, deleteQueue, assertExchange,
        bindExchange, checkExchange, deleteExchange, unbindExchange, get;
      by rewrite Hch.
  - rewrite sent_sends.
    rewrite (sends_since_eq s' (step (CallPublish ex rk body opts) s') []);
      [done|apply history_step|by rewrite app_nil_r].
  - apply (f_equal length) in Hq.
    change (calls_publish (CallPublish ex rk body opts)) with true in Hq.
    rewrite length_app, !length_fmap in Hq. cbn [length] in Hq. lia.
  - unfold waitForConnect. by rewrite Hch, Hsu.
Qed.

Lemma pass_through_does_not_wait_for_setup_witness :
  let s := run [CmConnect]
             (new_ChannelWrapper false (Some "orders") (Some 7)
                always_room) in
  let s' := step (CreateChannelOk 0) s in
  pass_through (OpAssertQueue "orders" None) s'
  = Forwarded 0 (OpAssertQueue "orders" None)
  ∧ setup_calls (actions_since s s') = [(7, 0)]
  ∧ _settingUp s' = Some 0
  ∧ sent (actions_since s'
            (step (CallPublish "amq.topic" "order.new" "payload" None) s'))
    = []
  ∧ length (_messages
              (step (CallPublish "amq.topic" "order.new" "payload" None) s'))
    = S (length (_messages s'))
  ∧ waitForConnect s' = false.
Proof.
  apply (pass_through_does_not_wait_for_setup
           (run [CmConnect]
              (new_ChannelWrapper false (Some "orders") (Some 7)
                 always_room))
           0 (OpAssertQueue "orders" None)
           "amq.topic" "order.new" "payload" None).
  vm_compute. reflexivity.
Defined.

(** ** [consume] and [cancel] *)

(** [consume] with a tag of the caller's, on a connected wrapper that is
    not setting up. *)
Lemma consume_connected s q h o tag ch :
  opt_consumerTag o = Some tag → tag ≠ EmptyString →
  _settingUp s = None → _channel s = Some ch →
  let c := length (consumer_heap s) in
  let s1 := step (CallConsume q h o) s in
  consumer_heap s1 = consumer_heap s ++ [new_consumer q h o tag]
  ∧ _consumers s1 = _consumers s ++ [c]
  ∧ _channel s1 = Some ch
  ∧ pending_consumes s1 =
      pending_consumes s
      ++ [{| pc_consumer := c; pc_channel := ch;
             pc_owner := OwnerConsumeCall |}]
  ∧ actions_since s s1 =
      match prefetch o with
      | Some n => [ChanPrefetch ch n]
      | None => []
      end ++ [ChanConsume ch q (Some tag) (opt_rest o) c].
Proof.
  intros Ho Htag Hsu Hch c s1. subst s1.
  cbv beta iota delta [step]. unfold consume. rewrite Ho. simpl.
  rewrite bool_decide_eq_false_2 by done. simpl.
  unfold consume_tagged. rewrite Hsu.
  unfold consume_register, _consume. simpl. rewrite Hch.
  rewrite lookup_app_r, Nat.sub_diag by done. simpl.
  destruct (prefetch o); simpl; (split_and!; try done);
    apply actions_since_app; simpl; by rewrite <-?app_assoc.
Qed.

(** The consumer just registered under [tag] is the one [cancel] finds,
    if no consumer was registered under that tag before. *)
Lemma find_registered s s1 tag c x :
  registry_inv s →
  (∀ c', c' ∈ _consumers s → ¬ tag_matches s tag c') →
  c = length (consumer_heap s) →
  _consumers s1 = _consumers s ++ [c] →
  (∀ c', c' < c → c_options <$> consumer_heap s1 !! c'
                  = c_options <$> consumer_heap s !! c') →
  consumer_heap s1 !! c = Some x →
  opt_consumerTag (c_options x) = Some tag →
  list_find (tag_matches s1 tag) (_consumers s1)
  = Some (length (_consumers s), c).
Proof.
  intros [_ Hheap] Hfree -> Hcs Hold Hx Htag.
  rewrite Hcs, list_find_app_r.
  - simpl. rewrite decide_True; [done|].
    unfold tag_matches. by rewrite Hx.
  - apply list_find_None, Forall_forall. intros c' Hc' Hm.
    apply (Hfree c' Hc'). unfold tag_matches in *.
    by rewrite <-Hold by (by apply Hheap).
Qed.

(** X15: [cancel] undoes [consume] in the registry, but it can only
    cancel at the broker what the broker has confirmed.  On a connected
    wrapper that is not setting up, [consume] under a tag that is not in
    use registers the consumer and calls [channel.consume] once.  If
    [cancel] with that tag follows before the broker has answered, the
    registry is back to what it was, but no [channel.cancel] is sent; if
    it follows after the answer, the registry is back to what it was and
    [channel.cancel] is called once, with the tag of the answer. *)
Theorem cancel_undoes_consume (s : World) (q : string) (h : nat)
    (o : ConsumerOptions) (tag confirmed : string) (ch : Channel) :
  registry_inv s →
  opt_consumerTag o = Some tag → tag ≠ EmptyString →
  confirmed ≠ EmptyString →
  _settingUp s = None → _channel s = Some ch →
  (∀ c', c' ∈ _consumers s → ¬ tag_matches s tag c') →
  let c := length (consumer_heap s) in
  let s1 := step (CallConsume q h o) s in
  let s2 := step (CallCancel tag) s1 in
  let s1' := step (ConsumeOk (length (pending_consumes s)) confirmed) s1 in
  let s2' := step (CallCancel tag) s1' in
  _consumers s1 = _consumers s ++ [c]
  ∧ consume_calls_in (actions_since s s1) = [(ch, q, Some tag, c)]
  ∧ _consumers s2 = _consumers s ∧ actions_since s1 s2 = []
  ∧ _consumers s2' = _consumers s
  ∧ actions_since s1' s2' = [ChanCancel ch confirmed].
Proof.
  intros Hinv Ho Htag Hconf Hsu Hch Hfree c s1 s2 s1' s2'.
  destruct (consume_connected s q h o tag ch Ho Htag Hsu Hch)
    as (Hh1 & Hc1 & Hch1 & Hp1 & Ha1).
  fold c s1 in Hh1, Hc1, Hch1, Hp1, Ha1.
  assert (consumer_heap s1 !! c = Some (new_consumer q h o tag)) as Hx1.
  { rewrite Hh1. by rewrite lookup_app_r, Nat.sub_diag. }
  (* the answer of the broker *)
  assert (consumer_heap s1'
          = alter (with_consumerTag (Some confirmed)) c (consumer_heap s1)
          ∧ _consumers s1' = _consumers s1 ∧ _channel s1' = Some ch)
    as (Hh1' & Hc1' & Hch1').
  { subst s1'. cbv beta iota delta [step]. unfold consume_settled.
    rewrite Hp1, lookup_app_r, Nat.sub_diag by done. simpl.
    by rewrite Hch1. }
  clearbody s1'. clearbody s1.
  (* [cancel] before the answer *)
  assert (_consumers s2 = _consumers s ∧ actions_since s1 s2 = [])
    as [Hc2 Ha2].
  { subst s2. cbv beta iota delta [step]. unfold cancel.
    rewrite (find_registered s s1 tag c (new_consumer q h o tag));
      try done.
    2:{ intros c' Hc'. by rewrite Hh1, lookup_app_l. }
    simpl. rewrite Hch1, Hx1. simpl.
    rewrite Hc1, (delete_middle (_consumers s) [] c), app_nil_r.
    split; [done|]. apply actions_since_app. by rewrite app_nil_r. }
  clearbody s2.
  (* [cancel] after the answer *)
  assert (_consumers s2' = _consumers s
          ∧ actions_since s1' s2' = [ChanCancel ch confirmed]) as [Hc2' Ha2'].
  { subst s2'. cbv beta iota delta [step]. unfold cancel.
    assert (consumer_heap s1' !! c
            = Some (with_consumerTag (Some confirmed)
                      (new_consumer q h o tag))) as Hx1'.
    { by rewrite Hh1', list_lookup_alter_eq, Hx1. }
    rewrite (find_registered s s1' tag c
               (with_consumerTag (Some confirmed) (new_consumer q h o tag)));
      try done.
    2:{ congruence. }
    2:{ intros c' Hc'. rewrite Hh1', list_lookup_alter_ne by lia.
        by rewrite Hh1, lookup_app_l. }
    simpl. rewrite Hch1', Hx1'. simpl.
    rewrite bool_decide_eq_false_2 by done. simpl.
    rewrite Hc1', Hc1, (delete_middle (_consumers s) [] c), app_nil_r.
    split; [done|]. by apply actions_since_app. }
  clearbody s2'.
  split_and!; try done.
  rewrite Ha1. unfold consume_calls_in. rewrite bind_app.
  by destruct (prefetch o).
Qed.

Lemma cancel_undoes_consume_witness :
  let s1 := step (CallConsume "orders" 0 orders_options) online in
  let s2 := step (CallCancel "orders-1") s1 in
  let s1' := step (ConsumeOk 0 "amq.ctag-7") s1 in
  let s2' := step (CallCancel "orders-1") s1' in
  _consumers s1 = [0]
  ∧ consume_calls_in (actions_since online s1)
    = [(0, "orders", Some "orders-1", 0)]
  ∧ _consumers s2 = [] ∧ actions_since s1 s2 = []
  ∧ _consumers s2' = []
  ∧ actions_since s1' s2' = [ChanCancel 0 "amq.ctag-7"].
Proof.
  apply (cancel_undoes_consume online "orders" 0 orders_options
           "orders-1" "amq.ctag-7" 0).
  - apply (registry_inv_run (connect_events 0)), registry_inv_new.
  - reflexivity.
  - discriminate.
  - discriminate.
  - vm_compute. reflexivity.
  - vm_compute. reflexivity.
  - intros c' Hc'. vm_compute in Hc'. by apply elem_of_nil in Hc'.
Defined.

(** ** A message the channel throws on *)

Lemma unqueued_loop channel n s p :
  unqueued p s →
  let s' := (publish_loop channel n s).2 in
  unqueued p s' ∧ promises s' !! p = promises s !! p.
Proof.
  intros [Hlt Hout] s'. subst s'.
  destruct (publish_loop_spec channel n s)
    as (acts & Hh & _ & _ & Hd & Hsent & _ & _ & _ & _ & _ & _ & _ & Hsame).
  destruct (publish_loop_sends channel n s)
    as (acts' & Hh' & _ & _ & Hpr & _).
  simpl in *.
  assert (acts' = acts) as ->.
  { rewrite Hh in Hh'. by apply app_inv_head in Hh'. }
  assert (length (promises (publish_loop channel n s).2)
          = length (promises s)) as Hlen.
  { unfold same_control in Hsame. by destruct_and!. }
  split; [split|].
  - by rewrite Hlen.
  - rewrite Hd. intros Hin. apply Hout.
    apply list_elem_of_fmap in Hin as (m & -> & Hm).
    apply list_elem_of_fmap_2.
    eapply sublist_subseteq; [apply sublist_drop|exact Hm].
  - destruct (promises (publish_loop channel n s).2 !! p) as [w|] eqn:Hw.
    + destruct (Hpr p w Hw) as [?|(room & _ & Hin)]; [done|].
      exfalso. apply Hout.
      assert (p ∈ sent acts) as Hp.
      { rewrite sent_sends. apply list_elem_of_fmap.
        by exists (channel, Returned room, p). }
      rewrite Hsent in Hp.
      apply list_elem_of_fmap in Hp as (m & -> & Hm).
      apply list_elem_of_fmap_2.
      eapply sublist_subseteq; [apply sublist_take|exact Hm].
    + apply lookup_ge_None in Hw. lia.
Qed.

Lemma unqueued_same s s' p :
  _messages s' = _messages s → promises s' = promises s →
  unqueued p s → unqueued p s' ∧ promises s' !! p = promises s !! p.
Proof. unfold unqueued. by intros -> ->. Qed.

Lemma unqueued_worker n s p :
  unqueued p s →
  let s' := _publishExchangeMessages n s in
  unqueued p s' ∧ promises s' !! p = promises s !! p.
Proof.
  intros Hu s'. subst s'.
  destruct (decide (worker_proceeds n s)) as [Hgo|Hno].
  2:{ rewrite worker_stops by done. by apply unqueued_same. }
  pose proof (worker_proceeds_sends_at_once _ _ Hgo) as (_ & [ch Hch] & _).
  rewrite (worker_runs n s ch Hgo Hch).
  destruct (unqueued_loop ch MAX_MESSAGES_PER_BATCH s p Hu) as [Hu' Hp'].
  destruct (publish_loop ch MAX_MESSAGES_PER_BATCH s) as [[err|] s1];
    simpl in *.
  - split; [|exact Hp']. apply (unqueued_same s1 _ p); done.
  - destruct (_channelHasRoom s1 && bool_decide (0 < length (_messages s1)));
      (split; [|exact Hp']); apply (unqueued_same s1 _ p); done.
Qed.

Lemma unqueued__startWorker s p :
  unqueued p s →
  unqueued p (_startWorker s)
  ∧ promises (_startWorker s) !! p = promises s !! p.
Proof.
  intros Hu. destruct (_startWorker_cases s) as [->|(_ & _ & -> & _)];
    [done|].
  apply (unqueued_worker _
           (set_workerNumber (S (_workerNumber s)) (set_working true s))).
  exact Hu.
Qed.

Lemma unqueued_step e s p :
  unqueued p s →
  unqueued p (step e s) ∧ promises (step e s) !! p = promises s !! p.
Proof.
  intros Hu.
  destruct (quiet e) eqn:He.
  { pose proof (worker_view_quiet e s He) as [= _ _ Hq _ _].
    destruct e; try discriminate He;
      try (match goal with
           | |- context [step ?e ?s] =>
               pose proof (settle_view_quiet e s He ltac:(discriminate))
                 as [= _ _ Hp];
               by apply unqueued_same
           end).
    (* close *)
    destruct Hu as [Hlt Hout].
    change (step CallClose s) with (close s) in *.
    destruct (close_spec s) as (_ & Hp & Hm & _).
    unfold unqueued. rewrite Hp, Hm, length_settle_all.
    split; [done|]. by apply settle_all_other. }
  destruct e; try discriminate He; cbv beta iota delta [step].
  - (* publish *)
    destruct Hu as [Hlt Hout].
    assert (∀ v, settle (length (promises s)) v (promises s ++ [Pending])
                   !! p = promises s !! p) as Hsettle.
    { intros v. rewrite settle_other by lia. by rewrite lookup_app_l. }
    unfold publish, chan_publish, _enqueueMessage, unqueued. simpl.
    destruct (_settingUp s), (_channel s), (_channelHasRoom s); simpl;
      try destruct (channel_publish s (history s)); simpl;
      rewrite ?length_settle, ?length_app, ?fmap_app, ?Hsettle; simpl;
      rewrite ?lookup_app_l by lia;
      (split; [split; [lia|]|done]); try done;
      rewrite elem_of_app, list_elem_of_singleton; intros [?|?];
      solve [done|lia].
  - repeat case_match; try done. unfold _onConnect_resume.
    case_match; [|done].
    destruct (unqueued__startWorker (set_phase a Done s) p Hu) as [G1 G2].
    split; [|exact G2].
    apply (unqueued_same (_startWorker (set_phase a Done s)) _ p); done.
  - case_bool_decide; [|done].
    apply (unqueued__startWorker (set_channelHasRoom true s) p Hu).
  - destruct (immediates s) as [|n rest]; [done|].
    apply (unqueued_worker n (set_immediates rest s) p Hu).
Qed.

Lemma unqueued_run evs s p :
  unqueued p s →
  unqueued p (run evs s) ∧ promises (run evs s) !! p = promises s !! p.
Proof.
  intros Hu. induction evs as [|e evs [IH1 IH2]] using rev_ind; [done|].
  rewrite run_snoc. destruct (unqueued_step e (run evs s) p IH1) as [H1 H2].
  split; [done|]. by rewrite H2.
Qed.

Lemma publish_loop_throw channel n s message rest err :
  _channelHasRoom s = true →
  _messages s = message :: rest →
  channel_publish s (history s) = Thrown err →
  publish_loop channel (S n) s
  = (Some err, after_throw channel message rest err s).
Proof.
  intros Hroom Hq Hres. simpl. rewrite Hroom, Hq. simpl.
  unfold chan_publish. by rewrite Hres.
Qed.

(** X16: a message on which [channel.publish] throws inside the worker
    is lost.  The worker has taken the message off the queue before the
    call; when the call throws, the worker stops and emits ['error'],
    but it neither puts the message back nor rejects its promise, and
    nothing that happens later settles that promise or sends the
    message: the caller of [publish] waits forever. *)
Theorem message_thrown_on_in_the_worker_is_lost (s : World) (n : nat)
    (ch : Channel) (m : Message) (rest : list Message) (err : Error)
    (evs : list Event) :
  worker_proceeds n s → _channel s = Some ch →
  _messages s = m :: rest →
  completion m ∉ completion <$> rest →
  promises s !! completion m = Some Pending →
  channel_publish s (history s) = Thrown err →
  let s1 := _publishExchangeMessages n s in
  let s' := run evs s1 in
  actions_since s s1 =
    [ChanPublish ch (exchange m) (routingKey m) (content m) (options m)
       (Thrown err) (completion m);
     Emit (WError err None)]
  ∧ _messages s1 = rest ∧ _working s1 = false
  ∧ promises s' !! completion m = Some Pending
  ∧ completion m ∉ completion <$> _messages s'.
Proof.
  intros Hgo Hch Hq Hnd Hpend Hres s1 s'.
  assert (s1 = emit (WError err None)
                 (set_working false (after_throw ch m rest err s))) as Hs1.
  { subst s1. rewrite (worker_runs n s ch Hgo Hch).
    pose proof (worker_proceeds_sends_at_once _ _ Hgo) as (_ & _ & Hroom).
    assert (MAX_MESSAGES_PER_BATCH = S 999) as -> by (by vm_compute).
    by rewrite (publish_loop_throw ch 999 s m rest err Hroom Hq Hres). }
  assert (unqueued (completion m) s1) as Hu.
  { rewrite Hs1. split; simpl; [by eapply lookup_lt_Some|done]. }
  assert (promises s1 !! completion m = Some Pending) as Hp1
    by (by rewrite Hs1).
  destruct (unqueued_run evs s1 (completion m) Hu) as [[_ Hout] Hp].
  fold s' in Hout, Hp.
  assert (actions_since s s1 =
    [ChanPublish ch (exchange m) (routingKey m) (content m) (options m)
       (Thrown err) (completion m);
     Emit (WError err None)]) as Hacts.
  { rewrite Hs1. apply actions_since_app. simpl. by rewrite <-app_assoc. }
  assert (_messages s1 = rest ∧ _working s1 = false) as [Hm1 Hw1]
    by (by rewrite Hs1).
  clearbody s'. clearbody s1.
  split_and!; try done. congruence.
Qed.

Lemma message_thrown_on_in_the_worker_is_lost_witness :
  let s1 := _publishExchangeMessages 1 doomed in
  let s' := run ([CmDisconnect] ++ connect_events 1 ++ [CallClose]) s1 in
  actions_since doomed s1 =
    [ChanPublish 0 "amq.topic" "order.new" "payload" (Some [])
       (Thrown illegal_operation) 0;
     Emit (WError illegal_operation None)]
  ∧ _messages s1 = [] ∧ _working s1 = false
  ∧ promises s' !! 0 = Some Pending
  ∧ 0 ∉ completion <$> _messages s'.
Proof.
  apply (message_thrown_on_in_the_worker_is_lost doomed 1 0
           (queued_message 0) [] illegal_operation
           ([CmDisconnect] ++ connect_events 1 ++ [CallClose])).
  - computed.
  - vm_compute. reflexivity.
  - vm_compute. reflexivity.
  - apply not_elem_of_nil.
  - vm_compute. reflexivity.
  - reflexivity.
Defined.

(** * Setup failures, the worker's channel and queued promises *)

(** ** A setup function that throws as it is called *)














(** ** A worker and the channel it sends on *)





(** ** What settles a queued message *)







